(** * chain33 mempool: the pool orchestrator of [system/mempool/base.go]

    A shallow embedding of the orchestrator's functions and the proofs of
    the statements made about them.  Go's [int64]/[int32]/[int] values are
    integers in [Z] with the wrap-around of 64-bit arithmetic written out,
    Go's [/] and [%] are [Z.quot] and [Z.rem], Go maps are [gmap]s and
    dedup sets are [gset]s. *)

From Stdlib Require Import ZArith Lia.
From stdpp Require Import gmap strings list fin_maps sorting.

Local Open Scope Z_scope.

(** ** 64-bit integers *)

Definition int64_min : Z := - 2 ^ 63.
Definition int64_max : Z := 2 ^ 63 - 1.

Definition in_int64 (z : Z) : Prop := int64_min ≤ z ≤ int64_max.

(** The value an [int64] (or a 64-bit [int]) holds after an operation whose
    mathematical result is [z]. *)
Definition wrap64 (z : Z) : Z := (z + 2 ^ 63) `mod` 2 ^ 64 - 2 ^ 63.

(** ** Data of package [types] used by the pool *)

(** [types.Transaction], with the observations the pool makes of it:
    [tx.Hash()], [tx.From()], [tx.ActionName()] and [types.Size(tx)] are
    functions of the transaction and are kept as fields. *)
Record Transaction : Type := mkTx {
  Hash : string;          (* tx.Hash() *)
  From : string;          (* tx.From() *)
  Execer : string;        (* tx.GetExecer() *)
  SignTy : Z;             (* tx.GetSignature().GetTy(), int32 *)
  Nonce : Z;              (* tx.GetNonce(), int64 *)
  GroupCount : Z;         (* tx.GetGroupCount(), int32 *)
  ActionName : string;    (* tx.ActionName() *)
  Fee : Z;                (* tx.Fee, int64 *)
  Size : Z                (* serialized size in bytes *)
}.

Global Instance Transaction_eq_dec : EqDecision Transaction.
Proof. solve_decision. Defined.

(** [types.Header]: the chain head the pool last saw. *)
Record Header : Type := mkHeader {
  Height : Z;
  BlockTime : Z
}.

(** [types.Mempool]: the configuration record. *)
Record MempoolCfg : Type := mkCfg {
  PoolCacheSize : Z;
  MinTxFeeRate : Z;
  MaxTxFeeRate : Z;
  MaxTxFee : Z;
  ForceAccept : bool;
  MaxTxNumPerAccount : Z;
  MaxTxLast : Z;
  IsLevelFee : bool
}.

(** [types.ReqProperFee] *)
Record ReqProperFee : Type := mkReq {
  TxCount : Z;   (* int32 *)
  TxSize : Z     (* int32 *)
}.

(** ** The pool cache *)

(** An entry of the cache: [Item.Value] is the pooled transaction. *)
Record Item : Type := mkItem {
  Value : Transaction;
  Priority : Z;
  EnterTime : Z
}.

(** Modelled from the spec: the queue behind [txCache], which is declared
    in another file of the package.  The spec describes a hash-indexed,
    fee-ordered store whose [Walk] visits the resident items in a stable
    priority order; the queue is kept as the list of resident items in that
    order. *)
Abbreviation QueueCache := (list Item) (only parsing).

(** [txCache]: [qcache] is [nil] until a queue is installed. *)
Record txCache : Type := mkCache {
  qcache : option QueueCache
}.

(** Modelled from the spec: the resident items, none without a queue. *)
Definition cacheItems (c : txCache) : list Item := default [] (qcache c).

(** Modelled from the spec: [Exist(hash)], whether an item with this hash
    is resident. *)
Definition Exist (c : txCache) (hash : string) : bool :=
  bool_decide (hash ∈ (Hash ∘ Value) <$> cacheItems c).

(** Modelled from the spec: [Remove(hash)] removes the item from all
    indices if present. *)
Definition Remove (c : txCache) (hash : string) : txCache :=
  match qcache c with
  | None => c
  | Some q => mkCache (Some (filter (λ it, Hash (Value it) ≠ hash) q))
  end.

(** Modelled from the spec: [Size()], the number of resident items. *)
Definition cacheSize (c : txCache) : Z := Z.of_nat (length (cacheItems c)).

(** Modelled from the spec: [GetCacheBytes()], the sum of the serialized
    sizes of the resident items. *)
Definition GetCacheBytes (q : QueueCache) : Z :=
  foldr (λ it acc, Size (Value it) + acc) 0 q.

(** Modelled from the spec: [Walk(0, visitor)] hands the resident items to
    the visitor in priority order until the visitor answers "stop"; the
    visitor threads its accumulator [S]. *)
Fixpoint Walk {S : Type} (items : list Item) (visitor : S → Item → S * bool)
    (s : S) : S :=
  match items with
  | [] => s
  | it :: rest =>
      let '(s', continue) := visitor s it in
      if continue then Walk rest visitor s' else s'
  end.

(** ** The orchestrator's state *)

Record Mempool : Type := mkMempool {
  header : option Header;   (* nil until the first header arrives *)
  sync : bool;
  cfg : MempoolCfg;
  cache : txCache
}.

(** [mem.header.GetHeight()]: the generated getter answers 0 on [nil]. *)
Definition headerGetHeight (mem : Mempool) : Z :=
  from_option Height 0 (header mem).

Definition headerGetBlockTime (mem : Mempool) : Z :=
  from_option BlockTime 0 (header mem).

(** [Mempool.Height]: -1 while no header is known. *)
Definition mempoolHeight (mem : Mempool) : Z :=
  match header mem with
  | None => -1
  | Some h => Height h
  end.

(** [Mempool.Size] *)
Definition mempoolSize (mem : Mempool) : Z := cacheSize (cache mem).

(** [Mempool.GetTotalCacheBytes]: calls through [mem.cache.qcache], which
    panics ([None]) when no queue is installed. *)
Definition GetTotalCacheBytes (mem : Mempool) : option Z :=
  GetCacheBytes <$> qcache (cache mem).

(** [mem.setSync] *)
Definition setSync (mem : Mempool) (status : bool) : Mempool :=
  mkMempool (header mem) status (cfg mem) (cache mem).

(** The pool with its cache replaced. *)
Definition withCache (mem : Mempool) (c : txCache) : Mempool :=
  mkMempool (header mem) (sync mem) (cfg mem) c.

(** ** Collaborators declared in other packages and files *)

(** What the pool uses of package [types] and of the chain configuration
    reached through [mem.client.GetConfig()]. *)
Class ChainTypes : Type := {
  (** [types.IsEthSignID] on a signature type *)
  IsEthSignID : Z → bool;
  (** [types.ParaKeyX], the prefix of parallel-chain executors *)
  ParaKeyX : string;
  (** [types.MinerAction] *)
  MinerAction : string;
  (** [types.MaxBlockSize] *)
  MaxBlockSize : Z;
  (** [cfg.GetP(height).MaxTxNumber] *)
  MaxTxNumber : Z → Z;
  (** [cfg.IsFork(height, "ForkCheckEthTxSort")] *)
  IsForkCheckEthTxSort : Z → bool;
  (** [tx.Check(cfg, height, minfee, maxFee) == nil] *)
  txCheck : Transaction → Z → Z → Z → bool;
  (** [types.Transactions{Txs: txs}.Tx()], the group as one transaction *)
  groupTx : list Transaction → Transaction
}.

(** Go's [error] values: the errors of package [types] the pool meets, and
    any other error by its message. *)
Inductive error : Type :=
  | ErrMemFull
  | ErrTxExist
  | ErrManyTx
  | ErrTxExpire
  | ErrTxFeeTooLow
  | ErrTxFeeTooHigh
  | ErrOther (msg : string).

Global Instance error_eq_dec : EqDecision error.
Proof. solve_decision. Defined.

(** The rest of package [mempool]: functions and package variables the
    orchestrator uses that are declared in other files of the package. *)
Class PoolPackage : Type := {
  (** the package defaults *)
  maxTxNumPerAccount : Z;
  maxTxLast : Z;
  poolCacheSize : Z;
  (** [isExpired(cfg, item, height, blockTime)] *)
  isExpired : Item → Z → Z → bool;
  (** [mem.checkExpireValid(tx)] *)
  checkExpireValid : Mempool → Transaction → bool;
  (** [qcache.GetProperFee()], the fee the pluggable queue policy proposes
      for its current content *)
  GetProperFee : QueueCache → Z;
  (** [cache.Push(tx)]: the cache afterwards and the error, if any *)
  cachePush : txCache → Transaction → txCache * option error
}.

(** ** Construction: [NewMempool] *)

(** Modelled from the spec: the cache of a new pool holds nothing; its
    queue policy is installed afterwards, by [SetQueueCache]. *)
Definition newCache (maxTxPerAccount sHashCacheSize lastTxCacheSize : Z)
  : txCache := mkCache None.

(** The configuration after the three [if cfg.X == 0] assignments of
    [NewMempool]. *)
Definition NewMempool_cfg `{!PoolPackage} (c : MempoolCfg) : MempoolCfg :=
  let c1 := if MaxTxNumPerAccount c =? 0
            then mkCfg (PoolCacheSize c) (MinTxFeeRate c) (MaxTxFeeRate c)
                   (MaxTxFee c) (ForceAccept c) maxTxNumPerAccount
                   (MaxTxLast c) (IsLevelFee c)
            else c in
  let c2 := if MaxTxLast c1 =? 0
            then mkCfg (PoolCacheSize c1) (MinTxFeeRate c1) (MaxTxFeeRate c1)
                   (MaxTxFee c1) (ForceAccept c1) (MaxTxNumPerAccount c1)
                   maxTxLast (IsLevelFee c1)
            else c1 in
  if PoolCacheSize c2 =? 0
  then mkCfg poolCacheSize (MinTxFeeRate c2) (MaxTxFeeRate c2)
         (MaxTxFee c2) (ForceAccept c2) (MaxTxNumPerAccount c2)
         (MaxTxLast c2) (IsLevelFee c2)
  else c2.

Definition NewMempool `{!PoolPackage} (c : MempoolCfg) : Mempool :=
  let c' := NewMempool_cfg c in
  {| header := None;
     sync := false;
     cfg := c';
     cache := newCache (MaxTxNumPerAccount c') (MaxTxLast c')
                (PoolCacheSize c') |}.

(** ** Fee recommendation *)

(** The heap of request objects: a [*types.ReqProperFee] is [nil] ([None])
    or the address of a cell. *)
Abbreviation loc := nat (only parsing).
Abbreviation heap := (list ReqProperFee) (only parsing).

(** Computations that read and write the heap and may panic. *)
Definition Go (A : Type) : Type := heap → option (A * heap).

Global Instance Go_ret : MRet Go := λ A a h, Some (a, h).
Global Instance Go_bind : MBind Go := λ A B f m h,
  match m h with
  | Some (a, h') => f a h'
  | None => None
  end.

(** [&types.ReqProperFee{...}] *)
Definition new (v : ReqProperFee) : Go loc :=
  λ h, Some (length h, h ++ [v]).

(** [*p] *)
Definition load (p : loc) : Go ReqProperFee :=
  λ h, match h !! p with
       | Some v => Some (v, h)
       | None => None
       end.

(** [*p = v] *)
Definition store (p : loc) (v : ReqProperFee) : Go unit :=
  λ h, if decide (p < length h)%nat then Some (tt, <[p := v]> h) else None.

(** A heap-free computation that may panic. *)
Definition lift {A : Type} (o : option A) : Go A :=
  λ h, match o with
       | Some a => Some (a, h)
       | None => None
       end.

(** The precision control of [getCacheFeeRate]. *)
Definition roundToUnit (unitFee feeRate : Z) : Z :=
  if negb (unitFee =? 0) && (feeRate `rem` unitFee >? 0)
  then wrap64 (wrap64 (feeRate `quot` unitFee + 1) * unitFee)
  else feeRate.

(** [if feeRate > mem.cfg.MaxTxFeeRate { feeRate = mem.cfg.MaxTxFeeRate }] *)
Definition clampFee (mem : Mempool) (feeRate : Z) : Z :=
  if feeRate >? MaxTxFeeRate (cfg mem) then MaxTxFeeRate (cfg mem)
  else feeRate.

Definition getCacheFeeRate `{!PoolPackage} (mem : Mempool) : Z :=
  match qcache (cache mem) with
  | None => 0
  | Some q =>
      let feeRate := GetProperFee q in
      let unitFee := MinTxFeeRate (cfg mem) in
      clampFee mem (roundToUnit unitFee feeRate)
  end.

Definition getLevelFeeRate `{!ChainTypes} (mem : Mempool)
    (baseFeeRate appendCount appendSize : Z) : option Z :=
  total ← GetTotalCacheBytes mem;
  let sumByte := wrap64 (total + appendSize) in
  let maxTxNumber := MaxTxNumber (mempoolHeight mem) in
  let memSize := mempoolSize mem in
  let feeRate :=
    if (sumByte >=? MaxBlockSize `quot` 20)
       || (wrap64 (memSize + appendCount) >=? maxTxNumber `quot` 2)
    then wrap64 (100 * baseFeeRate)
    else if (sumByte >=? MaxBlockSize `quot` 100)
            || (wrap64 (memSize + appendCount) >=? maxTxNumber `quot` 10)
    then wrap64 (10 * baseFeeRate)
    else baseFeeRate in
  Some (clampFee mem feeRate).

Definition GetProperFeeRate `{!ChainTypes, !PoolPackage} (mem : Mempool)
    (req : option loc) : Go Z :=
  (* if req == nil || req.TxCount == 0 { req = &ReqProperFee{TxCount: 20} } *)
  req1 ← match req with
         | None => new (mkReq 20 0)
         | Some p =>
             v ← load p;
             if TxCount v =? 0 then new (mkReq 20 0) else mret p
         end;
  (* if req.TxSize == 0 { req.TxSize = 10240 } *)
  v1 ← load req1;
  _ ← (if TxSize v1 =? 0 then store req1 (mkReq (TxCount v1) 10240)
       else mret tt);
  let feeRate := getCacheFeeRate mem in
  if IsLevelFee (cfg mem) then
    v2 ← load req1;
    levelFeeRate ← lift (getLevelFeeRate mem (MinTxFeeRate (cfg mem))
                           (TxCount v2) (TxSize v2));
    mret (if levelFeeRate >? feeRate then levelFeeRate else feeRate)
  else mret feeRate.

(** ** Removal: [RemoveTxs] *)

(** [types.TxHashList] *)
Record TxHashList : Type := mkHashList {
  Hashes : list string;
  Count : Z
}.

(** One turn of the loop of [removeTxs]. *)
Definition removeTx (mem : Mempool) (hash : string) : Mempool :=
  let exist := Exist (cache mem) hash in
  if exist then withCache mem (Remove (cache mem) hash) else mem.

Definition removeTxs (mem : Mempool) (hashes : list string) : Mempool :=
  foldl removeTx mem hashes.

(** [RemoveTxs]: the pool afterwards and the returned [error]. *)
Definition RemoveTxs (mem : Mempool) (hashList : TxHashList)
  : Mempool * option error :=
  (removeTxs mem (Hashes hashList), None).

(** [PushTx]: the pool afterwards and the error of [cache.Push]. *)
Definition PushTx `{!PoolPackage} (mem : Mempool) (tx : Transaction)
  : Mempool * option error :=
  let '(c, err) := cachePush (cache mem) tx in
  (withCache mem c, err).

(** ** The nonce sequencer: [sortEthSignTyTx] *)

(** What [WaitTimeout] hands back for an [EventGetEvmNonce] request. *)
Inductive NonceReply : Type :=
  | ReplyNonce (nonce : Z)   (* an [*types.EvmAccountNonce] *)
  | ReplyOther               (* data of another type *)
  | ReplyError.              (* error or timeout *)

Definition getCurrentNonce (rpc : string → NonceReply) (addr : string) : Z :=
  match rpc addr with
  | ReplyNonce nonce => nonce
  | _ => 0
  end.

(** The test that sends a transaction to the nonce sort: eth signature and
    not a parallel-chain executor. *)
Definition isEthSignTx `{!ChainTypes} (tx : Transaction) : bool :=
  IsEthSignID (SignTy tx) && negb (String.prefix ParaKeyX (Execer tx)).

(** One turn of the first loop: the state is [merge] and [ethsignTxs]. *)
Definition splitTx `{!ChainTypes}
    (st : list Transaction * gmap string (list Transaction))
    (tx : Transaction) : list Transaction * gmap string (list Transaction) :=
  if isEthSignTx tx
  then (st.1, <[From tx := st.2 !!! From tx ++ [tx]]> st.2)
  else (st.1 ++ [tx], st.2).

Definition splitTxs `{!ChainTypes} (txs : list Transaction)
  : list Transaction * gmap string (list Transaction) :=
  foldl splitTx ([], ∅) txs.

(** The [less] function handed to [sort.SliceStable]. *)
Definition nonceLess (a b : Transaction) : bool := Nonce a <? Nonce b.

(** [sort.SliceStable(etxs, less)]: the ascending arrangement that keeps
    elements [less] does not separate in their original order, computed by
    insertion. *)
Fixpoint insertStable (tx : Transaction) (sorted : list Transaction)
  : list Transaction :=
  match sorted with
  | [] => [tx]
  | y :: rest =>
      if nonceLess y tx then y :: insertStable tx rest else tx :: y :: rest
  end.

Definition sortSliceStable (etxs : list Transaction) : list Transaction :=
  foldr insertStable [] etxs.

(** The inner loop over [etxs[1:]]: [prev] is [etxs[i-1]]. *)
Fixpoint appendConsecutive (prev : Transaction) (rest : list Transaction)
  : list Transaction :=
  match rest with
  | [] => []
  | etx :: rest' =>
      if Nonce etx =? wrap64 (Nonce prev + 1)
      then etx :: appendConsecutive etx rest'
      else []
  end.

(** What one turn of the loop over [ethsignTxs] appends to [merge]. *)
Definition emitSender (rpc : string → NonceReply) (from : string)
    (etxs : list Transaction) : list Transaction :=
  match sortSliceStable etxs with
  | [] => []
  | first :: rest =>
      if getCurrentNonce rpc from =? Nonce first
      then first :: appendConsecutive first rest
      else []
  end.

(** [sortEthSignTyTx].  Go leaves the order in which [range] visits the keys
    of a map open; [order] is the order of this run. *)
Definition sortEthSignTyTx `{!ChainTypes} (rpc : string → NonceReply)
    (order : list string) (txs : list Transaction) : list Transaction :=
  let '(merge, ethsignTxs) := splitTxs txs in
  if decide (length merge = length txs) then txs
  else foldl (λ merge from,
                merge ++ emitSender rpc from (ethsignTxs !!! from))
         merge order.

(** ** Listing: [getTxList] *)

(** The visitor [filterTxList] hands to [Walk]; the accumulator is [txs], the
    flag is the visitor's answer ([true]: go on). *)
Definition filterVisitor `{!PoolPackage} (count : Z) (dupMap : gset string)
    (isAll : bool) (height blockTime : Z) (txs : list Transaction)
    (tx : Item) : list Transaction * bool :=
  if bool_decide (0 < size dupMap)%nat
     && bool_decide (Hash (Value tx) ∈ dupMap)
  then (txs, true)
  else if isExpired tx height blockTime && negb isAll
  then (txs, true)
  else
    let txs := txs ++ [Value tx] in
    if (count >? 0) && (Z.of_nat (length txs) =? count)
    then (txs, false)
    else (txs, true).

Definition filterTxList `{!ChainTypes, !PoolPackage} (mem : Mempool)
    (rpc : string → NonceReply) (order : list string)
    (count : Z) (dupMap : gset string) (isAll : bool) : list Transaction :=
  let height := wrap64 (headerGetHeight mem + 1) in
  let blockTime := headerGetBlockTime mem in
  let txs := Walk (cacheItems (cache mem))
               (filterVisitor count dupMap isAll height blockTime) [] in
  if IsForkCheckEthTxSort (headerGetHeight mem)
  then sortEthSignTyTx rpc order txs
  else txs.

(** [getTxList]: the list and the pool afterwards. *)
Definition getTxList `{!ChainTypes, !PoolPackage} (mem : Mempool)
    (rpc : string → NonceReply) (order : list string)
    (filterList : TxHashList) : list Transaction * Mempool :=
  let count := Count filterList in
  let dupMap := foldl (λ (m : gset string) h, {[h]} ∪ m) ∅
                  (Hashes filterList) in
  (filterTxList mem rpc order count dupMap false, mem).

(** ** Rollback: [delBlock] *)

(** [types.Block] *)
Record Block : Type := mkBlock {
  Txs : list Transaction
}.

(** The loop of [delBlock] from index [i] on.  Every turn moves [i] forward,
    so [len(blkTxs)] turns are enough; [None] is a run that needs more turns
    than [fuel]. *)
Fixpoint delBlockLoop `{!ChainTypes, !PoolPackage} (fuel : nat)
    (blkTxs : list Transaction) (i : nat) (mem : Mempool) : option Mempool :=
  match blkTxs !! i with
  | None => Some mem
  | Some tx =>
      match fuel with
      | O => None
      | S fuel' =>
          if (i =? 0)%nat && String.eqb (ActionName tx) MinerAction
          then delBlockLoop fuel' blkTxs (i + 1)%nat mem
          else
            let groupCount := GroupCount tx in
            let '(tx, i) :=
              if (groupCount >? 1)
                 && (Z.of_nat i + groupCount <=? Z.of_nat (length blkTxs))
              then (groupTx (take (Z.to_nat groupCount) (drop i blkTxs)),
                    (i + Z.to_nat groupCount - 1)%nat)
              else (tx, i) in
            let mem' :=
              if negb (txCheck tx (headerGetHeight mem)
                         (MinTxFeeRate (cfg mem)) (MaxTxFee (cfg mem)))
              then mem
              else if negb (checkExpireValid mem tx)
              then mem
              else (PushTx mem tx).1 in
            delBlockLoop fuel' blkTxs (i + 1)%nat mem'
      end
  end.

Definition delBlock `{!ChainTypes, !PoolPackage} (mem : Mempool)
    (block : Block) : option Mempool :=
  if (length (Txs block) <=? 0)%nat then Some mem
  else delBlockLoop (length (Txs block)) (Txs block) 0 mem.

(** The spec's account of the rollback, to be compared with the loop. *)

(** Revalidation (structural check and fee bounds, expiry) before [Push]; a
    candidate that fails is left out and nothing else happens; the error of
    [Push] is dropped. *)
Definition specReadmit `{!ChainTypes, !PoolPackage} (mem : Mempool)
    (tx : Transaction) : Mempool :=
  if txCheck tx (headerGetHeight mem) (MinTxFeeRate (cfg mem))
       (MaxTxFee (cfg mem))
     && checkExpireValid mem tx
  then (PushTx mem tx).1
  else mem.

(** The candidates of a run of block transactions: a transaction declaring
    a group size [g > 1] that fits in what is left stands for the group of
    the next [g] transactions, reassembled; any other stands for itself. *)
Fixpoint specGroupScan `{!ChainTypes} (fuel : nat) (rest : list Transaction)
  : list Transaction :=
  match fuel, rest with
  | S fuel', tx :: rest' =>
      let g := GroupCount tx in
      if (1 <? g) && (g <=? Z.of_nat (length rest))
      then groupTx (take (Z.to_nat g) rest)
             :: specGroupScan fuel' (drop (Z.to_nat g) rest)
      else tx :: specGroupScan fuel' rest'
  | _, _ => []
  end.

(** Position 0 is skipped when it is the miner's. *)
Definition specCandidates `{!ChainTypes} (txs : list Transaction)
  : list Transaction :=
  match txs with
  | tx0 :: rest =>
      if String.eqb (ActionName tx0) MinerAction
      then specGroupScan (length rest) rest
      else specGroupScan (length txs) txs
  | [] => []
  end.

(** Modelled from the spec: "Items are created on successful [Push]", and a
    [Push] that fails rejects the item; the cache is declared in another
    file of the package.  A [Push] that answers an error leaves the cache as
    it was. *)
Definition pushRejects `{!PoolPackage} : Prop :=
  ∀ (c c' : txCache) (tx : Transaction) (err : error),
    cachePush c tx = (c', Some err) → c' = c.

(** A candidate the rollback drops: one that fails the structural check and
    fee bounds or the expiry check, or whose [Push] answers an error. *)
Definition dropped `{!ChainTypes, !PoolPackage} (mem : Mempool)
    (tx : Transaction) : bool :=
  negb (txCheck tx (headerGetHeight mem) (MinTxFeeRate (cfg mem))
          (MaxTxFee (cfg mem)))
  || negb (checkExpireValid mem tx)
  || match (cachePush (cache mem) tx).2 with
     | Some _ => true
     | None => false
     end.

(** The spec's account of one candidate: a dropped candidate is not
    re-admitted and the pool stays as it is; any other is in the pool as
    [Push] put it there. *)
Definition specAdmit `{!ChainTypes, !PoolPackage} (mem : Mempool)
    (tx : Transaction) : Mempool :=
  if dropped mem tx then mem
  else withCache mem (cachePush (cache mem) tx).1.

(** ** The sync gate: [checkSync] *)

(** What one turn of the polling loop meets: the pool closed, a failing
    [Send], a failing [Wait], or the chain's answer. *)
Inductive SyncRound : Type :=
  | RoundClosed
  | RoundSendError
  | RoundWaitError
  | RoundBehind
  | RoundCaughtUp.

(** What the task does that others can see. *)
Inductive SyncAction : Type :=
  | AskIsSync      (* EventIsSync to "blockchain" *)
  | Sleep          (* time.Sleep(time.Second) *)
  | NotifyP2P      (* EventIsSync to "p2p" *)
  | SignalReady.   (* mem.poolHeader <- struct{}{} *)

(** The [for] loop over the rounds the environment offers; the flag tells
    whether the loop returned ([false]: still polling when the rounds are
    used up). *)
Fixpoint checkSyncLoop (rounds : list SyncRound) (mem : Mempool)
  : Mempool * list SyncAction * bool :=
  match rounds with
  | [] => (mem, [], false)
  | RoundClosed :: _ => (mem, [], true)
  | RoundSendError :: rest =>
      let '(mem', acts, returned) := checkSyncLoop rest mem in
      (mem', AskIsSync :: Sleep :: acts, returned)
  | RoundWaitError :: rest =>
      let '(mem', acts, returned) := checkSyncLoop rest mem in
      (mem', AskIsSync :: Sleep :: acts, returned)
  | RoundBehind :: rest =>
      let '(mem', acts, returned) := checkSyncLoop rest mem in
      (mem', AskIsSync :: Sleep :: acts, returned)
  | RoundCaughtUp :: _ =>
      (setSync mem true, [AskIsSync; NotifyP2P], true)
  end.

(** [checkSync]; the deferred signal on [poolHeader] follows the return. *)
Definition checkSync (rounds : list SyncRound) (mem : Mempool)
  : Mempool * list SyncAction * bool :=
  if sync mem then (mem, [SignalReady], true)
  else
    let mem := if ForceAccept (cfg mem) then setSync mem true else mem in
    let '(mem', acts, returned) := checkSyncLoop rounds mem in
    (mem', acts ++ (if returned then [SignalReady] else []), returned).

(** ** The delayed-transaction resubmitter: [pushDelayTxRoutine] *)

Section Resubmitter.
(** The node behind [mem.getAPI().SendTx]: its state and what a submission
    does to it and answers. *)
Context {World : Type}.
Variable SendTx : World → Transaction → World * option error.

(** The closure [push2Mempool]; [retryList] is the variable it captures. *)
Definition push2Mempool (st : World * list Transaction) (tx : Transaction)
  : World * list Transaction :=
  let '(w, retryList) := st in
  let '(w', err) := SendTx w tx in
  (w', match err with
       | Some ErrMemFull => retryList ++ [tx]
       | _ => retryList
       end).

(** What [select] delivers. *)
Inductive RoutineEvent : Type :=
  | EvDone
  | EvDelayList (delayList : list Transaction)
  | EvTick.

(** The [for]/[select] loop over the events the routine receives. *)
Fixpoint pushDelayTxLoop (events : list RoutineEvent)
    (st : World * list Transaction) : World * list Transaction :=
  match events with
  | [] => st
  | EvDone :: _ => st
  | EvDelayList delayList :: rest =>
      pushDelayTxLoop rest (foldl push2Mempool st delayList)
  | EvTick :: rest =>
      if (length st.2 =? 0)%nat then pushDelayTxLoop rest st
      else
        let sendList := st.2 in
        pushDelayTxLoop rest (foldl push2Mempool (st.1, []) sendList)
  end.

Definition pushDelayTxRoutine (events : list RoutineEvent) (w : World)
  : World * list Transaction :=
  pushDelayTxLoop events (w, []).

(** The submissions of one pass over [txs], in order, each with the error
    it met. *)
Fixpoint passResults (w : World) (txs : list Transaction)
  : list (Transaction * option error) :=
  match txs with
  | [] => []
  | tx :: rest => (tx, (SendTx w tx).2) :: passResults (SendTx w tx).1 rest
  end.

(** The node after the submissions of one pass over [txs]. *)
Definition passWorld (w : World) (txs : list Transaction) : World :=
  foldl (λ w tx, (SendTx w tx).1) w txs.

(** The transactions of a pass that met the pool-full error, in order. *)
Definition poolFullOf (results : list (Transaction * option error))
  : list Transaction :=
  fst <$> filter (λ r, r.2 = Some ErrMemFull) results.
End Resubmitter.

(** ** The statements under test, in the spec's words *)

(** *** Fee recommendation *)

(** The least multiple of the unit that is not below the rate ("rounded up
    to the nearest unit"); without a unit the rate is left as it is. *)
Definition ceilToUnit (unitFee feeRate : Z) : Z :=
  if unitFee =? 0 then feeRate
  else unitFee * ((feeRate + unitFee - 1) `div` unitFee).

(** The request the recommendation is computed for: 20 transactions and
    10240 bytes stand in for what the caller left unset. *)
Definition requestUsed (req : option ReqProperFee) : ReqProperFee :=
  match req with
  | None => mkReq 20 10240
  | Some v =>
      if TxCount v =? 0 then mkReq 20 10240
      else if TxSize v =? 0 then mkReq (TxCount v) 10240
      else v
  end.

(** The recommendation for an anticipated count and size. *)
Definition feeRateFor `{!ChainTypes, !PoolPackage} (mem : Mempool)
    (count size : Z) : option Z :=
  if IsLevelFee (cfg mem) then
    levelFeeRate ← getLevelFeeRate mem (MinTxFeeRate (cfg mem)) count size;
    Some (Z.max (getCacheFeeRate mem) levelFeeRate)
  else Some (getCacheFeeRate mem).

(** The heap after a call with [req]: a caller's object that is kept gets
    the default size when it has none; otherwise the call works on a fresh
    object, which it leaves behind. *)
Definition heapAfter (req : option loc) (h : heap) : heap :=
  match req ≫= (h !!.) with
  | None => h ++ [mkReq 20 10240]
  | Some v =>
      if TxCount v =? 0 then h ++ [mkReq 20 10240]
      else if TxSize v =? 0
      then <[default 0%nat req := mkReq (TxCount v) 10240]> h
      else h
  end.

(** "When [req.TxSize == 0] the function writes the default size into the
    caller's object", as a statement about one call. *)
Definition writesDefaultSize `{!ChainTypes, !PoolPackage} (mem : Mempool)
    (h : heap) (p : loc) : Prop :=
  ∀ v, h !! p = Some v → TxSize v = 0 →
  ∃ rate h', GetProperFeeRate mem (Some p) h = Some (rate, h')
             ∧ h' !! p = Some (mkReq (TxCount v) 10240).

(** *** Configuration *)

(** "A zero-valued field is replaced by its default before use", for the
    two fee-rate fields: the pool built from [c] does not work with a zero
    rate. *)
Definition feeRatesDefaulted `{!PoolPackage} (c : MempoolCfg) : Prop :=
  (MinTxFeeRate c = 0 → MinTxFeeRate (cfg (NewMempool c)) ≠ 0)
  ∧ (MaxTxFeeRate c = 0 → MaxTxFeeRate (cfg (NewMempool c)) ≠ 0).

(** *** Nonce sequencing *)

(** The transactions of [txs] the sequencer handles for [sender]. *)
Definition senderGroup `{!ChainTypes} (sender : string)
    (txs : list Transaction) : list Transaction :=
  filter (λ tx, isEthSignTx tx = true ∧ From tx = sender) txs.

(** The senders the sequencer handles, each once. *)
Definition ethSenders `{!ChainTypes} (txs : list Transaction) : list string :=
  remove_dups (From <$> filter (λ tx, isEthSignTx tx = true) txs).

(** The transactions of [txs] the sequencer lets pass. *)
Definition passThrough `{!ChainTypes} (txs : list Transaction)
  : list Transaction :=
  filter (λ tx, isEthSignTx tx = false) txs.

(** The nonces of [run] are [expected], [expected + 1], ... without gap. *)
Definition consecutiveFrom (expected : Z) (run : list Transaction) : Prop :=
  ∀ (i : nat) tx, run !! i = Some tx → Nonce tx = expected + Z.of_nat i.

(** The run of the claim: the sender's transaction with the expected nonce,
    then the one with the next nonce, and so on until a nonce is missing
    from the pool. *)
Fixpoint claimedRun (fuel : nat) (expected : Z) (group : list Transaction)
  : list Transaction :=
  match fuel with
  | O => []
  | S fuel' =>
      match list_find (λ tx, Nonce tx = expected) group with
      | Some (_, tx) => tx :: claimedRun fuel' (expected + 1) group
      | None => []
      end
  end.

(** *** Listing *)

(** The resident transactions a request may be answered with: not in the
    dedup set and not expired for the next block. *)
Definition eligible `{!PoolPackage} (mem : Mempool) (dup : list string)
  : list Transaction :=
  Value <$> filter (λ it, (Hash (Value it) ∉ dup)
                          ∧ isExpired it (wrap64 (headerGetHeight mem + 1))
                              (headerGetBlockTime mem) = false)
              (cacheItems (cache mem)).

(** The number of answers the claim promises: [min(K, available)], with
    [K = 0] for no bound. *)
Definition promisedCount (count : Z) (available : nat) : Z :=
  if count =? 0 then Z.of_nat available
  else Z.min count (Z.of_nat available).

(** *** Sync gate *)

(** "Under [ForceAccept] the poller ends at once, without asking the chain",
    as a statement about one run. *)
Definition endsWithoutPolling (rounds : list SyncRound) (mem : Mempool)
  : Prop :=
  snd (checkSync rounds mem) = true
  ∧ AskIsSync ∉ snd (fst (checkSync rounds mem)).

(** ** Sample collaborators and pools *)

(** A chain configuration to run the pool against: signature type 1 stands
    for the eth signature; [fork] tells whether [ForkCheckEthTxSort] is
    active. *)
Definition sampleChain (fork : bool) : ChainTypes := {|
  IsEthSignID := λ ty, ty =? 1;
  ParaKeyX := "user.p.";
  MinerAction := "miner";
  MaxBlockSize := 20000000;
  MaxTxNumber := λ _, 1600;
  IsForkCheckEthTxSort := λ _, fork;
  txCheck := λ tx _ minfee maxFee, (minfee <=? Fee tx) && (Fee tx <=? maxFee);
  groupTx := λ txs,
    mkTx (String.concat "" (Hash <$> txs)) (from_option From "" (head txs))
      (from_option Execer "" (head txs)) (from_option SignTy 0 (head txs))
      (from_option Nonce 0 (head txs)) (Z.of_nat (length txs))
      (from_option ActionName "" (head txs))
      (foldr (λ tx acc, Fee tx + acc) 0 txs)
      (foldr (λ tx acc, Size tx + acc) 0 txs)
|}.

(** A pool package: nothing expires, the queue proposes [properFee], and
    [Push] refuses a resident hash and otherwise appends. *)
Definition samplePool (properFee : Z) : PoolPackage := {|
  maxTxNumPerAccount := 100;
  maxTxLast := 10;
  poolCacheSize := 10240;
  isExpired := λ _ _ _, false;
  checkExpireValid := λ _ _, true;
  GetProperFee := λ _, properFee;
  cachePush := λ c tx,
    if Exist c (Hash tx) then (c, Some ErrTxExist)
    else (mkCache (Some (cacheItems c ++ [mkItem tx (Fee tx) 0])), None)
|}.

Definition sampleCfg : MempoolCfg := {|
  PoolCacheSize := 10240;
  MinTxFeeRate := 100000;
  MaxTxFeeRate := 10000000;
  MaxTxFee := 1000000000;
  ForceAccept := false;
  MaxTxNumPerAccount := 100;
  MaxTxLast := 10;
  IsLevelFee := true
|}.

(** The sample configuration with [ForceAccept] set. *)
Definition forceCfg : MempoolCfg :=
  mkCfg 10240 100000 10000000 1000000000 true 100 10 true.

(** A node that is full for the transaction with hash ["full"], rejects the
    one with hash ["bad"] and takes every other; its state counts the
    submissions. *)
Definition sampleSendTx (w : nat) (tx : Transaction) : nat * option error :=
  (S w, if String.eqb (Hash tx) "full" then Some ErrMemFull
        else if String.eqb (Hash tx) "bad" then Some ErrTxFeeTooLow
        else None).

(** The configuration with every field left unset. *)
Definition unsetCfg : MempoolCfg := mkCfg 0 0 0 0 false 0 0 false.

(** A transfer of [sender] with the given hash, signature type and nonce. *)
Definition sampleTx (hash sender : string) (ty nonce : Z) : Transaction :=
  mkTx hash sender "coins" ty nonce 0 "transfer" 100000 200.

(** A pool at height 10 holding [txs] in walk order. *)
Definition samplePoolOf (c : MempoolCfg) (txs : list Transaction) : Mempool :=
  {| header := Some (mkHeader 10 1000);
     sync := false;
     cfg := c;
     cache := mkCache (Some ((λ tx, mkItem tx (Fee tx) 0) <$> txs)) |}.

(** The nonce oracle that expects nonce 5 of every sender. *)
Definition expects5 (addr : string) : NonceReply := ReplyNonce 5.

(** ** Further functions of the orchestrator *)

(** [RemoveTxsOfBlock]: the pool afterwards and the returned flag. *)
Definition RemoveTxsOfBlock (mem : Mempool) (block : Block) : Mempool * bool :=
  (foldl (λ mem tx,
            let hash := Hash tx in
            let exist := Exist (cache mem) hash in
            if exist then withCache mem (Remove (cache mem) hash) else mem)
     mem (Txs block),
   true).

(** Modelled from the spec: [cache.removeExpiredTx(cfg, height, blockTime)]
    purges every item that is expired relative to the given reference
    point. *)
Definition removeExpiredTx `{!PoolPackage} (c : txCache)
    (height blockTime : Z) : txCache :=
  match qcache c with
  | None => c
  | Some q =>
      mkCache (Some (filter (λ it, isExpired it height blockTime = false) q))
  end.

(** [removeExpired]: the reference point is the next block's height and the
    head's block time. *)
Definition removeExpired `{!PoolPackage} (mem : Mempool) : Mempool :=
  withCache mem
    (removeExpiredTx (cache mem) (wrap64 (headerGetHeight mem + 1))
       (headerGetBlockTime mem)).

(** [setHeader].  The copy of the height in [currHeight], which nothing in
    this file reads, is not part of the state. *)
Definition setHeader (mem : Mempool) (h : Header) : Mempool :=
  mkMempool (Some h) (sync mem) (cfg mem) (cache mem).

(** [GetHeader] *)
Definition GetHeader (mem : Mempool) : option Header := header mem.

(** What one turn of the loop of [pollLastHeader] meets: the pool closed, a
    failing [GetLastHeader], or the chain's last header. *)
Inductive HeaderRound : Type :=
  | HeaderClosed
  | HeaderError
  | HeaderOk (h : Header).

(** What the header task does that others can see. *)
Inductive HeaderAction : Type :=
  | AskLastHeader   (* EventGetLastHeader to "blockchain" *)
  | SleepSecond     (* time.Sleep(time.Second) *)
  | SignalHeader.   (* mem.poolHeader <- struct{}{} *)

(** The [for] loop of [pollLastHeader] over the rounds the environment
    offers; the flag tells whether the loop returned. *)
Fixpoint pollLastHeaderLoop (rounds : list HeaderRound) (mem : Mempool)
  : Mempool * list HeaderAction * bool :=
  match rounds with
  | [] => (mem, [], false)
  | HeaderClosed :: _ => (mem, [], true)
  | HeaderError :: rest =>
      let '(mem', acts, returned) := pollLastHeaderLoop rest mem in
      (mem', AskLastHeader :: SleepSecond :: acts, returned)
  | HeaderOk h :: _ => (setHeader mem h, [AskLastHeader], true)
  end.

(** [pollLastHeader]; the deferred signal on [poolHeader] follows the
    return. *)
Definition pollLastHeader (rounds : list HeaderRound) (mem : Mempool)
  : Mempool * list HeaderAction * bool :=
  let '(mem', acts, returned) := pollLastHeaderLoop rounds mem in
  (mem', acts ++ (if returned then [SignalHeader] else []), returned).

(** [types.ReqTxHashList] *)
Record ReqTxHashList : Type := mkReqHashes {
  ReqHashes : list string;
  IsShortHash : bool
}.

Section TxListByHash.
(** [cache.GetSHashTxCache] and [cache.getTxByHash], declared in another
    file of the package: the transaction found, [nil] ([None]) otherwise. *)
Variable GetSHashTxCache : txCache → string → option Transaction.
Variable getTxByHash : txCache → string → option Transaction.

(** [getTxListByHash]: the field [Txs] of the reply. *)
Definition getTxListByHash (mem : Mempool) (hashList : ReqTxHashList)
  : list (option Transaction) :=
  if IsShortHash hashList
  then foldl (λ txs sHash, txs ++ [GetSHashTxCache (cache mem) sHash]) []
         (ReqHashes hashList)
  else foldl (λ txs hash, txs ++ [getTxByHash (cache mem) hash]) []
         (ReqHashes hashList).
End TxListByHash.

(** The transactions of the delay lists a run of the resubmitter receives
    before it is told to stop. *)
Fixpoint delayedTxs (events : list RoutineEvent) : list Transaction :=
  match events with
  | [] => []
  | EvDone :: _ => []
  | EvDelayList delayList :: rest => delayList ++ delayedTxs rest
  | EvTick :: rest => delayedTxs rest
  end.

(** A chain configuration whose [Check] refuses every transaction. *)
Definition strictChain : ChainTypes := {|
  IsEthSignID := λ ty, ty =? 1;
  ParaKeyX := "user.p.";
  MinerAction := "miner";
  MaxBlockSize := 20000000;
  MaxTxNumber := λ _, 1600;
  IsForkCheckEthTxSort := λ _, false;
  txCheck := λ _ _ _ _, false;
  groupTx := λ txs, mkTx "" "" "" 0 0 0 "" 0 0
|}.

(** ** Signature helpers of the eth RPC types *)

(** Bytes are integers from 0 to 255; the conversion [byte(x)] and the
    arithmetic of [uint8] keep the low eight bits. *)
Definition byteOf (z : Z) : Z := z `mod` 256.

(** The value an [int32] holds after an operation whose mathematical result
    is [z]. *)
Definition wrap32 (z : Z) : Z := (z + 2 ^ 31) `mod` 2 ^ 32 - 2 ^ 31.

(** [s[i]]: panics ([None]) unless [0 <= i < len(s)]. *)
Definition goIndex (s : list Z) (i : Z) : option Z :=
  if 0 <=? i then s !! Z.to_nat i else None.

(** [s[low:high]] on a slice with the elements [s] whose backing array goes
    on with [spare]: panics unless [0 <= low <= high <= cap(s)]. *)
Definition goSlice (s spare : list Z) (low high : Z) : option (list Z) :=
  if (0 <=? low) && (low <=? high)
     && (high <=? Z.of_nat (length s + length spare))
  then Some (take (Z.to_nat (high - low)) (drop (Z.to_nat low) (s ++ spare)))
  else None.

(** [s[i] = v]: panics unless [0 <= i < len(s)]. *)
Definition goStore (s : list Z) (i v : Z) : option (list Z) :=
  if (0 <=? i) && (i <? Z.of_nat (length s))
  then Some (<[Z.to_nat i := v]> s)
  else None.

(** [copy(dst[from:], src)]: the destination afterwards and the number of
    bytes copied; panics unless [0 <= from <= len(dst)]. *)
Definition goCopy (dst : list Z) (from : Z) (src : list Z)
  : option (list Z * Z) :=
  if (0 <=? from) && (from <=? Z.of_nat (length dst))
  then
    let n := Nat.min (length dst - Z.to_nat from) (length src) in
    Some (take (Z.to_nat from) dst ++ take n src
            ++ drop (Z.to_nat from + n) dst,
          Z.of_nat n)
  else None.

(** The errors of the signature helpers. *)
Inductive SigError : Type :=
  | ErrWrongSigSize (len : nat)   (* "wrong sig data size:%v,..." *)
  | ErrInvalidSigLength.          (* "invalid pub key byte,must be 65 bytes" *)

(** [paraseDERCode]: [r], [s] and the error; [None] is a panic.  A result
    that is not set is the [nil] slice. *)
Definition paraseDERCode (sig spare : list Z)
  : option (list Z * list Z * option SigError) :=
  if (length sig <? 70)%nat || (71 <? length sig)%nat
  then Some ([], [], Some (ErrWrongSigSize (length sig)))
  else
    b0 ← goIndex sig 0;
    b2 ← goIndex sig 2;
    r ← (if (b0 =? 0x30) && (b2 =? 0x02) then
           b3 ← goIndex sig 3;
           r ← goSlice sig spare 4 (b3 + 4);
           r0 ← goIndex r 0;
           Some (if r0 =? 0x0 then drop 1 r else r)
         else Some []);
    b3 ← goIndex sig 3;
    tag ← goIndex sig (b3 + 4);
    s ← (if tag =? 0x02 then
           len ← goIndex sig (b3 + 5);
           goSlice sig spare (b3 + 6) (b3 + 6 + len)
         else Some []);
    Some (r, s, None).

(** [MakeDERsignature]; [None] is a panic. *)
Definition MakeDERsignature (rb sb : list Z) : option (list Z) :=
  r0 ← goIndex rb 0;
  let rb := if 0x7F <? r0 then 0 :: rb else rb in
  s0 ← goIndex sb 0;
  let sb := if 0x7F <? s0 then 0 :: sb else sb in
  let total := 6 + Z.of_nat (length rb) + Z.of_nat (length sb) in
  let b := replicate (Z.to_nat total) 0 in
  b ← goStore b 0 0x30;
  b ← goStore b 1 (byteOf (total - 2));
  b ← goStore b 2 0x02;
  b ← goStore b 3 (byteOf (Z.of_nat (length rb)));
  copied ← goCopy b 4 rb;
  let offset := copied.2 + 4 in
  b ← goStore copied.1 offset 0x02;
  b ← goStore b (offset + 1) (byteOf (Z.of_nat (length sb)));
  copied ← goCopy b (offset + 2) sb;
  Some copied.1.

(** [new(big.Int).SetBytes(bs)]: the bytes as a big-endian number. *)
Definition bigEndian (bs : list Z) : Z :=
  foldl (λ acc b, acc * 256 + b) 0 bs.

(** [decodeSignature]: [r], [s], [v]; [None] is its panic on a signature
    that is not 65 bytes long. *)
Definition decodeSignature (sig : list Z) : option (Z * Z * Z) :=
  if negb (length sig =? 65)%nat then None
  else
    v ← goIndex sig 64;
    Some (bigEndian (take 32 sig), bigEndian (take 32 (drop 32 sig)),
          bigEndian [byteOf (v + 27)]).

(** What [MakeDERSigToRSV] returns: [r], [s], [v], or the error. *)
Inductive RSV : Type :=
  | RSVOk (r s v : Z)
  | RSVErr (e : SigError).

(** [MakeDERSigToRSV]; [chainID] is [eipSigner.ChainID()], and [None] is a
    panic. *)
Definition MakeDERSigToRSV (chainID : Z) (sig spare : list Z) : option RSV :=
  if (length sig =? 65)%nat then
    v ← goIndex sig 64;
    Some (RSVOk (bigEndian (take 32 sig)) (bigEndian (take 32 (drop 32 sig)))
            (bigEndian [v]))
  else
    parsed ← paraseDERCode sig spare;
    match parsed with
    | (_, _, Some err) => Some (RSVErr err)
    | (rb, sb, None) =>
        let signature := (rb ++ sb) ++ [0x00] in
        rsv ← decodeSignature signature;
        if negb (chainID =? 0) then
          v0 ← goIndex signature 64;
          Some (RSVOk rsv.1.1 rsv.1.2 (byteOf (v0 + 35) + chainID * 2))
        else Some (RSVOk rsv.1.1 rsv.1.2 rsv.2)
    end.

(** [ParaseEthSigData]: the returned slice, which is the argument written
    in place, and the error. *)
Definition ParaseEthSigData (sig : list Z) (chainID : Z)
  : list Z * option SigError :=
  if negb (length sig =? 65)%nat then ([], Some ErrInvalidSigLength)
  else
    match sig !! 64%nat with
    | None => (sig, None)
    | Some v =>
        if negb (v =? 0) && negb (v =? 1) then
          if (v =? 27) || (v =? 28)
          then (<[64%nat := byteOf (v - 27)]> sig, None)
          else
            let chainIDMul := wrap32 (2 * chainID) in
            (<[64%nat := byteOf (byteOf (v - byteOf chainIDMul) - 35)]> sig,
             None)
        else (sig, None)
    end.

(** The sign padding of DER: a zero byte in front of a value whose first
    byte is above [0x7F]. *)
Definition derPad (bs : list Z) : list Z :=
  match bs with
  | b :: _ => if 0x7F <? b then 0 :: bs else bs
  | [] => []
  end.

(** The DER layout of two padded values. *)
Definition derLayout (rb sb : list Z) : list Z :=
  [0x30; byteOf (4 + Z.of_nat (length rb) + Z.of_nat (length sb)); 0x02;
   byteOf (Z.of_nat (length rb))]
  ++ rb ++ [0x02; byteOf (Z.of_nat (length sb))] ++ sb.

(** ** Further sample collaborators *)

(** A pool package whose items expire 100 seconds after they entered. *)
Definition agingPool : PoolPackage := {|
  maxTxNumPerAccount := 100;
  maxTxLast := 10;
  poolCacheSize := 10240;
  isExpired := λ it _ blockTime, EnterTime it + 100 <? blockTime;
  checkExpireValid := λ _ _, true;
  GetProperFee := λ _, 0;
  cachePush := λ c tx,
    if Exist c (Hash tx) then (c, Some ErrTxExist)
    else (mkCache (Some (cacheItems c ++ [mkItem tx (Fee tx) 0])), None)
|}.

(** A node that is never full: it rejects the transaction with hash ["bad"]
    and takes every other; its state counts the submissions. *)
Definition openSendTx (w : nat) (tx : Transaction) : nat * option error :=
  (S w, if String.eqb (Hash tx) "bad" then Some ErrTxFeeTooLow else None).

(** A 32-byte value whose first byte is [b0]. *)
Definition sampleScalar (b0 fill : Z) : list Z := b0 :: replicate 31 fill.

(** * Proofs *)

(** ** 64-bit arithmetic *)

Lemma wrap64_id (z : Z) : in_int64 z → wrap64 z = z.
Proof.
  unfold in_int64, int64_min, int64_max, wrap64. intros Hz.
  rewrite Z.mod_small; lia.
Qed.

Lemma wrap64_range (z : Z) : in_int64 (wrap64 z).
Proof.
  unfold in_int64, int64_min, int64_max, wrap64.
  pose proof (Z.mod_pos_bound (z + 2 ^ 63) (2 ^ 64)). lia.
Qed.

(** ** Construction *)

(** C5 (as amended): [NewMempool] replaces exactly three zero-valued fields
    by their defaults, [MaxTxNumPerAccount], [MaxTxLast] and
    [PoolCacheSize]; [MinTxFeeRate], [MaxTxFeeRate], [IsLevelFee] and
    [ForceAccept] reach the pool as the caller gave them. *)
Theorem NewMempool_defaults `{!PoolPackage} (c : MempoolCfg) :
  let c' := cfg (NewMempool c) in
  MaxTxNumPerAccount c'
    = (if MaxTxNumPerAccount c =? 0 then maxTxNumPerAccount
       else MaxTxNumPerAccount c)
  ∧ MaxTxLast c' = (if MaxTxLast c =? 0 then maxTxLast else MaxTxLast c)
  ∧ PoolCacheSize c'
    = (if PoolCacheSize c =? 0 then poolCacheSize else PoolCacheSize c)
  ∧ MinTxFeeRate c' = MinTxFeeRate c
  ∧ MaxTxFeeRate c' = MaxTxFeeRate c
  ∧ IsLevelFee c' = IsLevelFee c
  ∧ ForceAccept c' = ForceAccept c.
Proof.
  destruct c as [pcs minr maxr maxf fa mtn mtl lvl].
  unfold NewMempool, NewMempool_cfg; simpl.
  destruct (mtn =? 0); simpl;
    destruct (mtl =? 0); simpl;
    destruct (pcs =? 0); simpl; repeat split; reflexivity.
Qed.

(** C5, the claim as stated fails: built from the configuration with every
    field unset, the pool works with fee rates 0, which no default
    replaced. *)
Lemma NewMempool_fee_rates_stay_unset :
  ¬ @feeRatesDefaulted (samplePool 0) unsetCfg.
Proof.
  intros [Hmin _]. apply Hmin; reflexivity.
Qed.

(** ** Fee recommendation *)

Lemma clampFee_min (mem : Mempool) (feeRate : Z) :
  clampFee mem feeRate = Z.min feeRate (MaxTxFeeRate (cfg mem)).
Proof.
  unfold clampFee. destruct (Z.gtb_spec feeRate (MaxTxFeeRate (cfg mem))); lia.
Qed.

Lemma geb_ge_iff (a b : Z) : (a >=? b) = true ↔ b ≤ a.
Proof. rewrite Z.geb_leb, Z.leb_le. tauto. Qed.

Lemma geb_orb_iff (a b c d : Z) :
  (a >=? b) || (c >=? d) = true ↔ b ≤ a ∨ d ≤ c.
Proof. rewrite orb_true_iff, !geb_ge_iff. tauto. Qed.

(** C4: with the queue installed and no overflow, the level-based rate is
    100 times the base fee when the pooled plus the anticipated bytes reach
    [MaxBlockSize/20] or the pooled plus the anticipated count reaches half
    of the height's [MaxTxNumber]; 10 times the base fee when they reach
    [MaxBlockSize/100] or a tenth of [MaxTxNumber]; the base fee otherwise;
    and in each case no more than [MaxTxFeeRate].  The fractions are Go's
    integer quotients. *)
Theorem getLevelFeeRate_tiers `{!ChainTypes} (mem : Mempool) (q : QueueCache)
    (baseFeeRate appendCount appendSize : Z) :
  qcache (cache mem) = Some q →
  in_int64 (GetCacheBytes q + appendSize) →
  in_int64 (mempoolSize mem + appendCount) →
  in_int64 (100 * baseFeeRate) →
  let sumByte := GetCacheBytes q + appendSize in
  let count := mempoolSize mem + appendCount in
  let maxTxNumber := MaxTxNumber (mempoolHeight mem) in
  let top := MaxBlockSize `quot` 20 ≤ sumByte ∨ maxTxNumber `quot` 2 ≤ count in
  let mid :=
    MaxBlockSize `quot` 100 ≤ sumByte ∨ maxTxNumber `quot` 10 ≤ count in
  ∃ rate,
    getLevelFeeRate mem baseFeeRate appendCount appendSize = Some rate
    ∧ (top → rate = Z.min (100 * baseFeeRate) (MaxTxFeeRate (cfg mem)))
    ∧ (¬ top → mid → rate = Z.min (10 * baseFeeRate) (MaxTxFeeRate (cfg mem)))
    ∧ (¬ top → ¬ mid → rate = Z.min baseFeeRate (MaxTxFeeRate (cfg mem))).
Proof.
  intros Hq Hbytes Hcount Hbase sumByte count maxTxNumber top mid.
  assert (Hten : in_int64 (10 * baseFeeRate)).
  { unfold in_int64, int64_min, int64_max in *. lia. }
  unfold getLevelFeeRate, GetTotalCacheBytes. rewrite Hq. simpl.
  rewrite (wrap64_id _ Hbytes), (wrap64_id _ Hcount),
    (wrap64_id _ Hbase), (wrap64_id _ Hten).
  fold sumByte count maxTxNumber.
  eexists. split; [reflexivity|].
  rewrite clampFee_min.
  destruct ((sumByte >=? MaxBlockSize `quot` 20)
            || (count >=? maxTxNumber `quot` 2)) eqn:Htop.
  - apply geb_orb_iff in Htop.
    split; [reflexivity|]. split; intros Hn; contradiction.
  - assert (¬ top) as Hntop.
    { intros Ht. apply geb_orb_iff in Ht. congruence. }
    destruct ((sumByte >=? MaxBlockSize `quot` 100)
              || (count >=? maxTxNumber `quot` 10)) eqn:Hmid.
    + apply geb_orb_iff in Hmid.
      split; [intros; contradiction|].
      split; [reflexivity|]. intros _ Hn; contradiction.
    + assert (¬ mid) as Hnmid.
      { intros Hm. apply geb_orb_iff in Hm. congruence. }
      split; [intros; contradiction|].
      split; [intros; contradiction|]. reflexivity.
Qed.

(** C4 at work: 2000 transactions of 200 bytes at height 10 against a limit
    of 1600 per block price the next one at 100 times the base fee,
    clamped. *)
Lemma getLevelFeeRate_tiers_witness :
  ∃ rate,
    @getLevelFeeRate (sampleChain false)
      (samplePoolOf sampleCfg (replicate 2000 (sampleTx "h" "A" 0 0)))
      100000 20 10240 = Some rate
    ∧ rate = 10000000.
Proof.
  destruct (@getLevelFeeRate_tiers (sampleChain false)
              (samplePoolOf sampleCfg (replicate 2000 (sampleTx "h" "A" 0 0)))
              ((λ tx, mkItem tx (Fee tx) 0)
                 <$> replicate 2000 (sampleTx "h" "A" 0 0))
              100000 20 10240)
    as (rate & Hrate & Htop & _).
  - reflexivity.
  - vm_compute. split; discriminate.
  - vm_compute. split; discriminate.
  - vm_compute. split; discriminate.
  - exists rate. split; [exact Hrate|].
    rewrite Htop; [reflexivity|].
    right. vm_compute. discriminate.
Defined.

(** The level-based rate never exceeds the configured maximum. *)
Lemma getLevelFeeRate_le_max `{!ChainTypes} (mem : Mempool)
    (baseFeeRate appendCount appendSize rate : Z) :
  getLevelFeeRate mem baseFeeRate appendCount appendSize = Some rate →
  rate ≤ MaxTxFeeRate (cfg mem).
Proof.
  unfold getLevelFeeRate. destruct (GetTotalCacheBytes mem); simpl; [|done].
  intros [= <-]. rewrite clampFee_min. lia.
Qed.

(** With a queue installed the level-based rate is defined. *)
Lemma getLevelFeeRate_total `{!ChainTypes} (mem : Mempool) (q : QueueCache)
    (baseFeeRate appendCount appendSize : Z) :
  qcache (cache mem) = Some q →
  is_Some (getLevelFeeRate mem baseFeeRate appendCount appendSize).
Proof.
  intros Hq. unfold getLevelFeeRate, GetTotalCacheBytes. rewrite Hq. simpl.
  eauto.
Qed.

(** Without overflow the level-based rate is the base fee times 1, 10 or
    100, or the maximum. *)
Lemma getLevelFeeRate_multiple `{!ChainTypes} (mem : Mempool)
    (baseFeeRate appendCount appendSize rate : Z) :
  in_int64 (100 * baseFeeRate) →
  getLevelFeeRate mem baseFeeRate appendCount appendSize = Some rate →
  rate = MaxTxFeeRate (cfg mem) ∨ (baseFeeRate | rate).
Proof.
  intros Hbase.
  assert (Hten : in_int64 (10 * baseFeeRate)).
  { unfold in_int64, int64_min, int64_max in *. lia. }
  unfold getLevelFeeRate. destruct (GetTotalCacheBytes mem); simpl; [|done].
  intros [= <-]. rewrite (wrap64_id _ Hbase), (wrap64_id _ Hten).
  rewrite clampFee_min.
  match goal with
  | |- context [Z.min ?x _] =>
      assert ((baseFeeRate | x)) as Hdiv;
      [| destruct (Z.min_spec x (MaxTxFeeRate (cfg mem))) as [[_ ->]|[_ ->]];
         [right; exact Hdiv | left; reflexivity]]
  end.
  repeat case_match.
  - exists 100. lia.
  - exists 10. lia.
  - exists 1. lia.
Qed.

(** The precision control rounds a non-negative rate up to the next
    multiple of the unit. *)
Lemma roundToUnit_ceil (unitFee feeRate : Z) :
  0 ≤ unitFee → 0 ≤ feeRate → feeRate + unitFee ≤ int64_max →
  roundToUnit unitFee feeRate = ceilToUnit unitFee feeRate.
Proof.
  intros Hu Hf Hmax. unfold roundToUnit, ceilToUnit.
  destruct (Z.eqb_spec unitFee 0) as [->|Hne]; simpl; [reflexivity|].
  rewrite Z.rem_mod_nonneg, Z.quot_div_nonneg by lia.
  assert (Hdm := Z.div_mod feeRate unitFee Hne).
  assert (Hb := Z.mod_pos_bound feeRate unitFee ltac:(lia)).
  assert (Hq : 0 ≤ feeRate `div` unitFee) by (apply Z.div_pos; lia).
  destruct (Z.gtb_spec (feeRate `mod` unitFee) 0) as [Hpos|Hzero].
  - assert ((feeRate + unitFee - 1) `div` unitFee = feeRate `div` unitFee + 1)
      as ->.
    { symmetry. apply Z.div_unique with (feeRate `mod` unitFee - 1); lia. }
    unfold int64_max in Hmax.
    rewrite (wrap64_id (feeRate `div` unitFee + 1)).
    + rewrite wrap64_id; [lia|].
      unfold in_int64, int64_min, int64_max. nia.
    + unfold in_int64, int64_min, int64_max. nia.
  - assert ((feeRate + unitFee - 1) `div` unitFee = feeRate `div` unitFee)
      as ->.
    { symmetry. apply Z.div_unique with (unitFee - 1); lia. }
    lia.
Qed.

(** [ceilToUnit] is the least multiple of a positive unit that is not below
    the rate. *)
Lemma ceilToUnit_least (unitFee feeRate : Z) :
  0 < unitFee →
  (unitFee | ceilToUnit unitFee feeRate)
  ∧ feeRate ≤ ceilToUnit unitFee feeRate
  ∧ ∀ m, (unitFee | m) → feeRate ≤ m → ceilToUnit unitFee feeRate ≤ m.
Proof.
  intros Hu. unfold ceilToUnit.
  destruct (Z.eqb_spec unitFee 0) as [->|Hne]; [lia|].
  assert (Hdm := Z.div_mod (feeRate + unitFee - 1) unitFee Hne).
  assert (Hb := Z.mod_pos_bound (feeRate + unitFee - 1) unitFee Hu).
  split; [|split].
  - exists ((feeRate + unitFee - 1) `div` unitFee). lia.
  - lia.
  - intros m [k ->] Hle.
    assert ((feeRate + unitFee - 1) `div` unitFee < k + 1); [|nia].
    apply Z.div_lt_upper_bound; lia.
Qed.

Lemma ceilToUnit_nonneg (unitFee feeRate : Z) :
  0 ≤ unitFee → 0 ≤ feeRate → 0 ≤ ceilToUnit unitFee feeRate.
Proof.
  intros Hu Hf. unfold ceilToUnit.
  destruct (Z.eqb_spec unitFee 0) as [->|Hne]; [lia|].
  apply Z.mul_nonneg_nonneg; [lia|]. apply Z.div_pos; lia.
Qed.

(** The cache-fill-based rate: the queue's proposal rounded up to the unit
    and clamped. *)
Lemma getCacheFeeRate_ceil `{!PoolPackage} (mem : Mempool) (q : QueueCache) :
  qcache (cache mem) = Some q →
  0 ≤ MinTxFeeRate (cfg mem) → 0 ≤ GetProperFee q →
  GetProperFee q + MinTxFeeRate (cfg mem) ≤ int64_max →
  getCacheFeeRate mem
  = Z.min (ceilToUnit (MinTxFeeRate (cfg mem)) (GetProperFee q))
      (MaxTxFeeRate (cfg mem)).
Proof.
  intros Hq Hu Hf Hmax. unfold getCacheFeeRate. rewrite Hq.
  rewrite clampFee_min, roundToUnit_ceil by assumption. reflexivity.
Qed.

Lemma getCacheFeeRate_le_max `{!PoolPackage} (mem : Mempool) :
  0 ≤ MaxTxFeeRate (cfg mem) → getCacheFeeRate mem ≤ MaxTxFeeRate (cfg mem).
Proof.
  intros Hmax. unfold getCacheFeeRate.
  destruct (qcache (cache mem)); [|assumption].
  rewrite clampFee_min. lia.
Qed.

Lemma max_by_gtb (feeRate levelFeeRate : Z) :
  (if levelFeeRate >? feeRate then levelFeeRate else feeRate)
  = Z.max feeRate levelFeeRate.
Proof. destruct (Z.gtb_spec levelFeeRate feeRate); lia. Qed.

Lemma store_fresh (h : heap) (v w : ReqProperFee) :
  store (length h) w (h ++ [v]) = Some (tt, h ++ [w]).
Proof.
  unfold store. rewrite length_app. simpl.
  destruct (decide (length h < length h + 1)%nat) as [_|Hn]; [|lia].
  f_equal. f_equal.
  rewrite insert_app_r_alt, Nat.sub_diag by lia. reflexivity.
Qed.

Lemma load_fresh (h : heap) (v : ReqProperFee) :
  load (length h) (h ++ [v]) = Some (v, h ++ [v]).
Proof.
  unfold load. rewrite lookup_app_r, Nat.sub_diag by lia. reflexivity.
Qed.

(** The tail of [GetProperFeeRate], once [req] points to the request that is
    used. *)
Lemma GetProperFeeRate_tail `{!ChainTypes, !PoolPackage} (mem : Mempool)
    (h : heap) (p : loc) (v : ReqProperFee) :
  h !! p = Some v →
  (let feeRate := getCacheFeeRate mem in
   if IsLevelFee (cfg mem) then
     v2 ← load p;
     levelFeeRate ← lift (getLevelFeeRate mem (MinTxFeeRate (cfg mem))
                            (TxCount v2) (TxSize v2));
     mret (if levelFeeRate >? feeRate then levelFeeRate else feeRate)
   else mret feeRate) h
  = (rate ← feeRateFor mem (TxCount v) (TxSize v); Some (rate, h)).
Proof.
  intros Hv. unfold feeRateFor. simpl.
  destruct (IsLevelFee (cfg mem)); [|reflexivity].
  unfold mbind, Go_bind, load, lift, mret, Go_ret. rewrite Hv.
  destruct (getLevelFeeRate mem (MinTxFeeRate (cfg mem)) (TxCount v)
              (TxSize v)); simpl; [|reflexivity].
  rewrite max_by_gtb. reflexivity.
Qed.

(** What a call of [GetProperFeeRate] computes and what it leaves in the
    heap. *)
Lemma GetProperFeeRate_run `{!ChainTypes, !PoolPackage} (mem : Mempool)
    (req : option loc) (h : heap) :
  (∀ p, req = Some p → is_Some (h !! p)) →
  GetProperFeeRate mem req h
  = (rate ← feeRateFor mem (TxCount (requestUsed (req ≫= (h !!.))))
              (TxSize (requestUsed (req ≫= (h !!.))));
     Some (rate, heapAfter req h)).
Proof.
  intros Hreq.
  assert (Hfresh : ∀ h0 : heap,
    (req1 ← new (mkReq 20 0);
     v1 ← load req1;
     _ ← (if TxSize v1 =? 0 then store req1 (mkReq (TxCount v1) 10240)
          else mret tt);
     let feeRate := getCacheFeeRate mem in
     if IsLevelFee (cfg mem) then
       v2 ← load req1;
       levelFeeRate ← lift (getLevelFeeRate mem (MinTxFeeRate (cfg mem))
                              (TxCount v2) (TxSize v2));
       mret (if levelFeeRate >? feeRate then levelFeeRate else feeRate)
     else mret feeRate) h0
    = (rate ← feeRateFor mem 20 10240;
       Some (rate, h0 ++ [mkReq 20 10240]))).
  { intros h0. unfold mbind at 1, Go_bind at 1, new.
    unfold mbind at 1, Go_bind at 1. rewrite load_fresh. simpl.
    unfold mbind at 1, Go_bind at 1. rewrite store_fresh.
    apply (GetProperFeeRate_tail mem (h0 ++ [mkReq 20 10240]) (length h0)
             (mkReq 20 10240)).
    rewrite lookup_app_r, Nat.sub_diag by lia. reflexivity. }
  unfold GetProperFeeRate, heapAfter.
  destruct req as [p|]; simpl.
  - destruct (Hreq p eq_refl) as [v Hv]. rewrite Hv. simpl.
    unfold mbind at 1, Go_bind at 1. unfold mbind at 1, Go_bind at 1.
    unfold load at 1. rewrite Hv.
    destruct (TxCount v =? 0) eqn:Hcount.
    + apply Hfresh.
    + unfold mret at 1, Go_ret at 1.
      unfold mbind at 1, Go_bind at 1. unfold load at 1. rewrite Hv.
      unfold mbind at 1, Go_bind at 1.
      destruct (TxSize v =? 0) eqn:Hsize.
      * unfold store. apply lookup_lt_Some in Hv as Hlt.
        destruct (decide (p < length h)%nat) as [_|Hn]; [|lia].
        apply (GetProperFeeRate_tail mem (<[p := mkReq (TxCount v) 10240]> h)
                 p (mkReq (TxCount v) 10240)).
        apply list_lookup_insert_eq. exact Hlt.
      * unfold mret at 1, Go_ret at 1.
        apply (GetProperFeeRate_tail mem h p v Hv).
  - apply Hfresh.
Qed.

Lemma requestUsed_defaults (req : option ReqProperFee) :
  (from_option TxCount 0 req = 0 → TxCount (requestUsed req) = 20)
  ∧ (from_option TxSize 0 req = 0 → TxSize (requestUsed req) = 10240).
Proof.
  destruct req as [[count size]|]; simpl; [|done].
  destruct (Z.eqb_spec count 0); simpl;
    destruct (Z.eqb_spec size 0); simpl; split; intros; congruence.
Qed.

(** C3: on a pool with its queue installed, non-negative fee settings and no
    overflow, [GetProperFeeRate] returns the greater of the cache-fill-based
    rate and, under [IsLevelFee], the level-based rate, computed for 20
    transactions when [TxCount] is unset and for 10240 bytes when [TxSize]
    is unset; the cache-fill-based rate is the queue's proposal rounded up
    to the [MinTxFeeRate] unit and clamped to [MaxTxFeeRate]; the result is
    a multiple of the unit or the maximum, and lies within
    [0, MaxTxFeeRate]. *)
Theorem GetProperFeeRate_spec `{!ChainTypes, !PoolPackage} (mem : Mempool)
    (q : QueueCache) (req : option loc) (h : heap) :
  qcache (cache mem) = Some q →
  (∀ p, req = Some p → is_Some (h !! p)) →
  0 ≤ MinTxFeeRate (cfg mem) →
  0 ≤ MaxTxFeeRate (cfg mem) →
  0 ≤ GetProperFee q →
  GetProperFee q + MinTxFeeRate (cfg mem) ≤ int64_max →
  in_int64 (100 * MinTxFeeRate (cfg mem)) →
  let given := req ≫= (h !!.) in
  let used := requestUsed given in
  ∃ rate h' levelFeeRate,
    GetProperFeeRate mem req h = Some (rate, h')
    ∧ getLevelFeeRate mem (MinTxFeeRate (cfg mem)) (TxCount used)
        (TxSize used) = Some levelFeeRate
    ∧ rate = (if IsLevelFee (cfg mem)
              then Z.max (getCacheFeeRate mem) levelFeeRate
              else getCacheFeeRate mem)
    ∧ getCacheFeeRate mem
      = Z.min (ceilToUnit (MinTxFeeRate (cfg mem)) (GetProperFee q))
          (MaxTxFeeRate (cfg mem))
    ∧ (from_option TxCount 0 given = 0 → TxCount used = 20)
    ∧ (from_option TxSize 0 given = 0 → TxSize used = 10240)
    ∧ (0 < MinTxFeeRate (cfg mem) →
       rate = MaxTxFeeRate (cfg mem) ∨ (MinTxFeeRate (cfg mem) | rate))
    ∧ 0 ≤ rate ≤ MaxTxFeeRate (cfg mem).
Proof.
  intros Hq Hreq Hmin Hmax Hfee Hover Hbase given used.
  destruct (getLevelFeeRate_total mem q (MinTxFeeRate (cfg mem))
              (TxCount used) (TxSize used) Hq) as [lvl Hlvl].
  pose proof (getLevelFeeRate_le_max _ _ _ _ _ Hlvl) as Hlvl_le.
  pose proof (getLevelFeeRate_multiple _ _ _ _ _ Hbase Hlvl) as Hlvl_mul.
  pose proof (getCacheFeeRate_ceil mem q Hq Hmin Hfee Hover) as Hcache.
  pose proof (ceilToUnit_nonneg _ _ Hmin Hfee) as Hceil0.
  assert (Hcache0 : 0 ≤ getCacheFeeRate mem ≤ MaxTxFeeRate (cfg mem)).
  { rewrite Hcache. lia. }
  assert (Hcache_mul : 0 < MinTxFeeRate (cfg mem) →
            getCacheFeeRate mem = MaxTxFeeRate (cfg mem)
            ∨ (MinTxFeeRate (cfg mem) | getCacheFeeRate mem)).
  { intros Hpos. rewrite Hcache.
    destruct (Z.min_spec (ceilToUnit (MinTxFeeRate (cfg mem)) (GetProperFee q))
                (MaxTxFeeRate (cfg mem))) as [[_ ->]|[_ ->]]; [right|by left].
    apply ceilToUnit_least. exact Hpos. }
  exists (if IsLevelFee (cfg mem) then Z.max (getCacheFeeRate mem) lvl
          else getCacheFeeRate mem), (heapAfter req h), lvl.
  split; [|split; [exact Hlvl|split; [reflexivity|split; [exact Hcache|]]]].
  - rewrite GetProperFeeRate_run by exact Hreq.
    fold given. fold used. unfold feeRateFor.
    destruct (IsLevelFee (cfg mem)); [|reflexivity].
    rewrite Hlvl. reflexivity.
  - split; [apply requestUsed_defaults|].
    split; [apply requestUsed_defaults|].
    destruct (IsLevelFee (cfg mem)).
    + split; [|lia]. intros Hpos.
      destruct (Z.max_spec (getCacheFeeRate mem) lvl) as [[_ ->]|[_ ->]];
        auto.
    + split; [exact Hcache_mul | exact Hcache0].
Qed.

(** C3 at work: a pool of three transactions whose queue proposes 250001
    with unit 100000 and maximum 10000000 recommends 300000 to a caller who
    left the request unset. *)
Lemma GetProperFeeRate_spec_witness :
  ∃ h', @GetProperFeeRate (sampleChain false) (samplePool 250001)
          (samplePoolOf sampleCfg
             [sampleTx "h1" "A" 0 0; sampleTx "h2" "A" 0 1;
              sampleTx "h3" "B" 0 0])
          (Some 0%nat) [mkReq 0 0] = Some (300000, h').
Proof.
  destruct (@GetProperFeeRate_spec (sampleChain false) (samplePool 250001)
              (samplePoolOf sampleCfg
                 [sampleTx "h1" "A" 0 0; sampleTx "h2" "A" 0 1;
                  sampleTx "h3" "B" 0 0])
              ((λ tx, mkItem tx (Fee tx) 0)
                 <$> [sampleTx "h1" "A" 0 0; sampleTx "h2" "A" 0 1;
                      sampleTx "h3" "B" 0 0])
              (Some 0%nat) [mkReq 0 0])
    as (rate & h' & lvl & Hrun & Hlvl & Hrate & _).
  - reflexivity.
  - intros p [= <-]. eexists. reflexivity.
  - vm_compute. discriminate.
  - vm_compute. discriminate.
  - vm_compute. discriminate.
  - vm_compute. discriminate.
  - vm_compute. split; discriminate.
  - exists h'. rewrite Hrun. f_equal. f_equal.
    rewrite Hrate. vm_compute in Hlvl. injection Hlvl as <-.
    vm_compute. reflexivity.
Defined.

(** C10 (as amended): a request with [TxCount == 0] is set aside whatever
    its [TxSize]: the rate is the one for 20 transactions and 10240 bytes,
    computed on a fresh object, and the caller's object is left as it was.
    The default size is written into the caller's object only when that
    object is kept, that is when [TxCount != 0], and has [TxSize == 0]. *)
Theorem GetProperFeeRate_request_handling `{!ChainTypes, !PoolPackage}
    (mem : Mempool) (h : heap) (p : loc) (v : ReqProperFee) :
  h !! p = Some v →
  (TxCount v = 0 →
   GetProperFeeRate mem (Some p) h
   = (rate ← feeRateFor mem 20 10240; Some (rate, h ++ [mkReq 20 10240]))
   ∧ (h ++ [mkReq 20 10240]) !! p = Some v)
  ∧ (TxCount v ≠ 0 → TxSize v = 0 →
     GetProperFeeRate mem (Some p) h
     = (rate ← feeRateFor mem (TxCount v) 10240;
        Some (rate, <[p := mkReq (TxCount v) 10240]> h))
     ∧ (<[p := mkReq (TxCount v) 10240]> h) !! p
       = Some (mkReq (TxCount v) 10240))
  ∧ (TxCount v ≠ 0 → TxSize v ≠ 0 →
     GetProperFeeRate mem (Some p) h
     = (rate ← feeRateFor mem (TxCount v) (TxSize v); Some (rate, h))).
Proof.
  intros Hv.
  assert (Hreq : ∀ p0, Some p = Some p0 → is_Some (h !! p0)).
  { intros p0 [= <-]. eauto. }
  pose proof (GetProperFeeRate_run mem (Some p) h Hreq) as Hrun.
  unfold heapAfter in Hrun. simpl in Hrun. rewrite Hv in Hrun.
  simpl in Hrun.
  split; [|split].
  - intros Hcount. rewrite Hcount in Hrun. simpl in Hrun.
    split; [exact Hrun|].
    rewrite lookup_app_l by (eapply lookup_lt_Some; exact Hv). exact Hv.
  - intros Hcount Hsize.
    destruct (Z.eqb_spec (TxCount v) 0) as [|_]; [contradiction|].
    rewrite Hsize in Hrun. simpl in Hrun.
    split; [exact Hrun|].
    apply list_lookup_insert_eq. eapply lookup_lt_Some; exact Hv.
  - intros Hcount Hsize.
    destruct (Z.eqb_spec (TxCount v) 0) as [|_]; [contradiction|].
    destruct (Z.eqb_spec (TxSize v) 0) as [|_]; [contradiction|].
    exact Hrun.
Qed.

(** C10 at work: asked with [{TxCount: 0, TxSize: 5000}], the pool answers
    with the rate for 20 transactions of 10240 bytes and leaves the request
    untouched. *)
Lemma GetProperFeeRate_request_handling_witness :
  @GetProperFeeRate (sampleChain false) (samplePool 250001)
    (samplePoolOf sampleCfg [sampleTx "h1" "A" 0 0])
    (Some 0%nat) [mkReq 0 5000]
  = Some (300000, [mkReq 0 5000; mkReq 20 10240]).
Proof.
  destruct (@GetProperFeeRate_request_handling (sampleChain false)
              (samplePool 250001)
              (samplePoolOf sampleCfg [sampleTx "h1" "A" 0 0])
              [mkReq 0 5000] 0%nat (mkReq 0 5000) eq_refl)
    as [Hunset _].
  destruct (Hunset eq_refl) as [Hrun _].
  rewrite Hrun. vm_compute. reflexivity.
Defined.

(** C10, the claim as stated fails: asked with [{TxCount: 0, TxSize: 0}],
    the call writes the default size into a fresh object, not into the
    caller's, which still reads [TxSize == 0] afterwards. *)
Lemma GetProperFeeRate_unset_request_not_written :
  ¬ @writesDefaultSize (sampleChain false) (samplePool 250001)
      (samplePoolOf sampleCfg [sampleTx "h1" "A" 0 0]) [mkReq 0 0] 0%nat.
Proof.
  intros Hclaim.
  destruct (Hclaim (mkReq 0 0) eq_refl eq_refl) as (rate & h' & Hrun & Hcell).
  vm_compute in Hrun. injection Hrun as _ <-.
  vm_compute in Hcell. discriminate.
Qed.

(** ** Removal *)

Lemma filter_all {A : Type} (P : A → Prop) `{!∀ x, Decision (P x)}
    (l : list A) :
  (∀ x, x ∈ l → P x) → filter P l = l.
Proof.
  induction l as [|x l IH]; intros Hall; [reflexivity|].
  rewrite filter_cons_True by (apply Hall; left).
  f_equal. apply IH. intros y Hy. apply Hall. by right.
Qed.

Lemma Exist_elem (c : txCache) (hash : string) :
  Exist c hash = true ↔ ∃ it, it ∈ cacheItems c ∧ Hash (Value it) = hash.
Proof.
  unfold Exist. rewrite bool_decide_eq_true, list_elem_of_fmap.
  split; intros (it & H1 & H2); exists it; simpl in *; auto.
Qed.

(** One turn of [removeTxs] leaves exactly the items with another hash. *)
Lemma removeTx_qcache (mem : Mempool) (hash : string) :
  qcache (cache (removeTx mem hash))
  = filter (λ it, Hash (Value it) ≠ hash) <$> qcache (cache mem).
Proof.
  unfold removeTx.
  destruct (Exist (cache mem) hash) eqn:Hex.
  - unfold Remove. simpl.
    destruct (qcache (cache mem)) eqn:Hq; simpl; [reflexivity|exact Hq].
  - destruct (qcache (cache mem)) as [q|] eqn:Hq; simpl; [|reflexivity].
    f_equal. symmetry. apply filter_all.
    intros it Hit Heq.
    assert (Exist (cache mem) hash = true) as Hex'; [|congruence].
    apply Exist_elem. exists it. split; [|exact Heq].
    unfold cacheItems. rewrite Hq. exact Hit.
Qed.

Lemma removeTx_fields (mem : Mempool) (hash : string) :
  header (removeTx mem hash) = header mem
  ∧ sync (removeTx mem hash) = sync mem
  ∧ cfg (removeTx mem hash) = cfg mem.
Proof. unfold removeTx. destruct (Exist (cache mem) hash); done. Qed.

(** [removeTxs] leaves the items whose hash is not in the list, in their
    order, and touches nothing else. *)
Lemma removeTxs_qcache (mem : Mempool) (hashes : list string) :
  qcache (cache (removeTxs mem hashes))
  = filter (λ it, Hash (Value it) ∉ hashes) <$> qcache (cache mem)
  ∧ header (removeTxs mem hashes) = header mem
  ∧ sync (removeTxs mem hashes) = sync mem
  ∧ cfg (removeTxs mem hashes) = cfg mem.
Proof.
  revert mem. induction hashes as [|hash hashes IH]; intros mem.
  - simpl. split; [|done].
    destruct (qcache (cache mem)) as [q|]; simpl; [|reflexivity].
    f_equal. symmetry. apply filter_all.
    intros it _. apply not_elem_of_nil.
  - unfold removeTxs in *. simpl.
    destruct (IH (removeTx mem hash)) as (Hq & Hh & Hs & Hc).
    destruct (removeTx_fields mem hash) as (Hh' & Hs' & Hc').
    rewrite Hq, Hh, Hs, Hc, Hh', Hs', Hc', removeTx_qcache.
    split; [|done].
    destruct (qcache (cache mem)) as [q|]; simpl; [|reflexivity].
    f_equal. rewrite list_filter_filter. apply list_filter_iff.
    intros it. rewrite elem_of_cons. split.
    + intros [H1 H2] [H3|H3]; [by apply H2|by apply H1].
    + intros H1. split; intros H2; apply H1; auto.
Qed.

Lemma Mempool_eq (m1 m2 : Mempool) :
  header m1 = header m2 → sync m1 = sync m2 → cfg m1 = cfg m2 →
  qcache (cache m1) = qcache (cache m2) → m1 = m2.
Proof.
  destruct m1 as [h1 s1 c1 [q1]], m2 as [h2 s2 c2 [q2]]. simpl.
  intros -> -> -> ->. reflexivity.
Qed.

(** C9: [RemoveTxs] never returns an error; applied a second time with the
    same list it leaves the pool as the first application left it; and hashes
    that are not resident leave the pool as it is. *)
Theorem RemoveTxs_idempotent (mem : Mempool) (hashList : TxHashList) :
  (RemoveTxs mem hashList).2 = None
  ∧ (RemoveTxs (RemoveTxs mem hashList).1 hashList).1
    = (RemoveTxs mem hashList).1
  ∧ ((∀ hash, hash ∈ Hashes hashList → Exist (cache mem) hash = false) →
     (RemoveTxs mem hashList).1 = mem).
Proof.
  unfold RemoveTxs. simpl. split; [reflexivity|]. split.
  - destruct (removeTxs_qcache mem (Hashes hashList)) as (Hq & Hh & Hs & Hc).
    destruct (removeTxs_qcache (removeTxs mem (Hashes hashList))
                (Hashes hashList)) as (Hq' & Hh' & Hs' & Hc').
    apply Mempool_eq; [congruence..|].
    rewrite Hq', Hq.
    destruct (qcache (cache mem)) as [q|]; simpl; [|reflexivity].
    f_equal. rewrite list_filter_filter. apply list_filter_iff.
    intros it. tauto.
  - intros Habsent.
    destruct (removeTxs_qcache mem (Hashes hashList)) as (Hq & Hh & Hs & Hc).
    apply Mempool_eq; [assumption..|].
    rewrite Hq.
    destruct (qcache (cache mem)) as [q|] eqn:Hqm; simpl; [|reflexivity].
    f_equal. apply filter_all.
    intros it Hit Hin.
    assert (Exist (cache mem) (Hash (Value it)) = true) as Hex.
    { apply Exist_elem. exists it. split; [|reflexivity].
      unfold cacheItems. rewrite Hqm. exact Hit. }
    rewrite (Habsent _ Hin) in Hex. discriminate.
Qed.

(** ** The delayed-transaction resubmitter *)

Section ResubmitterProofs.
Context {World : Type}.
Variable SendTx : World → Transaction → World * option error.

(** A run of [push2Mempool] over [txs] submits each of them once, in order,
    and appends to the buffer those that met the pool-full error. *)
Lemma push2Mempool_pass (txs : list Transaction) (w : World)
    (retryList : list Transaction) :
  foldl (push2Mempool SendTx) (w, retryList) txs
  = (passWorld SendTx w txs,
     retryList ++ poolFullOf (passResults SendTx w txs)).
Proof.
  revert w retryList. induction txs as [|tx txs IH]; intros w retryList.
  - simpl. unfold poolFullOf. simpl. by rewrite app_nil_r.
  - simpl. destruct (SendTx w tx) as [w' err] eqn:Hsend. simpl.
    destruct (decide (err = Some ErrMemFull)) as [->|Hne].
    + rewrite IH. unfold poolFullOf.
      rewrite filter_cons_True by reflexivity.
      simpl. by rewrite <- app_assoc.
    + assert (match err with
              | Some ErrMemFull => retryList ++ [tx]
              | _ => retryList
              end = retryList) as ->.
      { destruct err as [[]|]; congruence. }
      rewrite IH. unfold poolFullOf.
      rewrite filter_cons_False by (simpl; exact Hne). reflexivity.
Qed.

Lemma passResults_txs (txs : list Transaction) (w : World) :
  fst <$> passResults SendTx w txs = txs.
Proof.
  revert w. induction txs as [|tx txs IH]; intros w; simpl; [done|].
  by rewrite IH.
Qed.

(** C8: a resubmission adds the transaction to the retry buffer exactly when
    it fails with the pool-full error; and a tick with a non-empty buffer
    starts the pass from an emptied buffer, submits every buffered
    transaction once, in order, and leaves in the buffer exactly those of
    them that met the pool-full error again, for the next tick. *)
Theorem pushDelayTxRoutine_retry_buffer :
  (∀ w retryList tx,
     (push2Mempool SendTx (w, retryList) tx).2
     = if decide ((SendTx w tx).2 = Some ErrMemFull) then retryList ++ [tx]
       else retryList)
  ∧ (∀ w retryList rest, retryList ≠ [] →
       pushDelayTxLoop SendTx (EvTick :: rest) (w, retryList)
       = pushDelayTxLoop SendTx rest
           (passWorld SendTx w retryList,
            poolFullOf (passResults SendTx w retryList))
       ∧ fst <$> passResults SendTx w retryList = retryList)
  ∧ (∀ w rest,
       pushDelayTxLoop SendTx (EvTick :: rest) (w, [])
       = pushDelayTxLoop SendTx rest (w, [])).
Proof.
  split; [|split].
  - intros w retryList tx. unfold push2Mempool.
    destruct (SendTx w tx) as [w' err]. simpl.
    destruct (decide (err = Some ErrMemFull)) as [->|Hne]; [reflexivity|].
    destruct err as [[]|]; congruence.
  - intros w retryList rest Hne. split; [|apply passResults_txs].
    simpl. destruct retryList as [|tx retryList]; [done|].
    change (length (tx :: retryList) =? 0)%nat with false. cbv iota.
    rewrite push2Mempool_pass. reflexivity.
  - intros w rest. reflexivity.
Qed.
End ResubmitterProofs.

(** C8 at work: of the buffer [full; bad; ok; full] a tick resubmits all
    four and keeps the two that are refused for lack of room. *)
Example pushDelayTxRoutine_tick_sample :
  pushDelayTxLoop sampleSendTx [EvTick]
    (0%nat, [sampleTx "full" "A" 0 0; sampleTx "bad" "A" 0 1;
             sampleTx "ok" "A" 0 2; sampleTx "full" "B" 0 0])
  = (4%nat, [sampleTx "full" "A" 0 0; sampleTx "full" "B" 0 0]).
Proof. vm_compute. reflexivity. Qed.

(** ** The sync gate *)

Lemma checkSyncLoop_sync (rounds : list SyncRound) (mem : Mempool) :
  sync mem = true → sync (checkSyncLoop rounds mem).1.1 = true.
Proof.
  intros Hsync. induction rounds as [|round rounds IH]; [exact Hsync|].
  destruct round; simpl; try done;
    destruct (checkSyncLoop rounds mem) as [[mem' acts] returned]; exact IH.
Qed.

Lemma checkSyncLoop_returned (rounds : list SyncRound) (mem : Mempool) :
  (checkSyncLoop rounds mem).2 = true →
  RoundClosed ∈ rounds ∨ RoundCaughtUp ∈ rounds.
Proof.
  induction rounds as [|round rounds IH]; [done|].
  destruct round; simpl.
  - intros _. left. left.
  - destruct (checkSyncLoop rounds mem) as [[mem' acts] returned].
    intros Hr. destruct (IH Hr); [left|right]; by right.
  - destruct (checkSyncLoop rounds mem) as [[mem' acts] returned].
    intros Hr. destruct (IH Hr); [left|right]; by right.
  - destruct (checkSyncLoop rounds mem) as [[mem' acts] returned].
    intros Hr. destruct (IH Hr); [left|right]; by right.
  - intros _. right. left.
Qed.

Lemma checkSyncLoop_asks (round : SyncRound) (rounds : list SyncRound)
    (mem : Mempool) :
  round ≠ RoundClosed → AskIsSync ∈ (checkSyncLoop (round :: rounds) mem).1.2.
Proof.
  intros Hopen. destruct round; simpl; try done;
    try (destruct (checkSyncLoop rounds mem) as [[mem' acts] returned]);
    simpl; left.
Qed.

(** C7 (as amended): with [ForceAccept] set on a pool not yet synced,
    [checkSync] marks the pool synced at once, before the first poll and
    whatever the chain answers; the poller then goes on polling: it asks the
    chain in its first round unless the pool is closed, and it returns only
    after a round in which the pool is closed or the chain has caught up. *)
Theorem checkSync_force_accept (rounds : list SyncRound) (mem : Mempool) :
  sync mem = false →
  ForceAccept (cfg mem) = true →
  sync (checkSync rounds mem).1.1 = true
  ∧ sync (checkSync [] mem).1.1 = true
  ∧ (checkSync [] mem).2 = false
  ∧ ((checkSync rounds mem).2 = true →
     RoundClosed ∈ rounds ∨ RoundCaughtUp ∈ rounds)
  ∧ (∀ round rest, rounds = round :: rest → round ≠ RoundClosed →
     AskIsSync ∈ (checkSync rounds mem).1.2).
Proof.
  intros Hsync Hforce. unfold checkSync. rewrite Hsync, Hforce.
  split; [|split; [reflexivity|split; [reflexivity|split]]].
  - pose proof (checkSyncLoop_sync rounds (setSync mem true) eq_refl) as H.
    destruct (checkSyncLoop rounds (setSync mem true))
      as [[mem' acts] returned]. exact H.
  - pose proof (checkSyncLoop_returned rounds (setSync mem true)) as H.
    destruct (checkSyncLoop rounds (setSync mem true))
      as [[mem' acts] returned]. exact H.
  - intros round rest -> Hopen.
    pose proof (checkSyncLoop_asks round rest (setSync mem true) Hopen) as H.
    destruct (checkSyncLoop (round :: rest) (setSync mem true))
      as [[mem' acts] returned]. simpl in *.
    apply elem_of_app. by left.
Qed.

(** C7 at work: under [ForceAccept], with the chain behind in the first
    round and caught up in the second, the pool is synced and the poller has
    asked the chain. *)
Lemma checkSync_force_accept_witness :
  sync (checkSync [RoundBehind; RoundCaughtUp]
          (samplePoolOf forceCfg [])).1.1 = true
  ∧ AskIsSync ∈ (checkSync [RoundBehind; RoundCaughtUp]
                   (samplePoolOf forceCfg [])).1.2.
Proof.
  destruct (checkSync_force_accept [RoundBehind; RoundCaughtUp]
              (samplePoolOf forceCfg []) eq_refl eq_refl)
    as (Hsync & _ & _ & _ & Hasks).
  split; [exact Hsync|].
  apply (Hasks RoundBehind [RoundCaughtUp] eq_refl). discriminate.
Defined.

(** C7, the claim as stated fails: under [ForceAccept], with the chain
    behind in the first round and caught up in the second, the poller asks
    the chain twice before it returns. *)
Lemma checkSync_force_accept_still_polls :
  ¬ endsWithoutPolling [RoundBehind; RoundCaughtUp]
      (samplePoolOf forceCfg []).
Proof.
  intros [_ Hquiet]. apply Hquiet. vm_compute. left.
Qed.

(** ** Rollback *)

Section RollbackProofs.
Context `{!ChainTypes, !PoolPackage}.

(** More turns than transactions left change nothing in the scan. *)
Lemma specGroupScan_fuel (fuel fuel' : nat) (rest : list Transaction) :
  (length rest ≤ fuel)%nat → (length rest ≤ fuel')%nat →
  specGroupScan fuel rest = specGroupScan fuel' rest.
Proof.
  revert fuel' rest. induction fuel as [|fuel IH]; intros fuel' rest H1 H2.
  - destruct rest; [|simpl in H1; lia]. by destruct fuel'.
  - destruct rest as [|tx rest']; [by destruct fuel'|].
    destruct fuel' as [|fuel']; [simpl in H2; lia|].
    cbn [specGroupScan]. cbn [length] in H1, H2.
    destruct ((1 <? GroupCount tx)
              && (GroupCount tx <=? Z.of_nat (length (tx :: rest'))))
      eqn:Hgroup.
    + f_equal. apply IH; rewrite length_drop; cbn [length]; lia.
    + f_equal. apply IH; lia.
Qed.

(** The code's two-step validation is the spec's one test. *)
Lemma specReadmit_code (mem : Mempool) (tx : Transaction) :
  (if negb (txCheck tx (headerGetHeight mem) (MinTxFeeRate (cfg mem))
              (MaxTxFee (cfg mem)))
   then mem
   else if negb (checkExpireValid mem tx) then mem
   else (PushTx mem tx).1)
  = specReadmit mem tx.
Proof.
  unfold specReadmit.
  destruct (txCheck tx _ _ _); simpl; [|reflexivity].
  destruct (checkExpireValid mem tx); reflexivity.
Qed.

(** From an index on which the miner test does not fire, the loop readmits
    the candidates of the transactions left, and [len - i] turns are
    enough. *)
Lemma delBlockLoop_scan (blkTxs : list Transaction) (fuel i : nat)
    (mem : Mempool) :
  (i = 0%nat → ∀ tx, blkTxs !! 0%nat = Some tx →
     String.eqb (ActionName tx) MinerAction = false) →
  (length blkTxs - i ≤ fuel)%nat →
  delBlockLoop fuel blkTxs i mem
  = Some (foldl specReadmit mem
            (specGroupScan (length blkTxs - i) (drop i blkTxs))).
Proof.
  revert i mem. induction fuel as [|fuel IH]; intros i mem Hminer Hfuel.
  - destruct (blkTxs !! i) as [tx|] eqn:Htx.
    + apply lookup_lt_Some in Htx. lia.
    + simpl. rewrite Htx. apply lookup_ge_None in Htx.
      rewrite drop_ge by lia. by destruct (length blkTxs - i)%nat.
  - simpl. destruct (blkTxs !! i) as [tx|] eqn:Htx; cycle 1.
    { apply lookup_ge_None in Htx.
      rewrite drop_ge by lia. by destruct (length blkTxs - i)%nat. }
    assert (Hlt := lookup_lt_Some _ _ _ Htx).
    assert ((i =? 0)%nat && String.eqb (ActionName tx) MinerAction = false)
      as ->.
    { destruct (Nat.eqb_spec i 0) as [->|]; [|reflexivity].
      simpl. by apply Hminer. }
    assert (Hdrop := drop_S _ _ _ Htx).
    assert (Hlen : length (drop i blkTxs) = (length blkTxs - i)%nat)
      by apply length_drop.
    destruct (length blkTxs - i)%nat as [|remaining] eqn:Hrem; [lia|].
    rewrite Hdrop. cbn [specGroupScan]. rewrite <- Hdrop, Hlen.
    assert ((GroupCount tx >? 1)
            && (Z.of_nat i + GroupCount tx <=? Z.of_nat (length blkTxs))
            = (1 <? GroupCount tx)
              && (GroupCount tx <=? Z.of_nat (S remaining))) as ->.
    { rewrite Z.gtb_ltb. f_equal.
      destruct (Z.leb_spec (Z.of_nat i + GroupCount tx)
                  (Z.of_nat (length blkTxs)));
        destruct (Z.leb_spec (GroupCount tx) (Z.of_nat (S remaining)));
        lia. }
    destruct ((1 <? GroupCount tx)
              && (GroupCount tx <=? Z.of_nat (S remaining))) eqn:Hgroup.
    + apply andb_true_iff in Hgroup as [Hg Hfit].
      apply Z.ltb_lt in Hg. apply Z.leb_le in Hfit.
      rewrite specReadmit_code, IH by lia.
      cbn [foldl]. f_equal. f_equal.
      assert (i + Z.to_nat (GroupCount tx) - 1 + 1
              = i + Z.to_nat (GroupCount tx))%nat as -> by lia.
      rewrite drop_drop.
      apply specGroupScan_fuel; rewrite length_drop; lia.
    + rewrite specReadmit_code, IH by lia.
      cbn [foldl]. f_equal. f_equal.
      assert (i + 1 = S i)%nat as -> by lia.
      apply specGroupScan_fuel; rewrite length_drop; lia.
Qed.

(** The loop of [delBlock] as a fold over the candidates of the block. *)
Lemma delBlock_candidates (mem : Mempool) (block : Block) :
  delBlock mem block
  = Some (foldl specReadmit mem (specCandidates (Txs block))).
Proof.
  unfold delBlock, specCandidates.
  destruct (Txs block) as [|tx0 rest] eqn:Htxs; [reflexivity|].
  change (length (tx0 :: rest) <=? 0)%nat with false. cbv iota.
  destruct (String.eqb (ActionName tx0) MinerAction) eqn:Hminer.
  - simpl delBlockLoop. rewrite Hminer. simpl.
    rewrite delBlockLoop_scan; [|lia|simpl; lia].
    simpl. rewrite drop_0, Nat.sub_0_r. reflexivity.
  - rewrite delBlockLoop_scan; [| |lia].
    + rewrite drop_0, Nat.sub_0_r. reflexivity.
    + intros _ tx [= <-]. exact Hminer.
Qed.

(** With a cache whose failing [Push] changes nothing, what the code does
    with one candidate is the spec's account of it. *)
Lemma specReadmit_admit (mem : Mempool) (tx : Transaction) :
  pushRejects → specReadmit mem tx = specAdmit mem tx.
Proof.
  intros Hrejects. unfold specReadmit, specAdmit, dropped, PushTx.
  destruct (txCheck tx _ _ _); cbn [negb andb orb]; [|reflexivity].
  destruct (checkExpireValid mem tx); cbn [negb andb orb]; [|reflexivity].
  destruct (cachePush (cache mem) tx) as [c [err|]] eqn:Hpush;
    cbn [fst snd]; [|reflexivity].
  rewrite (Hrejects _ _ _ _ Hpush). by destruct mem.
Qed.

Lemma foldl_specReadmit_admit (mem : Mempool) (txs : list Transaction) :
  pushRejects → foldl specReadmit mem txs = foldl specAdmit mem txs.
Proof.
  intros Hrejects. revert mem.
  induction txs as [|tx txs IH]; intros mem; [reflexivity|].
  cbn [foldl]. by rewrite specReadmit_admit, IH.
Qed.

(** C6: [delBlock] always runs to its end, and what it leaves is the pool
    obtained by readmitting, one after the other, the candidates of the
    block: position 0 is no candidate when it is the miner's; a transaction
    that declares a group of [g > 1] that fits stands, with the [g - 1] that
    follow it, for one reassembled candidate, and the scan goes on behind
    the group; every candidate passes [Check] and the expiry check before
    [Push], one that fails there leaves the pool as it is, and the error of
    [Push] is dropped.  With a cache whose failing [Push] changes nothing,
    a candidate that fails validation or [Push] is not re-admitted: each
    candidate leaves the pool as it is when it is dropped and as [Push] put
    it otherwise, and the rollback of a block with a dropped candidate
    ends with the pool it would leave without that candidate, the
    candidates behind it being processed all the same. *)
Theorem delBlock_readmits_candidates (mem : Mempool) (block : Block) :
  delBlock mem block
  = Some (foldl specReadmit mem (specCandidates (Txs block)))
  ∧ (pushRejects →
     delBlock mem block
     = Some (foldl specAdmit mem (specCandidates (Txs block)))
     ∧ ∀ (before after : list Transaction) (tx : Transaction),
         specCandidates (Txs block) = before ++ tx :: after →
         dropped (foldl specAdmit mem before) tx = true →
         delBlock mem block = Some (foldl specAdmit mem (before ++ after))).
Proof.
  split; [apply delBlock_candidates|].
  intros Hrejects.
  assert (Hrun : delBlock mem block
                 = Some (foldl specAdmit mem (specCandidates (Txs block)))).
  { rewrite delBlock_candidates. f_equal.
    by apply foldl_specReadmit_admit. }
  split; [exact Hrun|].
  intros before after tx Hcands Hdropped.
  rewrite Hrun, Hcands, !foldl_app. cbn [foldl].
  unfold specAdmit at 2. by rewrite Hdropped.
Qed.
End RollbackProofs.

(** The sample cache refuses a resident hash and is then left as it was. *)
Lemma samplePool_pushRejects (properFee : Z) :
  @pushRejects (samplePool properFee).
Proof.
  intros c c' tx err. cbn [cachePush samplePool].
  destruct (Exist c (Hash tx)); [|discriminate].
  by intros [= <- _].
Qed.

(** C6 at work: rolling back the block [miner; h1; h1; h2] into an empty
    pool, the second [h1] is refused by [Push] as resident and dropped, and
    [h2] behind it is readmitted: the pool ends with [h1] and [h2], as for
    the block without the second [h1]. *)
Lemma delBlock_readmits_candidates_witness :
  @delBlock (sampleChain false) (samplePool 0) (samplePoolOf sampleCfg [])
    (mkBlock [mkTx "m" "M" "ticket" 0 0 0 "miner" 0 0;
              sampleTx "h1" "A" 0 0; sampleTx "h1" "A" 0 0;
              sampleTx "h2" "A" 0 1])
  = Some (samplePoolOf sampleCfg
            [sampleTx "h1" "A" 0 0; sampleTx "h2" "A" 0 1]).
Proof.
  destruct (@delBlock_readmits_candidates (sampleChain false) (samplePool 0)
              (samplePoolOf sampleCfg [])
              (mkBlock [mkTx "m" "M" "ticket" 0 0 0 "miner" 0 0;
                        sampleTx "h1" "A" 0 0; sampleTx "h1" "A" 0 0;
                        sampleTx "h2" "A" 0 1]))
    as [_ Hrejecting].
  destruct (Hrejecting (samplePool_pushRejects 0)) as [_ Hdropped].
  rewrite (Hdropped [sampleTx "h1" "A" 0 0] [sampleTx "h2" "A" 0 1]
             (sampleTx "h1" "A" 0 0)).
  - vm_compute. reflexivity.
  - vm_compute. reflexivity.
  - vm_compute. reflexivity.
Defined.

(** C6 at work: rolling back the block [miner; g1; g2; cheap; t] whose [g1]
    declares a group of two readmits the reassembled group and [t]; the
    miner's transaction is skipped and [cheap], below the minimum fee, is
    dropped. *)
Example delBlock_sample :
  cacheItems <$> (cache <$>
    @delBlock (sampleChain false) (samplePool 0) (samplePoolOf sampleCfg [])
      (mkBlock [mkTx "m" "M" "ticket" 0 0 0 "miner" 0 100;
                mkTx "g1" "A" "coins" 0 0 2 "transfer" 100000 200;
                mkTx "g2" "A" "coins" 0 0 2 "transfer" 100000 200;
                mkTx "cheap" "B" "coins" 0 0 0 "transfer" 1 200;
                mkTx "t" "C" "coins" 0 0 0 "transfer" 100000 200]))
  = Some [mkItem (mkTx "g1g2" "A" "coins" 0 0 2 "transfer" 200000 400)
            200000 0;
          mkItem (mkTx "t" "C" "coins" 0 0 0 "transfer" 100000 200)
            100000 0].
Proof. vm_compute. reflexivity. Qed.

(** ** Listing *)

Section ListingProofs.
Context `{!ChainTypes, !PoolPackage}.

Lemma dupMap_elem (hashes : list string) (acc : gset string) (hash : string) :
  hash ∈ foldl (λ (m : gset string) h, {[h]} ∪ m) acc hashes
  ↔ hash ∈ acc ∨ hash ∈ hashes.
Proof.
  revert acc. induction hashes as [|h hashes IH]; intros acc; simpl.
  - rewrite elem_of_nil. tauto.
  - rewrite IH, elem_of_union, elem_of_singleton, elem_of_cons. tauto.
Qed.

(** The visitor's test on the dedup map is membership. *)
Lemma dupMap_test (dupMap : gset string) (hash : string) :
  bool_decide (0 < size dupMap)%nat && bool_decide (hash ∈ dupMap)
  = bool_decide (hash ∈ dupMap).
Proof.
  destruct (bool_decide (hash ∈ dupMap)) eqn:Hin;
    [|by rewrite andb_false_r].
  apply bool_decide_eq_true in Hin. rewrite andb_true_r.
  apply bool_decide_eq_true.
  assert (size dupMap ≠ 0%nat); [|lia].
  intros Hzero. apply size_empty_inv in Hzero. set_solver.
Qed.

(** The walk with the visitor of [filterTxList]: it appends the values of
    the items that are neither in the dedup map nor expired, and under a
    bound [count > 0] it stops when [count] are collected. *)
Lemma Walk_filterVisitor (count : Z) (dupMap : gset string)
    (height blockTime : Z) (items : list Item) (txs : list Transaction) :
  (0 < count → Z.of_nat (length txs) < count) →
  Walk items (filterVisitor count dupMap false height blockTime) txs
  = txs ++
    let found :=
      Value <$> filter (λ it, (Hash (Value it) ∉ dupMap)
                              ∧ isExpired it height blockTime = false) items in
    if 0 <? count then take (Z.to_nat count - length txs) found else found.
Proof.
  revert txs. induction items as [|it items IH]; intros txs Hroom.
  - simpl. destruct (0 <? count); [rewrite take_nil|]; by rewrite app_nil_r.
  - cbn [Walk]. unfold filterVisitor at 1. rewrite dupMap_test.
    destruct (decide (Hash (Value it) ∈ dupMap)) as [Hdup|Hfresh].
    { rewrite bool_decide_eq_true_2 by exact Hdup.
      rewrite IH by exact Hroom.
      rewrite filter_cons_False by tauto. reflexivity. }
    rewrite bool_decide_eq_false_2 by exact Hfresh.
    destruct (isExpired it height blockTime) eqn:Hexp.
    { cbn [negb andb]. rewrite IH by exact Hroom.
      rewrite filter_cons_False by (intros [_ ?]; congruence). reflexivity. }
    cbn [negb andb].
    rewrite filter_cons_True by done. rewrite fmap_cons.
    rewrite length_app. cbn [length].
    destruct (Z.ltb_spec 0 count) as [Hpos|Hnonpos].
    + rewrite Z.gtb_ltb. destruct (Z.ltb_spec 0 count) as [_|]; [|lia].
      specialize (Hroom Hpos). cbn [andb].
      destruct (Z.eqb_spec (Z.of_nat (length txs + 1)) count) as [Hfull|Hmore].
      * assert (Z.to_nat count - length txs = 1)%nat as -> by lia.
        cbn [take]. by rewrite take_0.
      * rewrite IH by (rewrite length_app; cbn [length]; lia).
        rewrite length_app. cbn [length].
        destruct (Z.ltb_spec 0 count) as [_|]; [|lia].
        assert (Z.to_nat count - length txs
                = S (Z.to_nat count - (length txs + 1)))%nat as -> by lia.
        cbn [take]. by rewrite <- app_assoc.
    + rewrite Z.gtb_ltb. destruct (Z.ltb_spec 0 count) as [|_]; [lia|].
      cbn [andb]. rewrite IH by lia.
      destruct (Z.ltb_spec 0 count) as [|_]; [lia|].
      by rewrite <- app_assoc.
Qed.

(** What the walk of [getTxList] collects: the first [count] eligible
    transactions in walk order, all of them without a bound. *)
Lemma getTxList_walk (mem : Mempool) (filterList : TxHashList) :
  Walk (cacheItems (cache mem))
    (filterVisitor (Count filterList)
       (foldl (λ (m : gset string) h, {[h]} ∪ m) ∅ (Hashes filterList))
       false (wrap64 (headerGetHeight mem + 1)) (headerGetBlockTime mem)) []
  = if 0 <? Count filterList
    then take (Z.to_nat (Count filterList))
           (eligible mem (Hashes filterList))
    else eligible mem (Hashes filterList).
Proof.
  rewrite Walk_filterVisitor by (cbn [length]; lia).
  cbn [app length]. rewrite Nat.sub_0_r. unfold eligible.
  assert (filter (λ it, (Hash (Value it) ∉
                           foldl (λ (m : gset string) h, {[h]} ∪ m) ∅
                             (Hashes filterList))
                        ∧ isExpired it (wrap64 (headerGetHeight mem + 1))
                            (headerGetBlockTime mem) = false)
            (cacheItems (cache mem))
          = filter (λ it, (Hash (Value it) ∉ Hashes filterList)
                          ∧ isExpired it (wrap64 (headerGetHeight mem + 1))
                              (headerGetBlockTime mem) = false)
              (cacheItems (cache mem))) as ->; [|reflexivity].
  apply list_filter_iff. intros it. rewrite dupMap_elem.
  rewrite elem_of_empty. tauto.
Qed.

(** C2 (as amended): [getTxList] collects the first [K] resident
    transactions, in walk order, that are neither in the dedup set nor
    expired, all of them when [K] is not positive, and hands this list to the
    nonce sequencer when [ForkCheckEthTxSort] is active at the pool's height;
    so with the fork inactive it returns exactly [min(K, available)]
    transactions ([K = 0]: all).  The call leaves the pool as it is, and a
    second call with the same filter (and, under the fork, the same answers
    of the nonce oracle and the same visiting order) returns the same
    list. *)
Theorem getTxList_bounded (mem : Mempool) (rpc : string → NonceReply)
    (order : list string) (filterList : TxHashList) :
  let available := eligible mem (Hashes filterList) in
  let collected :=
    if 0 <? Count filterList
    then take (Z.to_nat (Count filterList)) available
    else available in
  let answer := getTxList mem rpc order filterList in
  answer.1 = (if IsForkCheckEthTxSort (headerGetHeight mem)
              then sortEthSignTyTx rpc order collected
              else collected)
  ∧ (0 ≤ Count filterList →
     Z.of_nat (length collected)
     = promisedCount (Count filterList) (length available))
  ∧ (0 ≤ Count filterList →
     IsForkCheckEthTxSort (headerGetHeight mem) = false →
     Z.of_nat (length answer.1)
     = promisedCount (Count filterList) (length available))
  ∧ answer.2 = mem
  ∧ (getTxList answer.2 rpc order filterList).1 = answer.1.
Proof.
  intros available collected answer.
  assert (Hanswer : answer.1
            = (if IsForkCheckEthTxSort (headerGetHeight mem)
               then sortEthSignTyTx rpc order collected
               else collected)).
  { unfold answer, getTxList, filterTxList. cbn [fst].
    rewrite getTxList_walk. reflexivity. }
  assert (Hcount : 0 ≤ Count filterList →
            Z.of_nat (length collected)
            = promisedCount (Count filterList) (length available)).
  { intros Hk. unfold collected, promisedCount.
    destruct (Z.ltb_spec 0 (Count filterList)) as [Hpos|Hzero].
    - destruct (Z.eqb_spec (Count filterList) 0) as [|_]; [lia|].
      rewrite length_take. lia.
    - destruct (Z.eqb_spec (Count filterList) 0) as [_|]; [reflexivity|lia]. }
  split; [exact Hanswer|]. split; [exact Hcount|]. split; [|done].
  intros Hk Hfork. rewrite Hanswer, Hfork. by apply Hcount.
Qed.

End ListingProofs.

(** C2, the claim as stated fails: with the fork active, a pool holding an
    eth-signed transaction of nonce 6 whose sender is expected at nonce 5,
    and a plain transfer, answers a request for 2 with 1 transaction, the
    sequencer having withheld the other, although 2 are resident, unexpired
    and not excluded. *)
Lemma getTxList_sequencer_withholds :
  Z.of_nat (length (@getTxList (sampleChain true) (samplePool 0)
                      (samplePoolOf sampleCfg
                         [sampleTx "e6" "A" 1 6; sampleTx "p" "B" 0 0])
                      expects5 ["A"] (mkHashList [] 2)).1)
  ≠ promisedCount 2
      (length (@eligible (samplePool 0)
                 (samplePoolOf sampleCfg
                    [sampleTx "e6" "A" 1 6; sampleTx "p" "B" 0 0]) [])).
Proof. vm_compute. discriminate. Qed.

(** The list of that call, and the list of the same call without the fork. *)
Example getTxList_sample_fork :
  (@getTxList (sampleChain true) (samplePool 0)
     (samplePoolOf sampleCfg [sampleTx "e6" "A" 1 6; sampleTx "p" "B" 0 0])
     expects5 ["A"] (mkHashList [] 2)).1
  = [sampleTx "p" "B" 0 0].
Proof. vm_compute. reflexivity. Qed.

Example getTxList_sample_no_fork :
  (@getTxList (sampleChain false) (samplePool 0)
     (samplePoolOf sampleCfg
        [sampleTx "e6" "A" 1 6; sampleTx "p" "B" 0 0; sampleTx "q" "B" 0 0])
     expects5 ["A"] (mkHashList ["p"] 2)).1
  = [sampleTx "e6" "A" 1 6; sampleTx "q" "B" 0 0].
Proof. vm_compute. reflexivity. Qed.

(** ** The nonce sequencer *)

(** *** [sort.SliceStable] by nonce *)

Lemma insertStable_perm (tx : Transaction) (sorted : list Transaction) :
  insertStable tx sorted ≡ₚ tx :: sorted.
Proof.
  induction sorted as [|y sorted IH]; simpl; [done|].
  destruct (nonceLess y tx); [|done].
  rewrite IH. apply Permutation_swap.
Qed.

Lemma sortSliceStable_perm (etxs : list Transaction) :
  sortSliceStable etxs ≡ₚ etxs.
Proof.
  induction etxs as [|tx etxs IH]; simpl; [done|].
  rewrite insertStable_perm. by rewrite IH.
Qed.

Lemma insertStable_sorted (tx : Transaction) (sorted : list Transaction) :
  StronglySorted (λ a b, Nonce a ≤ Nonce b) sorted →
  StronglySorted (λ a b, Nonce a ≤ Nonce b) (insertStable tx sorted).
Proof.
  induction 1 as [|y sorted Hsorted IH Hall]; simpl.
  - repeat constructor.
  - unfold nonceLess. destruct (Z.ltb_spec (Nonce y) (Nonce tx)) as [Hlt|Hge].
    + constructor; [exact IH|].
      rewrite insertStable_perm. constructor; [lia|exact Hall].
    + constructor; [by constructor|].
      constructor; [exact Hge|].
      eapply Forall_impl; [exact Hall|]. simpl. intros z Hz. lia.
Qed.

Lemma sortSliceStable_sorted (etxs : list Transaction) :
  StronglySorted (λ a b, Nonce a ≤ Nonce b) (sortSliceStable etxs).
Proof.
  induction etxs as [|tx etxs IH]; simpl; [constructor|].
  by apply insertStable_sorted.
Qed.

(** Transactions of one nonce keep their order. *)
Lemma insertStable_stable (nonce : Z) (tx : Transaction)
    (sorted : list Transaction) :
  filter (λ t, Nonce t = nonce) (insertStable tx sorted)
  = filter (λ t, Nonce t = nonce) (tx :: sorted).
Proof.
  induction sorted as [|y sorted IH]; simpl; [done|].
  unfold nonceLess. destruct (Z.ltb_spec (Nonce y) (Nonce tx)) as [Hlt|Hge];
    [|done].
  rewrite (filter_cons _ y), IH, !(filter_cons _ tx), (filter_cons _ y).
  destruct (decide (Nonce y = nonce)), (decide (Nonce tx = nonce));
    try reflexivity; lia.
Qed.

Lemma sortSliceStable_stable (nonce : Z) (etxs : list Transaction) :
  filter (λ t, Nonce t = nonce) (sortSliceStable etxs)
  = filter (λ t, Nonce t = nonce) etxs.
Proof.
  induction etxs as [|tx etxs IH]; simpl; [done|].
  rewrite insertStable_stable, !filter_cons, IH. reflexivity.
Qed.

(** *** Consecutive runs *)

Lemma consecutiveFrom_nil (expected : Z) : consecutiveFrom expected [].
Proof. intros i tx Hi. by rewrite lookup_nil in Hi. Qed.

Lemma consecutiveFrom_cons (expected : Z) (tx : Transaction)
    (run : list Transaction) :
  consecutiveFrom expected (tx :: run)
  ↔ Nonce tx = expected ∧ consecutiveFrom (expected + 1) run.
Proof.
  unfold consecutiveFrom. split.
  - intros Hrun. split.
    + rewrite (Hrun 0%nat tx eq_refl). lia.
    + intros i t Hi. rewrite (Hrun (S i) t Hi). lia.
  - intros [Hhead Hrun] [|i] t Hi; simpl in Hi.
    + injection Hi as <-. lia.
    + rewrite (Hrun i t Hi). lia.
Qed.

(** On an ascending slice the successor test of the loop is the test for
    the next integer: the wrap-around at the top of [int64] cannot pass
    it. *)
Lemma wrap64_succ (n m : Z) :
  in_int64 n → in_int64 m → n ≤ m → (m =? wrap64 (n + 1)) = (m =? n + 1).
Proof.
  intros Hn Hm Hle.
  destruct (decide (n = int64_max)) as [->|Hne].
  - change (wrap64 (int64_max + 1)) with int64_min.
    unfold in_int64, int64_min, int64_max in *.
    destruct (Z.eqb_spec m (- 2 ^ 63)), (Z.eqb_spec m (2 ^ 63 - 1 + 1)); lia.
  - rewrite wrap64_id; [reflexivity|].
    unfold in_int64, int64_min, int64_max in *. lia.
Qed.

Lemma appendConsecutive_prefix (prev : Transaction)
    (rest : list Transaction) :
  appendConsecutive prev rest `prefix_of` rest.
Proof.
  revert prev. induction rest as [|etx rest IH]; intros prev; simpl; [done|].
  destruct (Nonce etx =? wrap64 (Nonce prev + 1)).
  - apply prefix_cons, IH.
  - apply prefix_nil.
Qed.

Lemma appendConsecutive_run (prev : Transaction) (rest : list Transaction) :
  StronglySorted (λ a b, Nonce a ≤ Nonce b) (prev :: rest) →
  Forall (λ tx, in_int64 (Nonce tx)) (prev :: rest) →
  consecutiveFrom (Nonce prev + 1) (appendConsecutive prev rest).
Proof.
  revert prev. induction rest as [|etx rest IH]; intros prev Hsorted Hrange.
  - apply consecutiveFrom_nil.
  - simpl.
    apply StronglySorted_inv in Hsorted as [Hsorted Hle].
    apply Forall_cons in Hle as [Hle _].
    apply Forall_cons in Hrange as [Hprev Hrange].
    pose proof Hrange as [Hetx _]%Forall_cons.
    rewrite wrap64_succ by assumption.
    destruct (Z.eqb_spec (Nonce etx) (Nonce prev + 1)) as [Heq|_];
      [|apply consecutiveFrom_nil].
    apply consecutiveFrom_cons. split; [exact Heq|].
    rewrite <- Heq. by apply IH.
Qed.

Lemma appendConsecutive_longest (prev : Transaction)
    (rest run : list Transaction) :
  Forall (λ tx, in_int64 (Nonce tx)) rest →
  run `prefix_of` rest →
  consecutiveFrom (Nonce prev + 1) run →
  (length run ≤ length (appendConsecutive prev rest))%nat.
Proof.
  revert prev run. induction rest as [|etx rest IH];
    intros prev run Hrange Hprefix Hrun.
  - apply prefix_nil_inv in Hprefix as ->. done.
  - destruct run as [|r run]; [simpl; lia|].
    pose proof (prefix_cons_inv_1 _ _ _ _ Hprefix) as ->.
    apply prefix_cons_inv_2 in Hprefix.
    apply consecutiveFrom_cons in Hrun as [Hhead Hrun].
    apply Forall_cons in Hrange as [Hetx Hrange].
    simpl. rewrite wrap64_id by (rewrite <- Hhead; exact Hetx).
    rewrite Hhead, Z.eqb_refl. simpl.
    apply le_n_S, IH; [exact Hrange|exact Hprefix|].
    rewrite Hhead. exact Hrun.
Qed.

(** *** What is emitted for one sender *)

Lemma emitSender_prefix (rpc : string → NonceReply) (from : string)
    (etxs : list Transaction) :
  emitSender rpc from etxs `prefix_of` sortSliceStable etxs.
Proof.
  unfold emitSender. destruct (sortSliceStable etxs) as [|first rest]; [done|].
  destruct (getCurrentNonce rpc from =? Nonce first).
  - apply prefix_cons, appendConsecutive_prefix.
  - apply prefix_nil.
Qed.

Lemma emitSender_run (rpc : string → NonceReply) (from : string)
    (etxs : list Transaction) :
  Forall (λ tx, in_int64 (Nonce tx)) etxs →
  consecutiveFrom (getCurrentNonce rpc from) (emitSender rpc from etxs).
Proof.
  intros Hrange. unfold emitSender.
  pose proof (sortSliceStable_sorted etxs) as Hsorted.
  assert (Forall (λ tx, in_int64 (Nonce tx)) (sortSliceStable etxs))
    as Hrange'.
  { by rewrite sortSliceStable_perm. }
  destruct (sortSliceStable etxs) as [|first rest];
    [apply consecutiveFrom_nil|].
  destruct (Z.eqb_spec (getCurrentNonce rpc from) (Nonce first)) as [->|_];
    [|apply consecutiveFrom_nil].
  apply consecutiveFrom_cons. split; [reflexivity|].
  by apply appendConsecutive_run.
Qed.

Lemma emitSender_longest (rpc : string → NonceReply) (from : string)
    (etxs run : list Transaction) :
  Forall (λ tx, in_int64 (Nonce tx)) etxs →
  run `prefix_of` sortSliceStable etxs →
  consecutiveFrom (getCurrentNonce rpc from) run →
  (length run ≤ length (emitSender rpc from etxs))%nat.
Proof.
  intros Hrange Hprefix Hrun. unfold emitSender.
  assert (Forall (λ tx, in_int64 (Nonce tx)) (sortSliceStable etxs))
    as Hrange'.
  { by rewrite sortSliceStable_perm. }
  destruct (sortSliceStable etxs) as [|first rest].
  { apply prefix_nil_inv in Hprefix as ->. done. }
  destruct run as [|r run]; [simpl; lia|].
  pose proof (prefix_cons_inv_1 _ _ _ _ Hprefix) as ->.
  apply prefix_cons_inv_2 in Hprefix.
  apply consecutiveFrom_cons in Hrun as [Hhead Hrun].
  rewrite <- Hhead in Hrun |- *. rewrite Z.eqb_refl. simpl.
  apply Forall_cons in Hrange' as [_ Hrest].
  apply le_n_S. by apply appendConsecutive_longest.
Qed.

Lemma emitSender_elem (rpc : string → NonceReply) (from : string)
    (etxs : list Transaction) (tx : Transaction) :
  tx ∈ emitSender rpc from etxs → tx ∈ etxs.
Proof.
  intros Hin. rewrite <- (sortSliceStable_perm etxs).
  destruct (emitSender_prefix rpc from etxs) as [rest ->].
  apply elem_of_app. by left.
Qed.

Section SequencerProofs.
Context `{!ChainTypes}.

(** *** The first loop: pass-through and groups *)

Lemma splitTxs_from (txs : list Transaction)
    (st : list Transaction * gmap string (list Transaction)) :
  (foldl splitTx st txs).1 = st.1 ++ passThrough txs
  ∧ ∀ sender,
      (foldl splitTx st txs).2 !!! sender
      = st.2 !!! sender ++ senderGroup sender txs.
Proof.
  revert st. induction txs as [|tx txs IH]; intros st.
  - simpl. split; [by rewrite app_nil_r|]. intros sender.
    by rewrite app_nil_r.
  - cbn [foldl]. unfold passThrough, senderGroup in *.
    destruct (isEthSignTx tx) eqn:Heth.
    + assert (splitTx st tx
              = (st.1, <[From tx := st.2 !!! From tx ++ [tx]]> st.2)) as ->.
      { unfold splitTx. by rewrite Heth. }
      destruct (IH (st.1, <[From tx := st.2 !!! From tx ++ [tx]]> st.2))
        as [IH1 IH2].
      cbn [fst snd] in IH1, IH2. split.
      * rewrite IH1, (filter_cons_False _ tx) by congruence. reflexivity.
      * intros sender. rewrite IH2.
        destruct (decide (From tx = sender)) as [<-|Hne].
        -- rewrite lookup_total_insert_eq.
           rewrite (filter_cons_True _ tx) by done.
           by rewrite <- app_assoc.
        -- rewrite lookup_total_insert_ne by exact Hne.
           rewrite (filter_cons_False _ tx) by (intros [_ ?]; done).
           reflexivity.
    + assert (splitTx st tx = (st.1 ++ [tx], st.2)) as ->.
      { unfold splitTx. by rewrite Heth. }
      destruct (IH (st.1 ++ [tx], st.2)) as [IH1 IH2].
      cbn [fst snd] in IH1, IH2. split.
      * rewrite IH1, (filter_cons_True _ tx) by exact Heth.
        by rewrite <- app_assoc.
      * intros sender. rewrite IH2.
        rewrite (filter_cons_False _ tx) by (intros [? _]; congruence).
        reflexivity.
Qed.

Lemma splitTxs_spec (txs : list Transaction) :
  (splitTxs txs).1 = passThrough txs
  ∧ ∀ sender, (splitTxs txs).2 !!! sender = senderGroup sender txs.
Proof.
  unfold splitTxs. destruct (splitTxs_from txs ([], ∅)) as [H1 H2].
  split; [exact H1|]. intros sender. rewrite H2.
  cbn [snd]. by rewrite lookup_total_empty.
Qed.

(** *** The second loop *)

Lemma foldl_emit (f : string → list Transaction) (order : list string)
    (merge : list Transaction) :
  foldl (λ merge from, merge ++ f from) merge order
  = merge ++ (order ≫= f).
Proof.
  revert merge. induction order as [|from order IH]; intros merge; simpl.
  - by rewrite app_nil_r.
  - rewrite IH. by rewrite <- app_assoc.
Qed.

Lemma filter_length_all {A : Type} (P : A → Prop) `{!∀ x, Decision (P x)}
    (l : list A) :
  length (filter P l) = length l → ∀ x, x ∈ l → P x.
Proof.
  induction l as [|y l IH]; intros Hlen x Hx; [by apply elem_of_nil in Hx|].
  rewrite filter_cons in Hlen.
  pose proof (length_filter P l) as Hle.
  destruct (decide (P y)) as [Hy|Hy]; simpl in Hlen; [|lia].
  apply elem_of_cons in Hx as [->|Hx]; [exact Hy|].
  apply IH; [lia|exact Hx].
Qed.

Lemma filter_none {A : Type} (P : A → Prop) `{!∀ x, Decision (P x)}
    (l : list A) :
  (∀ x, x ∈ l → ¬ P x) → filter P l = [].
Proof.
  induction l as [|y l IH]; intros Hnone; [reflexivity|].
  rewrite filter_cons_False by (apply Hnone; left).
  apply IH. intros x Hx. apply Hnone. by right.
Qed.

Lemma senderGroup_elem (sender : string) (txs : list Transaction)
    (tx : Transaction) :
  tx ∈ senderGroup sender txs
  ↔ (isEthSignTx tx = true ∧ From tx = sender) ∧ tx ∈ txs.
Proof.
  unfold senderGroup.
  apply (list_elem_of_filter
           (λ t, isEthSignTx t = true ∧ From t = sender)).
Qed.

Lemma ethSenders_elem (sender : string) (txs : list Transaction) :
  sender ∈ ethSenders txs ↔ senderGroup sender txs ≠ [].
Proof.
  unfold ethSenders. rewrite elem_of_remove_dups, list_elem_of_fmap. split.
  - intros (tx & -> & Htx) Hnil.
    apply (list_elem_of_filter (λ t, isEthSignTx t = true)) in Htx.
    assert (tx ∈ senderGroup (From tx) txs) as Hin.
    { apply senderGroup_elem. tauto. }
    rewrite Hnil in Hin. by apply elem_of_nil in Hin.
  - intros Hne. destruct (senderGroup sender txs) as [|tx g] eqn:Hg; [done|].
    assert (tx ∈ senderGroup sender txs) as Hin by (rewrite Hg; left).
    apply senderGroup_elem in Hin as [[Heth Hfrom] Hin].
    exists tx. split; [done|].
    apply (list_elem_of_filter (λ t, isEthSignTx t = true)). tauto.
Qed.

(** Of the concatenation of what is emitted for the senders of a
    duplicate-free order, the part of one sender is what is emitted for
    that sender. *)
Lemma senderGroup_bind (f : string → list Transaction) (sender : string)
    (order : list string) :
  NoDup order →
  (∀ from tx, tx ∈ f from → isEthSignTx tx = true ∧ From tx = from) →
  senderGroup sender (order ≫= f)
  = if decide (sender ∈ order) then f sender else [].
Proof.
  intros Hnodup Hf. induction Hnodup as [|from order Hnotin Hnodup IH].
  - destruct (decide (sender ∈ [])) as [Hin|_]; [|reflexivity].
    by apply elem_of_nil in Hin.
  - rewrite bind_cons. unfold senderGroup in *. rewrite filter_app, IH.
    destruct (decide (from = sender)) as [->|Hne].
    + destruct (decide (sender ∈ order)) as [|_]; [done|].
      destruct (decide (sender ∈ sender :: order)) as [_|Hout];
        [|exfalso; apply Hout; left].
      rewrite app_nil_r.
      apply filter_all. intros tx Htx. by apply Hf.
    + rewrite filter_none.
      * simpl. destruct (decide (sender ∈ order)) as [Hin|Hout];
          destruct (decide (sender ∈ from :: order)) as [Hin'|Hout'];
          try reflexivity.
        -- exfalso. apply Hout'. by right.
        -- apply elem_of_cons in Hin' as [->|Hin']; done.
      * intros tx Htx [_ Hfrom]. apply Hf in Htx as [_ Hfrom']. congruence.
Qed.
End SequencerProofs.

Section SequencerTheorem.
Context `{!ChainTypes}.

(** The result of [sortEthSignTyTx], seen sender by sender: the
    transactions it does not handle pass in their order, and the part of
    each sender is what the second loop emitted for that sender's group. *)
Lemma sortEthSignTyTx_groups (rpc : string → NonceReply)
    (order : list string) (txs : list Transaction) :
  order ≡ₚ ethSenders txs →
  passThrough (sortEthSignTyTx rpc order txs) = passThrough txs
  ∧ ∀ sender,
      senderGroup sender (sortEthSignTyTx rpc order txs)
      = emitSender rpc sender (senderGroup sender txs).
Proof.
  intros Horder. unfold sortEthSignTyTx.
  destruct (splitTxs_spec txs) as [Hmerge Hgroups].
  destruct (splitTxs txs) as [merge ethsignTxs]. cbn [fst snd] in *.
  subst merge.
  destruct (decide (length (passThrough txs) = length txs)) as [Hall|_].
  - split; [reflexivity|]. intros sender.
    assert (senderGroup sender txs = []) as ->; [|reflexivity].
    apply filter_none. intros tx Htx [Heth _].
    pose proof (filter_length_all _ txs Hall tx Htx) as Hplain.
    simpl in Hplain. congruence.
  - rewrite foldl_emit.
    assert (Hemitted : ∀ from tx,
              tx ∈ emitSender rpc from (ethsignTxs !!! from) →
              isEthSignTx tx = true ∧ From tx = from).
    { intros from tx Htx. apply emitSender_elem in Htx.
      rewrite Hgroups in Htx. apply senderGroup_elem in Htx. tauto. }
    assert (Hplain : ∀ tx, tx ∈ passThrough txs → isEthSignTx tx = false).
    { intros tx Htx.
      apply (list_elem_of_filter (λ t, isEthSignTx t = false)) in Htx.
      tauto. }
    split.
    + unfold passThrough at 1. rewrite filter_app.
      rewrite (filter_all _ (passThrough txs)) by exact Hplain.
      rewrite filter_none; [by rewrite app_nil_r|].
      intros tx (from & Htx & _)%list_elem_of_bind Hplain'.
      apply Hemitted in Htx as [Heth _]. congruence.
    + intros sender. unfold senderGroup at 1. rewrite filter_app.
      rewrite (filter_none _ (passThrough txs)); cycle 1.
      { intros tx Htx [Heth _]. apply Hplain in Htx. congruence. }
      cbn [app].
      change (filter (λ tx, isEthSignTx tx = true ∧ From tx = sender)
                (order ≫= λ from, emitSender rpc from (ethsignTxs !!! from)))
        with (senderGroup sender
                (order ≫= λ from, emitSender rpc from (ethsignTxs !!! from))).
      rewrite senderGroup_bind; [| |exact Hemitted]; cycle 1.
      { rewrite Horder. apply NoDup_remove_dups. }
      rewrite Hgroups.
      destruct (decide (sender ∈ order)) as [_|Hout]; [reflexivity|].
      rewrite Horder, ethSenders_elem in Hout.
      destruct (senderGroup sender txs); [reflexivity|].
      exfalso. by apply Hout.
Qed.

(** C1 (as amended): the sequencer lets the transactions that are not
    eth-signed or run on a parallel chain pass in their relative order; the
    eth-signed transactions of each sender it sorts ascending by nonce,
    stably, and when the lowest pooled nonce of the sender equals the nonce
    the oracle expects (0 when the oracle fails) it emits the longest start
    of the sorted group whose nonces go up by one from the expected nonce;
    when the lowest pooled nonce differs from the expected one it emits
    nothing for that sender.  Nothing else of the sender is emitted. *)
Theorem sortEthSignTyTx_sequences (rpc : string → NonceReply)
    (order : list string) (txs : list Transaction) :
  order ≡ₚ ethSenders txs →
  Forall (λ tx, in_int64 (Nonce tx)) txs →
  let out := sortEthSignTyTx rpc order txs in
  passThrough out = passThrough txs
  ∧ ∀ sender,
      let group := senderGroup sender txs in
      let sorted := sortSliceStable group in
      let expected := getCurrentNonce rpc sender in
      let emitted := senderGroup sender out in
      sorted ≡ₚ group
      ∧ StronglySorted (λ a b, Nonce a ≤ Nonce b) sorted
      ∧ (∀ nonce, filter (λ tx, Nonce tx = nonce) sorted
                  = filter (λ tx, Nonce tx = nonce) group)
      ∧ ((∀ nonce, rpc sender ≠ ReplyNonce nonce) → expected = 0)
      ∧ emitted `prefix_of` sorted
      ∧ consecutiveFrom expected emitted
      ∧ (∀ run, run `prefix_of` sorted → consecutiveFrom expected run →
         (length run ≤ length emitted)%nat)
      ∧ (∀ first, head sorted = Some first → Nonce first ≠ expected →
         emitted = []).
Proof.
  intros Horder Hrange out.
  destruct (sortEthSignTyTx_groups rpc order txs Horder) as [Hpass Hgroups].
  split; [exact Hpass|]. intros sender group sorted expected emitted.
  assert (Hgroup_range : Forall (λ tx, in_int64 (Nonce tx)) group).
  { apply Forall_forall. intros tx Htx.
    apply senderGroup_elem in Htx as [_ Htx].
    by apply (proj1 (Forall_forall _ _) Hrange). }
  assert (Hemitted : emitted = emitSender rpc sender group)
    by apply Hgroups.
  split; [apply sortSliceStable_perm|].
  split; [apply sortSliceStable_sorted|].
  split; [intros nonce; apply sortSliceStable_stable|].
  split.
  { intros Hfail. unfold expected, getCurrentNonce.
    destruct (rpc sender) as [nonce| |]; [|reflexivity..].
    by destruct (Hfail nonce). }
  rewrite Hemitted.
  split; [apply emitSender_prefix|].
  split; [by apply emitSender_run|].
  split; [intros run; by apply emitSender_longest|].
  intros first Hhead Hne. unfold emitSender. fold sorted.
  destruct sorted as [|first' rest]; [done|].
  injection Hhead as ->.
  destruct (Z.eqb_spec (getCurrentNonce rpc sender) (Nonce first));
    [|reflexivity].
  unfold expected in Hne. congruence.
Qed.
End SequencerTheorem.

(** C1 at work, the first scenario of the spec: sender A expected at nonce 5
    with nonces 5, 6 and 8 pooled (found as 8, 5, 6) gets 5 and 6 emitted
    and 8 withheld; the plain transfer passes. *)
Lemma sortEthSignTyTx_sequences_witness :
  @sortEthSignTyTx (sampleChain true) expects5 ["A"]
    [sampleTx "a8" "A" 1 8; sampleTx "p" "B" 0 0; sampleTx "a5" "A" 1 5;
     sampleTx "a6" "A" 1 6]
  = [sampleTx "p" "B" 0 0; sampleTx "a5" "A" 1 5; sampleTx "a6" "A" 1 6]
  ∧ consecutiveFrom 5
      (@senderGroup (sampleChain true) "A"
         (@sortEthSignTyTx (sampleChain true) expects5 ["A"]
            [sampleTx "a8" "A" 1 8; sampleTx "p" "B" 0 0;
             sampleTx "a5" "A" 1 5; sampleTx "a6" "A" 1 6])).
Proof.
  split; [vm_compute; reflexivity|].
  destruct (@sortEthSignTyTx_sequences (sampleChain true) expects5 ["A"]
              [sampleTx "a8" "A" 1 8; sampleTx "p" "B" 0 0;
               sampleTx "a5" "A" 1 5; sampleTx "a6" "A" 1 6])
    as [_ Hsender].
  - vm_compute. reflexivity.
  - repeat constructor; vm_compute; discriminate.
  - destruct (Hsender "A") as (_ & _ & _ & _ & _ & Hrun & _). exact Hrun.
Defined.

(** The second scenario of the spec: with nonces 6 and 7 pooled and 5
    expected, nothing of A is emitted. *)
Example sortEthSignTyTx_gap_at_start :
  @sortEthSignTyTx (sampleChain true) expects5 ["A"]
    [sampleTx "a6" "A" 1 6; sampleTx "a7" "A" 1 7; sampleTx "p" "B" 0 0]
  = [sampleTx "p" "B" 0 0].
Proof. vm_compute. reflexivity. Qed.

(** C1, the claim as stated fails: with nonces 3, 5 and 6 pooled and 5
    expected, the run of the sender's nonces that starts at the expected
    value is 5, 6, yet the sequencer, which compares the expected nonce with
    the lowest pooled one, emits nothing of A. *)
Lemma sortEthSignTyTx_stale_nonce_blocks :
  @senderGroup (sampleChain true) "A"
    (@sortEthSignTyTx (sampleChain true) expects5 ["A"]
       [sampleTx "a3" "A" 1 3; sampleTx "a5" "A" 1 5; sampleTx "a6" "A" 1 6])
  ≠ claimedRun 3 (getCurrentNonce expects5 "A")
      (@senderGroup (sampleChain true) "A"
         [sampleTx "a3" "A" 1 3; sampleTx "a5" "A" 1 5;
          sampleTx "a6" "A" 1 6]).
Proof. vm_compute. discriminate. Qed.

(** * Further properties of the code *)

(** ** Commit pruning *)

(** X1: [RemoveTxsOfBlock] is [removeTxs] on the hashes of the block's
    transactions; it answers [true], and afterwards no transaction of the
    block is resident while every other resident item is, in its place;
    header, sync flag and configuration are as before. *)
Theorem RemoveTxsOfBlock_prunes (mem : Mempool) (block : Block) :
  (RemoveTxsOfBlock mem block).2 = true
  ∧ (RemoveTxsOfBlock mem block).1 = removeTxs mem (Hash <$> Txs block)
  ∧ (∀ tx, tx ∈ Txs block →
     Exist (cache (RemoveTxsOfBlock mem block).1) (Hash tx) = false)
  ∧ cacheItems (cache (RemoveTxsOfBlock mem block).1)
    = filter (λ it, Hash (Value it) ∉ Hash <$> Txs block)
        (cacheItems (cache mem))
  ∧ header (RemoveTxsOfBlock mem block).1 = header mem
  ∧ sync (RemoveTxsOfBlock mem block).1 = sync mem
  ∧ cfg (RemoveTxsOfBlock mem block).1 = cfg mem.
Proof.
  assert (Hcompose : (RemoveTxsOfBlock mem block).1
                     = removeTxs mem (Hash <$> Txs block)).
  { unfold RemoveTxsOfBlock, removeTxs. cbn [fst].
    rewrite foldl_fmap. reflexivity. }
  destruct (removeTxs_qcache mem (Hash <$> Txs block)) as (Hq & Hh & Hs & Hc).
  assert (Hitems : cacheItems (cache (RemoveTxsOfBlock mem block).1)
                   = filter (λ it, Hash (Value it) ∉ Hash <$> Txs block)
                       (cacheItems (cache mem))).
  { rewrite Hcompose. unfold cacheItems. rewrite Hq.
    destruct (qcache (cache mem)); reflexivity. }
  split; [reflexivity|]. split; [exact Hcompose|]. split.
  - intros tx Htx.
    destruct (Exist (cache (RemoveTxsOfBlock mem block).1) (Hash tx))
      eqn:Hex; [|reflexivity].
    apply Exist_elem in Hex as (it & Hit & Hhash).
    rewrite Hitems in Hit.
    apply (list_elem_of_filter
             (λ it, Hash (Value it) ∉ Hash <$> Txs block)) in Hit
      as [Hout _].
    exfalso. apply Hout. rewrite Hhash. apply list_elem_of_fmap.
    by exists tx.
  - split; [exact Hitems|]. rewrite Hcompose. done.
Qed.

(** ** Listing with and without the expiry filter *)

Section ListingMore.
Context `{!ChainTypes, !PoolPackage}.

(** The walk of [filterTxList] for either value of [isAll]. *)
Lemma Walk_filterVisitor_isAll (count : Z) (dupMap : gset string)
    (isAll : bool) (height blockTime : Z) (items : list Item)
    (txs : list Transaction) :
  (0 < count → Z.of_nat (length txs) < count) →
  Walk items (filterVisitor count dupMap isAll height blockTime) txs
  = txs ++
    let found :=
      Value <$> filter (λ it, (Hash (Value it) ∉ dupMap)
                              ∧ (isAll = true
                                 ∨ isExpired it height blockTime = false))
                  items in
    if 0 <? count then take (Z.to_nat count - length txs) found else found.
Proof.
  revert txs. induction items as [|it items IH]; intros txs Hroom.
  - simpl. destruct (0 <? count); [rewrite take_nil|]; by rewrite app_nil_r.
  - cbn [Walk]. unfold filterVisitor at 1. rewrite dupMap_test.
    destruct (decide (Hash (Value it) ∈ dupMap)) as [Hdup|Hfresh].
    { rewrite bool_decide_eq_true_2 by exact Hdup.
      rewrite IH by exact Hroom.
      rewrite filter_cons_False by tauto. reflexivity. }
    rewrite bool_decide_eq_false_2 by exact Hfresh.
    destruct (isExpired it height blockTime && negb isAll) eqn:Hskip.
    { apply andb_true_iff in Hskip as [Hexp Hall].
      apply negb_true_iff in Hall.
      rewrite IH by exact Hroom.
      rewrite filter_cons_False; [reflexivity|].
      intros [_ [?|?]]; congruence. }
    assert (isAll = true ∨ isExpired it height blockTime = false) as Hkeep.
    { apply andb_false_iff in Hskip as [?|Hall]; [by right|left].
      by apply negb_false_iff in Hall. }
    rewrite filter_cons_True by done. rewrite fmap_cons.
    rewrite length_app. cbn [length].
    destruct (Z.ltb_spec 0 count) as [Hpos|Hnonpos].
    + rewrite Z.gtb_ltb. destruct (Z.ltb_spec 0 count) as [_|]; [|lia].
      specialize (Hroom Hpos). cbn [andb].
      destruct (Z.eqb_spec (Z.of_nat (length txs + 1)) count) as [Hfull|Hmore].
      * assert (Z.to_nat count - length txs = 1)%nat as -> by lia.
        cbn [take]. by rewrite take_0.
      * rewrite IH by (rewrite length_app; cbn [length]; lia).
        rewrite length_app. cbn [length].
        destruct (Z.ltb_spec 0 count) as [_|]; [|lia].
        assert (Z.to_nat count - length txs
                = S (Z.to_nat count - (length txs + 1)))%nat as -> by lia.
        cbn [take]. by rewrite <- app_assoc.
    + rewrite Z.gtb_ltb. destruct (Z.ltb_spec 0 count) as [|_]; [lia|].
      cbn [andb]. rewrite IH by lia.
      destruct (Z.ltb_spec 0 count) as [|_]; [lia|].
      by rewrite <- app_assoc.
Qed.

(** X2: With [isAll] set and the fork inactive, [filterTxList] returns the
    first [count] resident transactions outside the dedup map, expired ones
    included; a [count] that is not positive returns them all. *)
Theorem filterTxList_isAll_keeps_expired (mem : Mempool)
    (rpc : string → NonceReply) (order : list string) (count : Z)
    (dupMap : gset string) :
  IsForkCheckEthTxSort (headerGetHeight mem) = false →
  filterTxList mem rpc order count dupMap true
  = let resident :=
      Value <$> filter (λ it, Hash (Value it) ∉ dupMap)
                  (cacheItems (cache mem)) in
    if 0 <? count then take (Z.to_nat count) resident else resident.
Proof.
  intros Hfork. unfold filterTxList. rewrite Hfork.
  rewrite Walk_filterVisitor_isAll by (cbn [length]; lia).
  cbn [app length]. rewrite Nat.sub_0_r.
  assert (filter (λ it, (Hash (Value it) ∉ dupMap)
                        ∧ (true = true
                           ∨ isExpired it (wrap64 (headerGetHeight mem + 1))
                               (headerGetBlockTime mem) = false))
            (cacheItems (cache mem))
          = filter (λ it, Hash (Value it) ∉ dupMap) (cacheItems (cache mem)))
    as ->; [|reflexivity].
  apply list_filter_iff. intros it. tauto.
Qed.

(** X3: Pruning does not change what the pool lists: after [removeExpired],
    which uses the reference point of [filterTxList], the list is the one
    the pool gave before, and [isAll] no longer makes a difference. *)
Theorem removeExpired_keeps_listing (mem : Mempool)
    (rpc : string → NonceReply) (order : list string) (count : Z)
    (dupMap : gset string) (isAll : bool) :
  filterTxList (removeExpired mem) rpc order count dupMap isAll
  = filterTxList mem rpc order count dupMap false.
Proof.
  unfold filterTxList.
  assert (headerGetHeight (removeExpired mem) = headerGetHeight mem) as ->
    by reflexivity.
  assert (headerGetBlockTime (removeExpired mem) = headerGetBlockTime mem)
    as -> by reflexivity.
  rewrite !Walk_filterVisitor_isAll by (cbn [length]; lia).
  assert (filter (λ it, (Hash (Value it) ∉ dupMap)
                        ∧ (isAll = true
                           ∨ isExpired it (wrap64 (headerGetHeight mem + 1))
                               (headerGetBlockTime mem) = false))
            (cacheItems (cache (removeExpired mem)))
          = filter (λ it, (Hash (Value it) ∉ dupMap)
                          ∧ (false = true
                             ∨ isExpired it
                                 (wrap64 (headerGetHeight mem + 1))
                                 (headerGetBlockTime mem) = false))
              (cacheItems (cache mem))) as ->; [|reflexivity].
  unfold removeExpired, removeExpiredTx, cacheItems. cbn [cache withCache].
  destruct (qcache (cache mem)) as [q|] eqn:Hq; cbn [qcache default];
    [|by rewrite Hq].
  unfold id. rewrite list_filter_filter. apply list_filter_iff. intros it.
  split; [|intros [? [?|?]]; [done|tauto]].
  intros [[? _] ?]. tauto.
Qed.
End ListingMore.

(** ** The sequencer never invents transactions *)

Section SequencerMore.
Context `{!ChainTypes}.

(** [sortEthSignTyTx] in one equation. *)
Lemma sortEthSignTyTx_unfold (rpc : string → NonceReply)
    (order : list string) (txs : list Transaction) :
  sortEthSignTyTx rpc order txs
  = if decide (length (passThrough txs) = length txs) then txs
    else passThrough txs
         ++ (order ≫= λ from, emitSender rpc from (senderGroup from txs)).
Proof.
  unfold sortEthSignTyTx.
  destruct (splitTxs_spec txs) as [Hmerge Hgroups].
  destruct (splitTxs txs) as [merge ethsignTxs]. cbn [fst snd] in *.
  subst merge.
  destruct (decide (length (passThrough txs) = length txs)); [reflexivity|].
  rewrite foldl_emit. f_equal. apply list_bind_ext; [|reflexivity].
  intros from. by rewrite Hgroups.
Qed.

Lemma emitSender_submseteq (rpc : string → NonceReply) (from : string)
    (etxs : list Transaction) :
  emitSender rpc from etxs ⊆+ etxs.
Proof.
  transitivity (sortSliceStable etxs).
  - destruct (emitSender_prefix rpc from etxs) as [rest ->].
    apply sublist_submseteq, sublist_inserts_r. reflexivity.
  - apply Permutation_submseteq, sortSliceStable_perm.
Qed.

Lemma passThrough_split (txs : list Transaction) :
  passThrough txs ++ filter (λ tx, isEthSignTx tx = true) txs ≡ₚ txs.
Proof.
  unfold passThrough. induction txs as [|tx txs IH]; [done|].
  destruct (isEthSignTx tx) eqn:Heth.
  - rewrite (filter_cons_False (λ t, isEthSignTx t = false))
      by congruence.
    rewrite (filter_cons_True (λ t, isEthSignTx t = true)) by exact Heth.
    rewrite <- Permutation_middle. by rewrite IH.
  - rewrite (filter_cons_True (λ t, isEthSignTx t = false)) by exact Heth.
    rewrite (filter_cons_False (λ t, isEthSignTx t = true)) by congruence.
    simpl. by rewrite IH.
Qed.

Lemma bind_cons_at (g : string → list Transaction) (key : string)
    (tx : Transaction) (keys : list string) :
  NoDup keys → key ∈ keys →
  keys ≫= (λ a, if decide (key = a) then tx :: g a else g a)
  ≡ₚ tx :: (keys ≫= g).
Proof.
  intros Hnodup. induction Hnodup as [|k keys Hnotin Hnodup IH];
    intros Hin; [by apply elem_of_nil in Hin|].
  rewrite !bind_cons.
  destruct (decide (key = k)) as [->|Hne].
  - simpl. f_equiv. f_equiv.
    apply reflexive_eq, Forall_bind_ext, Forall_forall.
    intros a Ha. destruct (decide (k = a)) as [<-|]; [done|reflexivity].
  - apply elem_of_cons in Hin as [?|Hin]; [done|].
    rewrite (IH Hin). symmetry. apply Permutation_middle.
Qed.

(** The groups of the senders of a duplicate-free list that names every
    eth sender make up the eth-signed transactions. *)
Lemma bind_groups (keys : list string) (txs : list Transaction) :
  NoDup keys →
  (∀ tx, tx ∈ txs → isEthSignTx tx = true → From tx ∈ keys) →
  keys ≫= (λ a, senderGroup a txs)
  ≡ₚ filter (λ tx, isEthSignTx tx = true) txs.
Proof.
  intros Hnodup. induction txs as [|tx txs IH]; intros Hkeys.
  - unfold senderGroup. simpl. clear. induction keys; [done|].
    by rewrite bind_cons.
  - assert (IH' : keys ≫= (λ a, senderGroup a txs)
                  ≡ₚ filter (λ tx, isEthSignTx tx = true) txs).
    { apply IH. intros t Ht. apply Hkeys. by right. }
    destruct (isEthSignTx tx) eqn:Heth.
    + rewrite (filter_cons_True (λ t, isEthSignTx t = true)) by exact Heth.
      rewrite <- IH', <- bind_cons_at;
        [|exact Hnodup|apply Hkeys; [left|exact Heth]].
      apply reflexive_eq, list_bind_ext; [|reflexivity].
      intros a. unfold senderGroup. rewrite filter_cons.
      destruct (decide (From tx = a)) as [Heq|Hne].
      * rewrite decide_True by done. reflexivity.
      * rewrite decide_False by (intros [_ ?]; done). reflexivity.
    + rewrite (filter_cons_False (λ t, isEthSignTx t = true)) by congruence.
      rewrite <- IH'.
      apply reflexive_eq, list_bind_ext; [|reflexivity].
      intros a. unfold senderGroup.
      rewrite filter_cons_False by (intros [? _]; congruence). reflexivity.
Qed.

(** Whatever the order of the senders, every transaction [sortEthSignTyTx]
    returns is one of those it was given. *)
Lemma sortEthSignTyTx_elem_given (rpc : string → NonceReply)
    (order : list string) (txs : list Transaction) (tx : Transaction) :
  tx ∈ sortEthSignTyTx rpc order txs → tx ∈ txs.
Proof.
  rewrite sortEthSignTyTx_unfold.
  destruct (decide (length (passThrough txs) = length txs)); [done|].
  intros [Hin|Hin]%elem_of_app.
  - apply (list_elem_of_filter (λ t, isEthSignTx t = false)) in Hin. tauto.
  - apply list_elem_of_bind in Hin as (from & Hin & _).
    apply emitSender_elem, senderGroup_elem in Hin. tauto.
Qed.

(** The result of [sortEthSignTyTx] as a sub-multiset of its argument. *)
Lemma sortEthSignTyTx_sub (rpc : string → NonceReply)
    (order : list string) (txs : list Transaction) :
  order ≡ₚ ethSenders txs →
  sortEthSignTyTx rpc order txs ⊆+ txs.
Proof.
  intros Horder.
  rewrite sortEthSignTyTx_unfold.
  destruct (decide (length (passThrough txs) = length txs)); [done|].
  transitivity (passThrough txs
                ++ filter (λ tx, isEthSignTx tx = true) txs);
    [|apply Permutation_submseteq, passThrough_split].
  apply submseteq_skips_l.
  transitivity (order ≫= (λ a, senderGroup a txs)).
  - clear. induction order as [|a order IH]; [done|].
    rewrite !bind_cons. apply submseteq_app; [|exact IH].
    apply emitSender_submseteq.
  - apply Permutation_submseteq, bind_groups.
    + rewrite Horder. apply NoDup_remove_dups.
    + intros tx Htx Heth. rewrite Horder. apply ethSenders_elem.
      intros Hnil.
      assert (tx ∈ senderGroup (From tx) txs) as Hin.
      { apply senderGroup_elem. tauto. }
      rewrite Hnil in Hin. by apply elem_of_nil in Hin.
Qed.

(** X4: When the senders are visited once each, [sortEthSignTyTx] returns a
    sub-multiset of what it was given: every transaction it returns was
    given to it, it repeats none, and its result is never longer than its
    argument. *)
Theorem sortEthSignTyTx_submseteq (rpc : string → NonceReply)
    (order : list string) (txs : list Transaction) :
  order ≡ₚ ethSenders txs →
  sortEthSignTyTx rpc order txs ⊆+ txs
  ∧ (length (sortEthSignTyTx rpc order txs) ≤ length txs)%nat.
Proof.
  intros Horder.
  pose proof (sortEthSignTyTx_sub rpc order txs Horder) as Hsub.
  split; [exact Hsub|by apply submseteq_length].
Qed.
End SequencerMore.

(** ** Sequencing twice *)

Lemma sortSliceStable_sorted_id (etxs : list Transaction) :
  StronglySorted (λ a b, Nonce a ≤ Nonce b) etxs →
  sortSliceStable etxs = etxs.
Proof.
  induction 1 as [|tx etxs Hsorted IH Hall]; [reflexivity|].
  simpl. rewrite IH. destruct etxs as [|y etxs]; [reflexivity|].
  simpl. unfold nonceLess.
  apply Forall_cons in Hall as [Hle _].
  destruct (Z.ltb_spec (Nonce y) (Nonce tx)); [lia|reflexivity].
Qed.

Lemma appendConsecutive_all (prev : Transaction) (rest : list Transaction) :
  Forall (λ tx, in_int64 (Nonce tx)) rest →
  consecutiveFrom (Nonce prev + 1) rest →
  appendConsecutive prev rest = rest.
Proof.
  revert prev. induction rest as [|etx rest IH]; intros prev Hrange Hrun;
    [reflexivity|].
  apply Forall_cons in Hrange as [Hetx Hrange].
  apply consecutiveFrom_cons in Hrun as [Hhead Hrun].
  simpl. rewrite wrap64_id by (rewrite <- Hhead; exact Hetx).
  rewrite Hhead, Z.eqb_refl. f_equal.
  apply IH; [exact Hrange|]. by rewrite Hhead.
Qed.

(** What was emitted for a sender is emitted whole when sequenced again. *)
Lemma emitSender_fixed (rpc : string → NonceReply) (from : string)
    (etxs : list Transaction) :
  Forall (λ tx, in_int64 (Nonce tx)) etxs →
  emitSender rpc from (emitSender rpc from etxs) = emitSender rpc from etxs.
Proof.
  intros Hrange.
  pose proof (emitSender_run rpc from etxs Hrange) as Hrun.
  assert (StronglySorted (λ a b, Nonce a ≤ Nonce b)
            (emitSender rpc from etxs)) as Hsorted.
  { destruct (emitSender_prefix rpc from etxs) as [rest Hrest].
    pose proof (sortSliceStable_sorted etxs) as Hs. rewrite Hrest in Hs.
    by apply StronglySorted_app_1_l in Hs. }
  assert (Forall (λ tx, in_int64 (Nonce tx)) (emitSender rpc from etxs))
    as Hrange'.
  { apply Forall_forall. intros tx Htx%emitSender_elem.
    by apply (proj1 (Forall_forall _ _) Hrange). }
  destruct (emitSender rpc from etxs) as [|first rest] eqn:Hemit;
    [reflexivity|].
  unfold emitSender at 1. rewrite (sortSliceStable_sorted_id _ Hsorted).
  apply consecutiveFrom_cons in Hrun as [Hhead Hrun].
  rewrite Hhead, Z.eqb_refl. f_equal.
  apply Forall_cons in Hrange' as [_ Hrest].
  apply appendConsecutive_all; [exact Hrest|]. by rewrite Hhead.
Qed.

Lemma bind_filter_nil {A B : Type} (P : A → Prop) `{!∀ x, Decision (P x)}
    (f : A → list B) (l : list A) :
  (∀ a, ¬ P a → f a = []) → filter P l ≫= f = l ≫= f.
Proof.
  intros Hnil. induction l as [|a l IH]; [reflexivity|].
  rewrite filter_cons. destruct (decide (P a)) as [Ha|Ha].
  - rewrite !bind_cons. by rewrite IH.
  - rewrite bind_cons, (Hnil a Ha). exact IH.
Qed.

Section SequencerTwice.
Context `{!ChainTypes}.

(** X5: A sequenced list passes the sequencer unchanged: with the senders
    that are left visited in the same relative order and the oracle
    answering as before, [sortEthSignTyTx] returns its own result as it is. *)
Theorem sortEthSignTyTx_idempotent (rpc : string → NonceReply)
    (order : list string) (txs : list Transaction) :
  order ≡ₚ ethSenders txs →
  Forall (λ tx, in_int64 (Nonce tx)) txs →
  let out := sortEthSignTyTx rpc order txs in
  let order' := filter (λ a, a ∈ ethSenders out) order in
  order' ≡ₚ ethSenders out
  ∧ sortEthSignTyTx rpc order' out = out.
Proof.
  intros Horder Hrange out order'.
  destruct (sortEthSignTyTx_groups rpc order txs Horder) as [Hpass Hgroups].
  fold out in Hpass, Hgroups.
  assert (Hgroup_range : ∀ a,
            Forall (λ tx, in_int64 (Nonce tx)) (senderGroup a txs)).
  { intros a. apply Forall_forall. intros tx Htx.
    apply senderGroup_elem in Htx as [_ Htx].
    by apply (proj1 (Forall_forall _ _) Hrange). }
  split.
  - apply NoDup_Permutation.
    + apply NoDup_filter. rewrite Horder. apply NoDup_remove_dups.
    + apply NoDup_remove_dups.
    + intros a. unfold order'.
      rewrite (list_elem_of_filter (λ a, a ∈ ethSenders out)).
      split; [tauto|]. intros Ha. split; [exact Ha|].
      rewrite Horder. apply ethSenders_elem. intros Hnil.
      apply ethSenders_elem in Ha. apply Ha.
      rewrite Hgroups, Hnil. reflexivity.
  - rewrite (sortEthSignTyTx_unfold rpc order' out).
    destruct (decide (length (passThrough out) = length out)) as [|Hsome];
      [reflexivity|].
    assert (order' ≫= (λ from, emitSender rpc from (senderGroup from out))
            = order ≫= (λ from, emitSender rpc from (senderGroup from txs)))
      as ->.
    { unfold order'.
      rewrite (bind_filter_nil (λ a, a ∈ ethSenders out)).
      - apply list_bind_ext; [|reflexivity]. intros a.
        rewrite Hgroups. by apply emitSender_fixed.
      - intros a Ha.
        assert (senderGroup a out = []) as ->; [|reflexivity].
        destruct (senderGroup a out) eqn:Hg; [reflexivity|].
        exfalso. apply Ha, ethSenders_elem. by rewrite Hg. }
    rewrite Hpass in Hsome |- *.
    assert (Hout : out
              = if decide (length (passThrough txs) = length txs) then txs
                else passThrough txs
                     ++ (order ≫= λ from,
                           emitSender rpc from (senderGroup from txs)))
      by apply sortEthSignTyTx_unfold.
    destruct (decide (length (passThrough txs) = length txs)) as [Hall|];
      [|by rewrite Hout].
    exfalso. apply Hsome. by rewrite Hout.
Qed.
End SequencerTwice.

(** ** What [getTxList] never returns *)

Section ListingSound.
Context `{!ChainTypes, !PoolPackage}.

(** X6: Fork or no fork, whatever the oracle answers and in whatever order
    the senders are visited, every transaction [getTxList] returns is
    resident, is not named in the request's hash list and is not expired for
    the next block. *)
Theorem getTxList_sound (mem : Mempool) (rpc : string → NonceReply)
    (order : list string) (filterList : TxHashList) (tx : Transaction) :
  tx ∈ (getTxList mem rpc order filterList).1 →
  ∃ it, it ∈ cacheItems (cache mem)
        ∧ Value it = tx
        ∧ (Hash tx ∉ Hashes filterList)
        ∧ isExpired it (wrap64 (headerGetHeight mem + 1))
            (headerGetBlockTime mem) = false.
Proof.
  unfold getTxList, filterTxList. cbn [fst]. rewrite getTxList_walk.
  intros Hin.
  assert (tx ∈ eligible mem (Hashes filterList)) as Helig.
  { assert (tx ∈ (if 0 <? Count filterList
                  then take (Z.to_nat (Count filterList))
                         (eligible mem (Hashes filterList))
                  else eligible mem (Hashes filterList))) as Hcollected.
    { destruct (IsForkCheckEthTxSort (headerGetHeight mem)); [|exact Hin].
      by apply sortEthSignTyTx_elem_given in Hin. }
    destruct (0 <? Count filterList); [|exact Hcollected].
    eapply elem_of_submseteq; [exact Hcollected|].
    apply sublist_submseteq, sublist_take. }
  unfold eligible in Helig.
  apply list_elem_of_fmap in Helig as (it & -> & Hit).
  apply (list_elem_of_filter
           (λ it, (Hash (Value it) ∉ Hashes filterList)
                  ∧ isExpired it (wrap64 (headerGetHeight mem + 1))
                      (headerGetBlockTime mem) = false)) in Hit
    as [[Hfresh Hlive] Hit].
  exists it. done.
Qed.

(** X7: Under a bound [K > 0], [getTxList] returns at most [K] transactions,
    the fork being active or not, as long as the sequencer visits each
    sender once. *)
Theorem getTxList_at_most_count (mem : Mempool) (rpc : string → NonceReply)
    (order : list string) (filterList : TxHashList) :
  0 < Count filterList →
  (IsForkCheckEthTxSort (headerGetHeight mem) = true →
   order ≡ₚ ethSenders (take (Z.to_nat (Count filterList))
                          (eligible mem (Hashes filterList)))) →
  Z.of_nat (length (getTxList mem rpc order filterList).1)
  ≤ Count filterList.
Proof.
  intros Hpos Horder.
  unfold getTxList, filterTxList. cbn [fst]. rewrite getTxList_walk.
  destruct (Z.ltb_spec 0 (Count filterList)) as [_|]; [|lia].
  destruct (IsForkCheckEthTxSort (headerGetHeight mem)) eqn:Hfork.
  - pose proof (submseteq_length _ _
                  (sortEthSignTyTx_sub rpc order _ (Horder eq_refl))) as Hlen.
    rewrite length_take in Hlen. lia.
  - rewrite length_take. lia.
Qed.
End ListingSound.

(** ** More on the fee recommendation *)

Section FeeMore.
Context `{!ChainTypes, !PoolPackage}.

(** X8: Anticipating more transactions or more bytes never lowers the level-
    based rate. *)
Theorem getLevelFeeRate_monotone (mem : Mempool) (q : QueueCache)
    (baseFeeRate count1 size1 count2 size2 rate1 rate2 : Z) :
  qcache (cache mem) = Some q →
  0 ≤ baseFeeRate →
  in_int64 (100 * baseFeeRate) →
  in_int64 (GetCacheBytes q + size1) →
  in_int64 (GetCacheBytes q + size2) →
  in_int64 (mempoolSize mem + count1) →
  in_int64 (mempoolSize mem + count2) →
  count1 ≤ count2 → size1 ≤ size2 →
  getLevelFeeRate mem baseFeeRate count1 size1 = Some rate1 →
  getLevelFeeRate mem baseFeeRate count2 size2 = Some rate2 →
  rate1 ≤ rate2.
Proof.
  intros Hq Hbase H100 Hs1 Hs2 Hc1 Hc2 Hcount Hsize.
  assert (H10 : in_int64 (10 * baseFeeRate)).
  { unfold in_int64, int64_min, int64_max in *. lia. }
  unfold getLevelFeeRate, GetTotalCacheBytes. rewrite Hq. simpl.
  rewrite (wrap64_id _ Hs1), (wrap64_id _ Hs2), (wrap64_id _ Hc1),
    (wrap64_id _ Hc2), (wrap64_id _ H100), (wrap64_id _ H10).
  intros [= <-] [= <-]. rewrite !clampFee_min, !Z.geb_leb.
  repeat match goal with
         | |- context [Z.leb ?a ?b] => destruct (Z.leb_spec a b)
         end; simpl; lia.
Qed.

(** X9: [GetProperFeeRate] touches no request object but the caller's: the
    heap grows by at most one object, every other object keeps its content,
    and the caller's object keeps its [TxCount]. *)
Theorem GetProperFeeRate_frame (mem : Mempool) (req : option loc)
    (h h' : heap) (rate : Z) :
  (∀ p, req = Some p → is_Some (h !! p)) →
  GetProperFeeRate mem req h = Some (rate, h') →
  (length h ≤ length h' ≤ length h + 1)%nat
  ∧ (∀ p, req ≠ Some p → (p < length h)%nat → h' !! p = h !! p)
  ∧ (∀ p v, req = Some p → h !! p = Some v →
     ∃ v', h' !! p = Some v' ∧ TxCount v' = TxCount v).
Proof.
  intros Hreq. rewrite GetProperFeeRate_run by exact Hreq.
  destruct (feeRateFor mem _ _) as [rate0|]; simpl; [|done].
  intros [= _ <-]. unfold heapAfter.
  destruct req as [p0|]; simpl.
  - destruct (Hreq p0 eq_refl) as [v0 Hv0]. rewrite Hv0. simpl.
    assert (Hlt := lookup_lt_Some _ _ _ Hv0).
    destruct (TxCount v0 =? 0).
    { rewrite length_app. simpl. split; [lia|]. split.
      - intros p _ Hp. by rewrite lookup_app_l.
      - intros p v [= <-] Hv. exists v.
        rewrite lookup_app_l by exact Hlt. done. }
    destruct (TxSize v0 =? 0).
    + rewrite length_insert. split; [lia|]. split.
      * intros p Hne Hp. apply list_lookup_insert_ne. congruence.
      * intros p v [= <-] Hv. exists (mkReq (TxCount v0) 10240).
        rewrite list_lookup_insert_eq by exact Hlt.
        split; [reflexivity|]. simpl. congruence.
    + split; [lia|]. split; [done|].
      intros p v [= <-] Hv. by exists v.
  - rewrite length_app. simpl. split; [lia|]. split; [|done].
    intros p _ Hp. by rewrite lookup_app_l.
Qed.

(** X10: Without a queue installed, [GetProperFeeRate] recommends 0 when
    tiered fees are off, and panics when they are on: only the cache-fill-
    based path tests for the missing queue. *)
Theorem GetProperFeeRate_without_queue (mem : Mempool) (req : option loc)
    (h : heap) :
  (∀ p, req = Some p → is_Some (h !! p)) →
  qcache (cache mem) = None →
  GetProperFeeRate mem req h
  = if IsLevelFee (cfg mem) then None else Some (0, heapAfter req h).
Proof.
  intros Hreq Hq. rewrite GetProperFeeRate_run by exact Hreq.
  unfold feeRateFor, getLevelFeeRate, GetTotalCacheBytes, getCacheFeeRate.
  rewrite Hq. destruct (IsLevelFee (cfg mem)); reflexivity.
Qed.

(** X11: The cache-fill-based rate is the queue's proposal raised by less
    than one [MinTxFeeRate] unit, unless the maximum caps it. *)
Theorem getCacheFeeRate_within_unit (mem : Mempool) (q : QueueCache) :
  qcache (cache mem) = Some q →
  0 < MinTxFeeRate (cfg mem) →
  0 ≤ GetProperFee q →
  GetProperFee q + MinTxFeeRate (cfg mem) ≤ int64_max →
  Z.min (GetProperFee q) (MaxTxFeeRate (cfg mem)) ≤ getCacheFeeRate mem
  ∧ getCacheFeeRate mem < GetProperFee q + MinTxFeeRate (cfg mem)
  ∧ (getCacheFeeRate mem = MaxTxFeeRate (cfg mem)
     ∨ (MinTxFeeRate (cfg mem) | getCacheFeeRate mem)).
Proof.
  intros Hq Hunit Hfee Hover.
  rewrite (getCacheFeeRate_ceil mem q Hq) by (assumption || lia).
  destruct (ceilToUnit_least (MinTxFeeRate (cfg mem)) (GetProperFee q) Hunit)
    as (Hdiv & Hge & Hleast).
  assert (ceilToUnit (MinTxFeeRate (cfg mem)) (GetProperFee q)
          < GetProperFee q + MinTxFeeRate (cfg mem)) as Hlt.
  { unfold ceilToUnit.
    destruct (Z.eqb_spec (MinTxFeeRate (cfg mem)) 0) as [|Hne]; [lia|].
    pose proof (Z.div_mod (GetProperFee q + MinTxFeeRate (cfg mem) - 1)
                  (MinTxFeeRate (cfg mem)) Hne).
    pose proof (Z.mod_pos_bound
                  (GetProperFee q + MinTxFeeRate (cfg mem) - 1)
                  (MinTxFeeRate (cfg mem)) Hunit).
    lia. }
  split; [lia|]. split; [lia|].
  destruct (Z.min_spec (ceilToUnit (MinTxFeeRate (cfg mem)) (GetProperFee q))
              (MaxTxFeeRate (cfg mem))) as [[_ ->]|[_ ->]]; [by right|by left].
Qed.
End FeeMore.

(** ** More on the rollback *)

Section RollbackMore.
Context `{!ChainTypes, !PoolPackage}.

(** [delBlock] as the readmission of the candidates, for use below. *)
Lemma delBlock_fold (mem : Mempool) (block : Block) :
  delBlock mem block
  = Some (foldl specReadmit mem (specCandidates (Txs block))).
Proof.
  unfold delBlock, specCandidates.
  destruct (Txs block) as [|tx0 rest] eqn:Htxs; [reflexivity|].
  change (length (tx0 :: rest) <=? 0)%nat with false. cbv iota.
  destruct (String.eqb (ActionName tx0) MinerAction) eqn:Hminer.
  - simpl delBlockLoop. rewrite Hminer. simpl.
    rewrite delBlockLoop_scan; [|lia|simpl; lia].
    simpl. rewrite drop_0, Nat.sub_0_r. reflexivity.
  - rewrite delBlockLoop_scan; [| |lia].
    + rewrite drop_0, Nat.sub_0_r. reflexivity.
    + intros _ tx [= <-]. exact Hminer.
Qed.

Lemma specReadmit_fields (mem : Mempool) (tx : Transaction) :
  header (specReadmit mem tx) = header mem
  ∧ sync (specReadmit mem tx) = sync mem
  ∧ cfg (specReadmit mem tx) = cfg mem.
Proof.
  unfold specReadmit, PushTx.
  destruct (txCheck tx _ _ _ && checkExpireValid mem tx); [|done].
  destruct (cachePush (cache mem) tx). done.
Qed.

(** X12: A rollback changes nothing but the cache: header, sync flag and
    configuration of the pool are after [delBlock] what they were. *)
Theorem delBlock_keeps_header_and_config (mem mem' : Mempool)
    (block : Block) :
  delBlock mem block = Some mem' →
  header mem' = header mem ∧ sync mem' = sync mem ∧ cfg mem' = cfg mem.
Proof.
  rewrite delBlock_fold. intros [= <-].
  generalize (specCandidates (Txs block)). intros candidates.
  revert mem. induction candidates as [|tx candidates IH]; intros mem;
    [done|].
  cbn [foldl]. destruct (IH (specReadmit mem tx)) as (Hh & Hs & Hc).
  destruct (specReadmit_fields mem tx) as (Hh' & Hs' & Hc').
  rewrite Hh, Hs, Hc. done.
Qed.

Lemma specGroupScan_no_groups (fuel : nat) (txs : list Transaction) :
  (length txs ≤ fuel)%nat →
  Forall (λ tx, GroupCount tx ≤ 1) txs →
  specGroupScan fuel txs = txs.
Proof.
  revert txs. induction fuel as [|fuel IH]; intros txs Hfuel Hsingle.
  - destruct txs; [reflexivity|simpl in Hfuel; lia].
  - destruct txs as [|tx txs]; [reflexivity|].
    apply Forall_cons in Hsingle as [Htx Hsingle].
    cbn [specGroupScan].
    destruct (Z.ltb_spec 1 (GroupCount tx)); [lia|]. cbn [andb].
    f_equal. apply IH; [simpl in Hfuel; lia|exact Hsingle].
Qed.

(** X13: In a block in which no transaction declares a group, [delBlock]
    revalidates the transactions one by one in block order, all but a
    miner's transaction at position 0; a miner-tagged transaction further
    down is revalidated like any other. *)
Theorem delBlock_without_groups (mem : Mempool) (block : Block) :
  Forall (λ tx, GroupCount tx ≤ 1) (Txs block) →
  delBlock mem block
  = Some (foldl specReadmit mem
            (match Txs block with
             | tx0 :: rest =>
                 if String.eqb (ActionName tx0) MinerAction then rest
                 else tx0 :: rest
             | [] => []
             end)).
Proof.
  intros Hsingle. rewrite delBlock_fold. unfold specCandidates.
  destruct (Txs block) as [|tx0 rest]; [reflexivity|].
  destruct (String.eqb (ActionName tx0) MinerAction).
  - rewrite specGroupScan_no_groups; [reflexivity|lia|].
    by apply Forall_cons in Hsingle as [_ ?].
  - rewrite specGroupScan_no_groups; [reflexivity|lia|exact Hsingle].
Qed.

(** X14: When every candidate of the block fails the check or the expiry
    test against the pool, the rollback leaves the pool exactly as it was. *)
Theorem delBlock_all_invalid (mem : Mempool) (block : Block) :
  Forall (λ tx, txCheck tx (headerGetHeight mem) (MinTxFeeRate (cfg mem))
                  (MaxTxFee (cfg mem)) = false
                ∨ checkExpireValid mem tx = false)
    (specCandidates (Txs block)) →
  delBlock mem block = Some mem.
Proof.
  rewrite delBlock_fold. generalize (specCandidates (Txs block)).
  intros candidates Hbad. f_equal.
  induction Hbad as [|tx candidates Htx Hbad IH]; [reflexivity|].
  cbn [foldl].
  assert (specReadmit mem tx = mem) as ->; [|exact IH].
  unfold specReadmit. destruct Htx as [->| ->]; [reflexivity|].
  by rewrite andb_false_r.
Qed.
End RollbackMore.

(** ** The header task *)

(** X15: [pollLastHeader] asks again after every failure, a second later,
    and stops at the first header it gets: the pool then holds that header,
    [Height] answers its height, the readiness signal is the last thing the
    task does, and whatever the chain would answer later is never asked for. *)
Theorem pollLastHeader_first_success (failures : nat) (h : Header)
    (later : list HeaderRound) (mem : Mempool) :
  let run := pollLastHeader
               (replicate failures HeaderError ++ HeaderOk h :: later) mem in
  run = (setHeader mem h,
         (replicate failures [AskLastHeader; SleepSecond] ≫= id)
           ++ [AskLastHeader; SignalHeader],
         true)
  ∧ GetHeader run.1.1 = Some h
  ∧ mempoolHeight run.1.1 = Height h
  ∧ cache run.1.1 = cache mem.
Proof.
  assert (Hloop : pollLastHeaderLoop
                    (replicate failures HeaderError ++ HeaderOk h :: later)
                    mem
                  = (setHeader mem h,
                     (replicate failures [AskLastHeader; SleepSecond] ≫= id)
                       ++ [AskLastHeader],
                     true)).
  { induction failures as [|failures IH]; [reflexivity|].
    cbn [replicate app pollLastHeaderLoop]. rewrite IH. reflexivity. }
  cbv zeta. unfold pollLastHeader. rewrite Hloop.
  rewrite <- app_assoc. done.
Qed.

(** X16: Closed before any header arrived, [pollLastHeader] gives up without
    asking the chain again and without touching the pool, and still signals
    readiness. *)
Theorem pollLastHeader_closed (failures : nat) (later : list HeaderRound)
    (mem : Mempool) :
  pollLastHeader (replicate failures HeaderError ++ HeaderClosed :: later) mem
  = (mem,
     (replicate failures [AskLastHeader; SleepSecond] ≫= id)
       ++ [SignalHeader],
     true).
Proof.
  assert (Hloop : pollLastHeaderLoop
                    (replicate failures HeaderError ++ HeaderClosed :: later)
                    mem
                  = (mem,
                     replicate failures [AskLastHeader; SleepSecond] ≫= id,
                     true)).
  { induction failures as [|failures IH]; [reflexivity|].
    cbn [replicate app pollLastHeaderLoop]. rewrite IH. reflexivity. }
  unfold pollLastHeader. rewrite Hloop. reflexivity.
Qed.

(** ** More on the sync gate *)

Lemma elem_of_after_poll (act : SyncAction) (acts : list SyncAction) :
  act ≠ AskIsSync → act ≠ Sleep →
  act ∈ AskIsSync :: Sleep :: acts ↔ act ∈ acts.
Proof.
  intros H1 H2. rewrite !elem_of_cons. split; [|by auto].
  intros [?|[?|?]]; done.
Qed.

Lemma checkSyncLoop_notifies (rounds : list SyncRound) (mem : Mempool) :
  sync mem = false →
  (sync (checkSyncLoop rounds mem).1.1 = true
   ↔ NotifyP2P ∈ (checkSyncLoop rounds mem).1.2)
  ∧ (NotifyP2P ∈ (checkSyncLoop rounds mem).1.2
     → (checkSyncLoop rounds mem).2 = true)
  ∧ (SignalReady ∉ (checkSyncLoop rounds mem).1.2)
  ∧ header (checkSyncLoop rounds mem).1.1 = header mem
  ∧ cfg (checkSyncLoop rounds mem).1.1 = cfg mem
  ∧ cache (checkSyncLoop rounds mem).1.1 = cache mem.
Proof.
  intros Hsync.
  assert (Hstop : (sync mem = true ↔ NotifyP2P ∈ @nil SyncAction)
                  ∧ (NotifyP2P ∈ @nil SyncAction → true = true)
                  ∧ (SignalReady ∉ @nil SyncAction)
                  ∧ header mem = header mem ∧ cfg mem = cfg mem
                  ∧ cache mem = cache mem).
  { rewrite Hsync. repeat split; try done.
    - by intros ?%elem_of_nil.
    - apply not_elem_of_nil. }
  induction rounds as [|round rounds IH].
  - simpl. destruct Hstop as (H1 & _ & H3 & _).
    repeat split; try done; try apply H1. by intros ?%elem_of_nil.
  - destruct IH as (IH1 & IH2 & IH3 & IH4 & IH5 & IH6).
    assert (Hpoll : let '(mem', acts, returned) := checkSyncLoop rounds mem in
              (sync mem' = true ↔ NotifyP2P ∈ AskIsSync :: Sleep :: acts)
              ∧ (NotifyP2P ∈ AskIsSync :: Sleep :: acts → returned = true)
              ∧ (SignalReady ∉ AskIsSync :: Sleep :: acts)
              ∧ header mem' = header mem ∧ cfg mem' = cfg mem
              ∧ cache mem' = cache mem).
    { destruct (checkSyncLoop rounds mem) as [[mem' acts] returned].
      simpl in *. rewrite !elem_of_after_poll by done. done. }
    destruct round; simpl.
    + exact Hstop.
    + destruct (checkSyncLoop rounds mem) as [[mem' acts] returned].
      exact Hpoll.
    + destruct (checkSyncLoop rounds mem) as [[mem' acts] returned].
      exact Hpoll.
    + destruct (checkSyncLoop rounds mem) as [[mem' acts] returned].
      exact Hpoll.
    + repeat split; try done.
      * intros _. right. left.
      * intros [?|[?|?%elem_of_nil]%elem_of_cons]%elem_of_cons; done.
Qed.

(** X17: Without [ForceAccept], on a pool not yet synced, [checkSync] marks
    the pool synced exactly when it has told the broadcast layer, which it
    does only on its way out; it signals readiness exactly when it returns;
    and it leaves header, configuration and cache alone. *)
Theorem checkSync_notifies_when_synced (rounds : list SyncRound)
    (mem : Mempool) :
  sync mem = false →
  ForceAccept (cfg mem) = false →
  (sync (checkSync rounds mem).1.1 = true
   ↔ NotifyP2P ∈ (checkSync rounds mem).1.2)
  ∧ (NotifyP2P ∈ (checkSync rounds mem).1.2 → (checkSync rounds mem).2 = true)
  ∧ (SignalReady ∈ (checkSync rounds mem).1.2
     ↔ (checkSync rounds mem).2 = true)
  ∧ header (checkSync rounds mem).1.1 = header mem
  ∧ cfg (checkSync rounds mem).1.1 = cfg mem
  ∧ cache (checkSync rounds mem).1.1 = cache mem.
Proof.
  intros Hsync Hforce. unfold checkSync. rewrite Hsync, Hforce.
  destruct (checkSyncLoop_notifies rounds mem Hsync)
    as (H1 & H2 & H3 & H4 & H5 & H6).
  destruct (checkSyncLoop rounds mem) as [[mem' acts] returned].
  simpl in *.
  assert (Hsignal : NotifyP2P ∈ acts ++ (if returned then [SignalReady]
                                         else [])
                    ↔ NotifyP2P ∈ acts).
  { rewrite elem_of_app. split; [|by left].
    intros [?|Hin]; [done|]. destruct returned.
    - apply list_elem_of_singleton in Hin. discriminate.
    - by apply elem_of_nil in Hin. }
  repeat split; try done.
  - intros Hs. apply Hsignal. by apply H1.
  - intros Hn. apply H1. by apply Hsignal.
  - intros Hn. apply H2. by apply Hsignal.
  - intros [?|Hin]%elem_of_app; [done|].
    destruct returned; [done|by apply elem_of_nil in Hin].
  - intros ->. apply elem_of_app. right. left.
Qed.

(** ** More on the resubmitter *)

Section ResubmitterMore.
Context {World : Type}.
Variable SendTx : World → Transaction → World * option error.

Lemma poolFullOf_elem (results : list (Transaction * option error))
    (tx : Transaction) :
  tx ∈ poolFullOf results → tx ∈ results.*1.
Proof.
  unfold poolFullOf. intros (r & -> & Hr)%list_elem_of_fmap.
  apply (list_elem_of_filter (λ r, r.2 = Some ErrMemFull)) in Hr as [_ Hr].
  apply list_elem_of_fmap. by exists r.
Qed.

Lemma pushDelayTxLoop_buffer (events : list RoutineEvent) (w : World)
    (retryList : list Transaction) (tx : Transaction) :
  tx ∈ (pushDelayTxLoop SendTx events (w, retryList)).2 →
  tx ∈ retryList ∨ tx ∈ delayedTxs events.
Proof.
  revert w retryList. induction events as [|event events IH];
    intros w retryList; [by left|].
  destruct event as [|delayList|]; cbn [pushDelayTxLoop delayedTxs].
  - by left.
  - rewrite push2Mempool_pass. intros [Hin|Hin]%IH; [|right].
    + apply elem_of_app in Hin as [Hin|Hin]; [by left|right].
      apply elem_of_app. left.
      apply poolFullOf_elem in Hin. by rewrite passResults_txs in Hin.
    + apply elem_of_app. by right.
  - cbn [fst snd].
    destruct retryList as [|tx0 retryList]; [exact (IH w [])|].
    change (length (tx0 :: retryList) =? 0)%nat with false. cbv iota.
    rewrite push2Mempool_pass. intros [Hin|Hin]%IH; [left|by right].
    rewrite app_nil_l in Hin.
    apply poolFullOf_elem in Hin. by rewrite passResults_txs in Hin.
Qed.

(** X18: The retry buffer holds only transactions that arrived on the delay
    channel before the routine was told to stop. *)
Theorem pushDelayTxRoutine_buffer_from_delay_lists
    (events : list RoutineEvent) (w : World) (tx : Transaction) :
  tx ∈ (pushDelayTxRoutine SendTx events w).2 → tx ∈ delayedTxs events.
Proof.
  unfold pushDelayTxRoutine. intros [Hin|Hin]%pushDelayTxLoop_buffer;
    [by apply elem_of_nil in Hin|exact Hin].
Qed.

Lemma passWorld_app (w : World) (txs1 txs2 : list Transaction) :
  passWorld SendTx w (txs1 ++ txs2)
  = passWorld SendTx (passWorld SendTx w txs1) txs2.
Proof. unfold passWorld. apply foldl_app. Qed.

Lemma poolFullOf_never (w : World) (txs : list Transaction) :
  (∀ w tx, (SendTx w tx).2 ≠ Some ErrMemFull) →
  poolFullOf (passResults SendTx w txs) = [].
Proof.
  intros Hroom. revert w. induction txs as [|tx txs IH]; intros w;
    [reflexivity|].
  simpl. unfold poolFullOf in *.
  rewrite filter_cons_False by (simpl; apply Hroom). apply IH.
Qed.

(** X19: While the node never answers "pool full", nothing is ever buffered,
    and what the routine submits is each delayed transaction once, in the
    order of arrival: no tick resubmits anything. *)
Theorem pushDelayTxRoutine_without_pool_full (events : list RoutineEvent)
    (w : World) :
  (∀ w tx, (SendTx w tx).2 ≠ Some ErrMemFull) →
  pushDelayTxRoutine SendTx events w
  = (passWorld SendTx w (delayedTxs events), []).
Proof.
  intros Hroom. unfold pushDelayTxRoutine. revert w.
  induction events as [|event events IH]; intros w; [reflexivity|].
  destruct event as [|delayList|]; cbn [pushDelayTxLoop delayedTxs].
  - reflexivity.
  - rewrite push2Mempool_pass, poolFullOf_never by exact Hroom.
    rewrite IH, passWorld_app. reflexivity.
  - apply IH.
Qed.
End ResubmitterMore.

(** ** Lookup by hash *)

Section TxListByHashProofs.
Variable GetSHashTxCache : txCache → string → option Transaction.
Variable getTxByHash : txCache → string → option Transaction.

Lemma foldl_snoc_fmap {A B : Type} (f : A → B) (l : list A) (acc : list B) :
  foldl (λ acc x, acc ++ [f x]) acc l = acc ++ (f <$> l).
Proof.
  revert acc. induction l as [|x l IH]; intros acc; simpl.
  - by rewrite app_nil_r.
  - rewrite IH. by rewrite <- app_assoc.
Qed.

(** X20: The reply of [getTxListByHash] is aligned with the request: it has
    one entry per requested hash, in the order of the request, the entry of
    a hash being what the cache finds for it ([nil] when it finds nothing)
    in the index the request selects. *)
Theorem getTxListByHash_aligned (mem : Mempool) (hashList : ReqTxHashList) :
  let reply := getTxListByHash GetSHashTxCache getTxByHash mem hashList in
  length reply = length (ReqHashes hashList)
  ∧ ∀ (i : nat) hash, ReqHashes hashList !! i = Some hash →
      reply !! i
      = Some (if IsShortHash hashList
              then GetSHashTxCache (cache mem) hash
              else getTxByHash (cache mem) hash).
Proof.
  cbv zeta. unfold getTxListByHash.
  destruct (IsShortHash hashList); rewrite foldl_snoc_fmap, app_nil_l.
  - split; [apply length_fmap|]. intros i hash Hi.
    by rewrite list_lookup_fmap, Hi.
  - split; [apply length_fmap|]. intros i hash Hi.
    by rewrite list_lookup_fmap, Hi.
Qed.
End TxListByHashProofs.

(** ** Signature helpers *)

Lemma goStore_at (s l1 m l2 : list Z) (x i v : Z) :
  s = l1 ++ m ++ x :: l2 →
  i = Z.of_nat (length l1 + length m) →
  goStore s i v = Some (l1 ++ m ++ v :: l2).
Proof.
  intros -> ->. unfold goStore. rewrite !length_app. cbn [length].
  destruct (Z.leb_spec 0 (Z.of_nat (length l1 + length m))); [|lia].
  destruct (Z.ltb_spec (Z.of_nat (length l1 + length m))
              (Z.of_nat (length l1 + (length m + S (length l2))))); [|lia].
  cbn [andb]. f_equal. rewrite Nat2Z.id.
  rewrite insert_app_r_alt by lia.
  rewrite insert_app_r_alt by lia.
  assert (length l1 + length m - length l1 - length m = 0)%nat as -> by lia.
  reflexivity.
Qed.

Lemma goCopy_at (s l1 m old l2 src : list Z) (from : Z) :
  s = l1 ++ m ++ old ++ l2 →
  from = Z.of_nat (length l1 + length m) →
  length old = length src →
  goCopy s from src = Some (l1 ++ m ++ src ++ l2, Z.of_nat (length src)).
Proof.
  intros -> -> Hlen. unfold goCopy. rewrite !length_app.
  destruct (Z.leb_spec 0 (Z.of_nat (length l1 + length m))); [|lia].
  destruct (Z.leb_spec (Z.of_nat (length l1 + length m))
              (Z.of_nat (length l1
                         + (length m + (length old + length l2)))));
    [|lia].
  cbn [andb]. rewrite Nat2Z.id.
  assert (Nat.min (length l1 + (length m + (length old + length l2))
                   - (length l1 + length m)) (length src) = length src)
    as -> by lia.
  rewrite firstn_all. f_equal. f_equal.
  rewrite !(assoc_L (++) l1 m), <- (length_app l1 m).
  rewrite take_app_length, drop_app_add, <- Hlen, drop_app_length.
  reflexivity.
Qed.

Lemma goIndex_at (s l1 m l2 : list Z) (x i : Z) :
  s = l1 ++ m ++ x :: l2 →
  i = Z.of_nat (length l1 + length m) →
  goIndex s i = Some x.
Proof.
  intros -> ->. unfold goIndex.
  destruct (Z.leb_spec 0 (Z.of_nat (length l1 + length m))); [|lia].
  rewrite Nat2Z.id, (assoc_L (++)), <- length_app.
  by rewrite list_lookup_middle.
Qed.

Lemma goSlice_at (s l1 m mid l2 : list Z) (low high : Z) :
  s = l1 ++ m ++ mid ++ l2 →
  low = Z.of_nat (length l1 + length m) →
  high = Z.of_nat (length l1 + length m + length mid) →
  goSlice s [] low high = Some mid.
Proof.
  intros -> -> ->. unfold goSlice. rewrite !length_app. cbn [length].
  destruct (Z.leb_spec 0 (Z.of_nat (length l1 + length m))); [|lia].
  destruct (Z.leb_spec (Z.of_nat (length l1 + length m))
              (Z.of_nat (length l1 + length m + length mid))); [|lia].
  destruct (Z.leb_spec (Z.of_nat (length l1 + length m + length mid))
              (Z.of_nat (length l1
                         + (length m + (length mid + length l2)) + 0)));
    [|lia].
  cbn [andb]. f_equal. rewrite app_nil_r, Nat2Z.id.
  rewrite !(assoc_L (++) l1 m), <- length_app, drop_app_length.
  assert (Z.to_nat (Z.of_nat (length (l1 ++ m) + length mid)
                    - Z.of_nat (length (l1 ++ m)))
          = length mid) as -> by lia.
  apply take_app_length.
Qed.

Lemma byteOf_small (z : Z) : 0 ≤ z < 256 → byteOf z = z.
Proof. intros Hz. unfold byteOf. by apply Z.mod_small. Qed.

(** The writes of [MakeDERsignature] on two values that are already
    padded. *)
Lemma MakeDERsignature_writes (rb sb : list Z) :
  let total := 6 + Z.of_nat (length rb) + Z.of_nat (length sb) in
  (b ← goStore (replicate (Z.to_nat total) 0) 0 0x30;
   b ← goStore b 1 (byteOf (total - 2));
   b ← goStore b 2 0x02;
   b ← goStore b 3 (byteOf (Z.of_nat (length rb)));
   copied ← goCopy b 4 rb;
   let offset := copied.2 + 4 in
   b ← goStore copied.1 offset 0x02;
   b ← goStore b (offset + 1) (byteOf (Z.of_nat (length sb)));
   copied ← goCopy b (offset + 2) sb;
   Some copied.1)
  = Some (derLayout rb sb).
Proof.
  intros total.
  assert (replicate (Z.to_nat total) 0
          = 0 :: 0 :: 0 :: 0
              :: (replicate (length rb) 0
                  ++ 0 :: 0 :: (replicate (length sb) 0 ++ [])))
    as ->.
  { unfold total.
    assert (Z.to_nat (6 + Z.of_nat (length rb) + Z.of_nat (length sb))
            = 4 + (length rb + (2 + length sb)))%nat as -> by lia.
    rewrite app_nil_r. cbn [Nat.add replicate].
    by rewrite replicate_add. }
  erewrite (goStore_at _ [] []); [|reflexivity|reflexivity].
  cbn [mbind option_bind app].
  erewrite (goStore_at _ [0x30] []); [|reflexivity|reflexivity].
  cbn [mbind option_bind app].
  erewrite (goStore_at _ [0x30; byteOf (total - 2)] []);
    [|reflexivity|reflexivity].
  cbn [mbind option_bind app].
  erewrite (goStore_at _ [0x30; byteOf (total - 2); 0x02] []);
    [|reflexivity|reflexivity].
  cbn [mbind option_bind app].
  erewrite (goCopy_at _
              [0x30; byteOf (total - 2); 0x02; byteOf (Z.of_nat (length rb))]
              [] (replicate (length rb) 0));
    [|reflexivity|reflexivity|apply length_replicate].
  cbn [mbind option_bind fst snd].
  erewrite (goStore_at _
              [0x30; byteOf (total - 2); 0x02; byteOf (Z.of_nat (length rb))]
              rb);
    [|reflexivity|cbn [length]; lia].
  cbn [mbind option_bind].
  erewrite (goStore_at _
              [0x30; byteOf (total - 2); 0x02; byteOf (Z.of_nat (length rb))]
              (rb ++ [0x02]));
    [|by rewrite <- (assoc_L (++) rb)
     |rewrite length_app; cbn [length]; lia].
  cbn [mbind option_bind].
  erewrite (goCopy_at _
              [0x30; byteOf (total - 2); 0x02; byteOf (Z.of_nat (length rb))]
              (rb ++ [0x02; byteOf (Z.of_nat (length sb))])
              (replicate (length sb) 0) [] sb);
    [|by rewrite <- !(assoc_L (++) rb)
     |rewrite length_app; cbn [length]; lia
     |apply length_replicate].
  cbn [mbind option_bind fst]. f_equal. unfold derLayout, total.
  rewrite app_nil_r, <- (assoc_L (++) rb). cbn [app].
  do 2 f_equal. f_equal. lia.
Qed.

(** [MakeDERsignature] in one piece. *)
Lemma MakeDERsignature_derLayout (rb sb : list Z) :
  MakeDERsignature rb sb
  = if decide (rb = [] ∨ sb = []) then None
    else Some (derLayout (derPad rb) (derPad sb)).
Proof.
  unfold MakeDERsignature.
  destruct rb as [|r0 rb]; [reflexivity|].
  destruct sb as [|s0 sb].
  { destruct (decide (r0 :: rb = [] ∨ [] = [])) as [_|Hn]; [reflexivity|].
    exfalso. apply Hn. by right. }
  destruct (decide (r0 :: rb = [] ∨ s0 :: sb = [])) as [[?|?]|_];
    [done..|].
  change (goIndex (r0 :: rb) 0) with (Some r0).
  cbn [mbind option_bind].
  change (goIndex (s0 :: sb) 0) with (Some s0).
  cbn [mbind option_bind].
  apply (MakeDERsignature_writes (derPad (r0 :: rb)) (derPad (s0 :: sb))).
Qed.

(** X21: [MakeDERsignature] lays out DER: the tag [0x30], the length of what
    follows, and for [r] and [s] in turn the tag [0x02], the length and the
    value, a value whose first byte is above [0x7F] being preceded by a zero
    byte; on an empty [r] or [s] it panics. *)
Theorem MakeDERsignature_layout (rb sb : list Z) :
  MakeDERsignature rb sb
  = if decide (rb = [] ∨ sb = []) then None
    else Some (derLayout (derPad rb) (derPad sb)).
Proof. apply MakeDERsignature_derLayout. Qed.

Lemma derLayout_length (rb sb : list Z) :
  length (derLayout rb sb) = (6 + length rb + length sb)%nat.
Proof.
  unfold derLayout. rewrite !length_app. cbn [length]. lia.
Qed.

(** [paraseDERCode] on a DER layout of accepted length: [r] comes back
    without its first byte when that byte is zero, [s] comes back whole. *)
Lemma paraseDERCode_layout (p0 : Z) (rb sb : list Z) :
  (70 ≤ 6 + length (p0 :: rb) + length sb ≤ 71)%nat →
  paraseDERCode (derLayout (p0 :: rb) sb) []
  = Some (if p0 =? 0 then rb else p0 :: rb, sb, None).
Proof.
  intros Hlen. unfold paraseDERCode. rewrite derLayout_length.
  destruct (Nat.ltb_spec (6 + length (p0 :: rb) + length sb) 70); [lia|].
  destruct (Nat.ltb_spec 71 (6 + length (p0 :: rb) + length sb)); [lia|].
  cbn [orb].
  assert (Hr : byteOf (Z.of_nat (length (p0 :: rb)))
               = Z.of_nat (length (p0 :: rb))).
  { apply byteOf_small. cbn [length] in *. lia. }
  assert (Hs : byteOf (Z.of_nat (length sb)) = Z.of_nat (length sb)).
  { apply byteOf_small. cbn [length] in *. lia. }
  unfold derLayout. rewrite Hr, Hs.
  set (header := [0x30; byteOf (4 + Z.of_nat (length (p0 :: rb))
                                + Z.of_nat (length sb));
                  0x02; Z.of_nat (length (p0 :: rb))]).
  set (sig := header ++ (p0 :: rb) ++ [0x02; Z.of_nat (length sb)] ++ sb).
  change (goIndex sig 0) with (Some 0x30).
  change (goIndex sig 2) with (Some 0x02).
  change (goIndex sig 3) with (Some (Z.of_nat (length (p0 :: rb)))).
  cbn [mbind option_bind Z.eqb Pos.eqb andb].
  rewrite (goSlice_at sig header [] (p0 :: rb)
             ([0x02; Z.of_nat (length sb)] ++ sb));
    [|reflexivity|unfold header; cbn [length]; lia
     |unfold header; cbn [length]; lia].
  cbn [mbind option_bind].
  change (goIndex (p0 :: rb) 0) with (Some p0).
  cbn [mbind option_bind].
  rewrite (goIndex_at sig header (p0 :: rb) (Z.of_nat (length sb) :: sb)
             0x02 (Z.of_nat (length (p0 :: rb)) + 4));
    [|reflexivity|unfold header; cbn [length]; lia].
  cbn [mbind option_bind Z.eqb Pos.eqb].
  rewrite (goIndex_at sig header ((p0 :: rb) ++ [0x02]) sb
             (Z.of_nat (length sb)) (Z.of_nat (length (p0 :: rb)) + 5));
    [|by rewrite <- (assoc_L (++) (p0 :: rb))
     |unfold header; rewrite length_app; cbn [length]; lia].
  cbn [mbind option_bind].
  rewrite (goSlice_at sig header
             ((p0 :: rb) ++ [0x02; Z.of_nat (length sb)]) sb []);
    [|by rewrite <- (assoc_L (++) (p0 :: rb)), app_nil_r
     |unfold header; rewrite length_app; cbn [length]; lia
     |unfold header; rewrite length_app; cbn [length]; lia].
  cbn [mbind option_bind].
  destruct (p0 =? 0); reflexivity.
Qed.

(** [paraseDERCode] after [MakeDERsignature], for encodings of accepted
    length. *)
Lemma DER_layout_round_trip (r0 s0 : Z) (rb sb : list Z) :
  (64 ≤ length (derPad (r0 :: rb)) + length (derPad (s0 :: sb)) ≤ 65)%nat →
  (sig ← MakeDERsignature (r0 :: rb) (s0 :: sb); paraseDERCode sig [])
  = Some (if r0 =? 0 then rb else r0 :: rb, derPad (s0 :: sb), None).
Proof.
  intros Hlen. rewrite MakeDERsignature_derLayout.
  destruct (decide (r0 :: rb = [] ∨ s0 :: sb = [])) as [[?|?]|_]; [done..|].
  cbn [mbind option_bind].
  assert (Hpad : derPad (r0 :: rb)
                 = if 0x7F <? r0 then 0 :: r0 :: rb else r0 :: rb)
    by reflexivity.
  rewrite Hpad in *. clear Hpad.
  destruct (Z.ltb_spec 0x7F r0) as [Hhigh|Hlow].
  - rewrite paraseDERCode_layout by (cbn [length] in *; lia).
    destruct (Z.eqb_spec r0 0); [lia|reflexivity].
  - rewrite paraseDERCode_layout by (cbn [length] in *; lia). reflexivity.
Qed.

(** X22: Encoding with [MakeDERsignature] and decoding with [paraseDERCode]:
    for values whose encoding is 70 or 71 bytes long, [s] comes back as it
    was encoded, that is with its zero pad when its first byte is above
    [0x7F], and [r] comes back as it was given unless its first byte is
    zero, which the decoder takes for a pad and drops. *)
Theorem DER_round_trip (r0 s0 : Z) (rb sb : list Z) :
  (64 ≤ length (derPad (r0 :: rb)) + length (derPad (s0 :: sb)) ≤ 65)%nat →
  (sig ← MakeDERsignature (r0 :: rb) (s0 :: sb); paraseDERCode sig [])
  = Some (if r0 =? 0 then rb else r0 :: rb, derPad (s0 :: sb), None).
Proof. apply DER_layout_round_trip. Qed.

(** X23: An encoding that is not 70 or 71 bytes long, such as that of two
    32-byte values whose first bytes are both above [0x7F] (72 bytes), is
    refused by the decoder with the size error. *)
Theorem DER_round_trip_refused (rb sb : list Z) :
  rb ≠ [] → sb ≠ [] →
  ¬ (64 ≤ length (derPad rb) + length (derPad sb) ≤ 65)%nat →
  (sig ← MakeDERsignature rb sb; paraseDERCode sig [])
  = Some ([], [],
          Some (ErrWrongSigSize
                  (6 + length (derPad rb) + length (derPad sb)))).
Proof.
  intros Hr Hs Hlen. rewrite MakeDERsignature_derLayout.
  destruct (decide (rb = [] ∨ sb = [])) as [[?|?]|_]; [done..|].
  cbn [mbind option_bind]. unfold paraseDERCode.
  rewrite derLayout_length.
  destruct (Nat.ltb_spec (6 + length (derPad rb) + length (derPad sb)) 70);
    [reflexivity|].
  destruct (Nat.ltb_spec 71 (6 + length (derPad rb) + length (derPad sb)));
    [reflexivity|lia].
Qed.

(** [decodeSignature] on a 32-byte [r], a 32-byte [s] and the zero byte
    that [MakeDERSigToRSV] appends. *)
Lemma decodeSignature_halves (rb sb : list Z) :
  length rb = 32%nat → length sb = 32%nat →
  decodeSignature ((rb ++ sb) ++ [0x00])
  = Some (bigEndian rb, bigEndian sb, 27).
Proof.
  intros Hr Hs. unfold decodeSignature.
  rewrite !length_app, Hr, Hs. cbn [length Nat.add Nat.eqb negb].
  rewrite (goIndex_at ((rb ++ sb) ++ [0x00]) rb sb [] 0x00 64);
    [|by rewrite <- (assoc_L (++))|lia].
  cbn [mbind option_bind]. rewrite <- (assoc_L (++)).
  rewrite take_app_length' by done.
  rewrite drop_app_length' by done.
  rewrite take_app_length' by done. reflexivity.
Qed.

(** X24: A signature of two 32-byte values, the first byte of [r] not zero
    and the first byte of [s] at most [0x7F] (the low-[s] form), that is
    encoded with [MakeDERsignature] is decoded by [MakeDERSigToRSV] to the
    numbers [r] and [s]; [v] does not depend on the signature: it is 27
    without a chain id and [35 + 2 * chainID] with one. *)
Theorem MakeDERSigToRSV_round_trip (chainID r0 s0 : Z) (rb sb : list Z) :
  length rb = 31%nat → length sb = 31%nat →
  r0 ≠ 0 → s0 ≤ 0x7F →
  (sig ← MakeDERsignature (r0 :: rb) (s0 :: sb);
   MakeDERSigToRSV chainID sig [])
  = Some (RSVOk (bigEndian (r0 :: rb)) (bigEndian (s0 :: sb))
            (if chainID =? 0 then 27 else 35 + 2 * chainID)).
Proof.
  intros Hr Hs Hr0 Hs0.
  assert (Hpads : derPad (s0 :: sb) = s0 :: sb).
  { cbn [derPad]. by destruct (Z.ltb_spec 0x7F s0); [lia|]. }
  assert (Hparse :
    (sig ← MakeDERsignature (r0 :: rb) (s0 :: sb); paraseDERCode sig [])
    = Some (r0 :: rb, s0 :: sb, None)).
  { rewrite DER_layout_round_trip.
    - rewrite Hpads. by destruct (Z.eqb_spec r0 0).
    - rewrite Hpads. cbn [derPad length].
      destruct (0x7F <? r0); cbn [length]; lia. }
  rewrite MakeDERsignature_derLayout in *.
  destruct (decide (r0 :: rb = [] ∨ s0 :: sb = [])) as [[?|?]|_]; [done..|].
  cbn [mbind option_bind] in *. unfold MakeDERSigToRSV.
  rewrite derLayout_length, Hpads.
  assert ((6 + length (derPad (r0 :: rb)) + length (s0 :: sb) =? 65)%nat
          = false) as ->.
  { apply Nat.eqb_neq. cbn [derPad length].
    destruct (0x7F <? r0); cbn [length]; lia. }
  rewrite Hpads in Hparse. rewrite Hparse. cbn [mbind option_bind].
  rewrite decodeSignature_halves by (cbn [length]; lia).
  cbn [mbind option_bind fst snd].
  rewrite (goIndex_at ((_ ++ _) ++ [0x00]) (r0 :: rb) (s0 :: sb) [] 0x00 64);
    [|by rewrite <- (assoc_L (++))|cbn [length]; lia].
  cbn [mbind option_bind].
  destruct (Z.eqb_spec chainID 0); cbn [negb]; [reflexivity|].
  change (byteOf (0 + 35)) with 35. do 2 f_equal. lia.
Qed.

(** X25: A signature of two 32-byte values whose [s] starts with a byte
    above [0x7F], while [r] needs no pad and does not start with zero, is
    encoded by [MakeDERsignature] in 71 bytes; it passes the size test of
    [paraseDERCode], which hands back [s] with its pad, and
    [decodeSignature] then panics on the 66 bytes [MakeDERSigToRSV] gives
    it. *)
Theorem MakeDERSigToRSV_high_s_panics (chainID r0 s0 : Z) (rb sb : list Z) :
  length rb = 31%nat → length sb = 31%nat →
  r0 ≠ 0 → r0 ≤ 0x7F → 0x7F < s0 →
  (sig ← MakeDERsignature (r0 :: rb) (s0 :: sb);
   MakeDERSigToRSV chainID sig [])
  = None.
Proof.
  intros Hr Hs Hr0 Hr1 Hs0.
  assert (Hpadr : derPad (r0 :: rb) = r0 :: rb).
  { cbn [derPad]. by destruct (Z.ltb_spec 0x7F r0); [lia|]. }
  assert (Hpads : derPad (s0 :: sb) = 0 :: s0 :: sb).
  { cbn [derPad]. by destruct (Z.ltb_spec 0x7F s0); [|lia]. }
  assert (Hparse :
    (sig ← MakeDERsignature (r0 :: rb) (s0 :: sb); paraseDERCode sig [])
    = Some (r0 :: rb, 0 :: s0 :: sb, None)).
  { rewrite DER_layout_round_trip.
    - rewrite Hpads. by destruct (Z.eqb_spec r0 0).
    - rewrite Hpadr, Hpads. cbn [length]. lia. }
  rewrite MakeDERsignature_derLayout in *.
  destruct (decide (r0 :: rb = [] ∨ s0 :: sb = [])) as [[?|?]|_]; [done..|].
  cbn [mbind option_bind] in *. unfold MakeDERSigToRSV.
  rewrite derLayout_length, Hpadr, Hpads.
  assert ((6 + length (r0 :: rb) + length (0%Z :: s0 :: sb) =? 65)%nat
          = false) as ->.
  { apply Nat.eqb_neq. cbn [length]. lia. }
  rewrite Hpadr, Hpads in Hparse. rewrite Hparse. cbn [mbind option_bind].
  unfold decodeSignature. rewrite !length_app. cbn [length].
  rewrite Hr, Hs. reflexivity.
Qed.

(** ** [ParaseEthSigData] *)

Lemma byteOf_wrap32 (z : Z) : byteOf (wrap32 z) = byteOf z.
Proof.
  unfold byteOf, wrap32.
  rewrite (Z.mod_eq (z + 2 ^ 31) (2 ^ 32)) by lia.
  replace (z + 2 ^ 31 - 2 ^ 32 * ((z + 2 ^ 31) `div` 2 ^ 32) - 2 ^ 31)
    with (z + (- (2 ^ 24 * ((z + 2 ^ 31) `div` 2 ^ 32))) * 256) by lia.
  apply Z_mod_plus_full.
Qed.

Lemma byteOf_minus_l (a b : Z) : byteOf (byteOf a - b) = byteOf (a - b).
Proof. unfold byteOf. apply Zminus_mod_idemp_l. Qed.

Lemma byteOf_minus_r (a b : Z) : byteOf (a - byteOf b) = byteOf (a - b).
Proof. unfold byteOf. apply Zminus_mod_idemp_r. Qed.

(** What [ParaseEthSigData] does with a 65-byte signature: only the last
    byte can change. *)
Lemma ParaseEthSigData_last (body : list Z) (v chainID : Z) :
  length body = 64%nat →
  ParaseEthSigData (body ++ [v]) chainID
  = (body ++ [if negb (v =? 0) && negb (v =? 1)
              then if (v =? 27) || (v =? 28) then byteOf (v - 27)
                   else byteOf (v - 2 * chainID - 35)
              else v],
     None).
Proof.
  intros Hlen. unfold ParaseEthSigData.
  rewrite length_app, Hlen. cbn [length Nat.add Nat.eqb negb].
  rewrite <- Hlen, list_lookup_middle by done.
  assert (Hset : ∀ w, <[length body := w]> (body ++ [v]) = body ++ [w]).
  { intros w. rewrite insert_app_r_alt by lia.
    by rewrite Nat.sub_diag. }
  rewrite !Hset.
  rewrite byteOf_wrap32, byteOf_minus_r, byteOf_minus_l.
  by destruct (negb (v =? 0) && negb (v =? 1)), ((v =? 27) || (v =? 28)).
Qed.

(** X26: [ParaseEthSigData] brings the three encodings of a recovery id [p]
    (0 or 1) in the last byte of a 65-byte signature to [p] and leaves the
    64 bytes before it as they are: [p] itself, the legacy [27 + p], and the
    EIP-155 byte [35 + 2 * chainID + p], the last as long as that byte is
    not itself 0 or 1. *)
Theorem ParaseEthSigData_recovery_id (body : list Z) (chainID p : Z) :
  length body = 64%nat → p = 0 ∨ p = 1 →
  ParaseEthSigData (body ++ [p]) chainID = (body ++ [p], None)
  ∧ ParaseEthSigData (body ++ [27 + p]) chainID = (body ++ [p], None)
  ∧ (byteOf (35 + 2 * chainID + p) ≠ 0 →
     byteOf (35 + 2 * chainID + p) ≠ 1 →
     ParaseEthSigData (body ++ [byteOf (35 + 2 * chainID + p)]) chainID
     = (body ++ [p], None)).
Proof.
  intros Hlen Hp. rewrite !ParaseEthSigData_last by done.
  split; [by destruct Hp as [->| ->]|].
  split; [by destruct Hp as [->| ->]|].
  intros H0 H1.
  set (v := byteOf (35 + 2 * chainID + p)) in *.
  destruct (Z.eqb_spec v 0); [done|]. destruct (Z.eqb_spec v 1); [done|].
  cbn [negb andb]. do 3 f_equal.
  assert (Hv : byteOf (v - 2 * chainID - 35) = p).
  { unfold v.
    replace (byteOf (35 + 2 * chainID + p) - 2 * chainID - 35)
      with (byteOf (35 + 2 * chainID + p) - (2 * chainID + 35)) by lia.
    rewrite byteOf_minus_l.
    replace (35 + 2 * chainID + p - (2 * chainID + 35)) with p by lia.
    unfold byteOf. by destruct Hp as [->| ->]. }
  destruct (Z.eqb_spec v 27) as [H27|]; [|destruct (Z.eqb_spec v 28) as [H28|]];
    cbn [orb]; [| |exact Hv].
  - rewrite H27 in *. change (byteOf (27 - 27)) with 0.
    unfold v, byteOf in H27.
    pose proof (Z.mod_eq (35 + 2 * chainID + p) 256 ltac:(lia)).
    destruct Hp as [->| ->]; [done|lia].
  - rewrite H28 in *. change (byteOf (28 - 27)) with 1.
    unfold v, byteOf in H28.
    pose proof (Z.mod_eq (35 + 2 * chainID + p) 256 ltac:(lia)).
    destruct Hp as [->| ->]; [lia|done].
Qed.

(** X27: On a chain whose id makes the EIP-155 byte [35 + 2 * chainID + p]
    wrap to 0 or 1 (ids 110 and 111 modulo 128), [ParaseEthSigData] takes
    the byte for a recovery id and returns the signature unchanged, so that
    the recovery id it reports is [1 - p]. *)
Theorem ParaseEthSigData_eip155_wrapped (body : list Z) (chainID p : Z) :
  length body = 64%nat → p = 0 ∨ p = 1 →
  byteOf (35 + 2 * chainID + p) = 0 ∨ byteOf (35 + 2 * chainID + p) = 1 →
  ParaseEthSigData (body ++ [byteOf (35 + 2 * chainID + p)]) chainID
  = (body ++ [1 - p], None).
Proof.
  intros Hlen Hp Hv. rewrite ParaseEthSigData_last by done.
  pose proof (Z.mod_eq (35 + 2 * chainID + p) 256 ltac:(lia)) as Hmod.
  fold (byteOf (35 + 2 * chainID + p)) in Hmod.
  destruct Hv as [Hv|Hv]; rewrite Hv in *; cbn [Z.eqb Pos.eqb negb andb];
    do 3 f_equal; destruct Hp as [->| ->]; lia.
Qed.

(** * The further properties at work *)

(** With [isAll] set, a walk for two transactions over a pool whose three
    items have all expired, the first one named in the dedup set, returns
    the other two. *)
Lemma filterTxList_isAll_keeps_expired_witness :
  @filterTxList (sampleChain false) agingPool
    (samplePoolOf sampleCfg
       [sampleTx "h1" "A" 0 0; sampleTx "h2" "A" 0 1; sampleTx "h3" "B" 0 0])
    expects5 [] 2 {["h1"]} true
  = [sampleTx "h2" "A" 0 1; sampleTx "h3" "B" 0 0]
  ∧ @filterTxList (sampleChain false) agingPool
      (samplePoolOf sampleCfg
         [sampleTx "h1" "A" 0 0; sampleTx "h2" "A" 0 1;
          sampleTx "h3" "B" 0 0])
      expects5 [] 2 {["h1"]} false
    = [].
Proof.
  split; [|vm_compute; reflexivity].
  rewrite (@filterTxList_isAll_keeps_expired (sampleChain false) agingPool)
    by reflexivity.
  vm_compute. reflexivity.
Defined.

(** The sequencer on the first scenario of the spec returns three of the
    four transactions it was given. *)
Lemma sortEthSignTyTx_submseteq_witness :
  @sortEthSignTyTx (sampleChain true) expects5 ["A"]
    [sampleTx "a8" "A" 1 8; sampleTx "p" "B" 0 0; sampleTx "a5" "A" 1 5;
     sampleTx "a6" "A" 1 6]
  ⊆+ [sampleTx "a8" "A" 1 8; sampleTx "p" "B" 0 0; sampleTx "a5" "A" 1 5;
      sampleTx "a6" "A" 1 6]
  ∧ (length (@sortEthSignTyTx (sampleChain true) expects5 ["A"]
               [sampleTx "a8" "A" 1 8; sampleTx "p" "B" 0 0;
                sampleTx "a5" "A" 1 5; sampleTx "a6" "A" 1 6])
     ≤ 4)%nat.
Proof.
  apply (@sortEthSignTyTx_submseteq (sampleChain true) expects5 ["A"]
           [sampleTx "a8" "A" 1 8; sampleTx "p" "B" 0 0;
            sampleTx "a5" "A" 1 5; sampleTx "a6" "A" 1 6]).
  vm_compute. reflexivity.
Defined.

(** Sequencing the result of the first scenario again changes nothing. *)
Lemma sortEthSignTyTx_idempotent_witness :
  @sortEthSignTyTx (sampleChain true) expects5 ["A"]
    (@sortEthSignTyTx (sampleChain true) expects5 ["A"]
       [sampleTx "a8" "A" 1 8; sampleTx "p" "B" 0 0; sampleTx "a5" "A" 1 5;
        sampleTx "a6" "A" 1 6])
  = @sortEthSignTyTx (sampleChain true) expects5 ["A"]
      [sampleTx "a8" "A" 1 8; sampleTx "p" "B" 0 0; sampleTx "a5" "A" 1 5;
       sampleTx "a6" "A" 1 6].
Proof.
  destruct (@sortEthSignTyTx_idempotent (sampleChain true) expects5 ["A"]
              [sampleTx "a8" "A" 1 8; sampleTx "p" "B" 0 0;
               sampleTx "a5" "A" 1 5; sampleTx "a6" "A" 1 6])
    as [_ Hagain].
  - vm_compute. reflexivity.
  - repeat constructor; vm_compute; discriminate.
  - exact Hagain.
Defined.

(** The transaction the fork-gated listing of a pool of two returns is
    resident, not named in the request and not expired. *)
Lemma getTxList_sound_witness :
  ∃ it,
    it ∈ cacheItems
           (cache (samplePoolOf sampleCfg
                     [sampleTx "a6" "A" 1 6; sampleTx "p" "B" 0 0]))
    ∧ Value it = sampleTx "p" "B" 0 0
    ∧ (Hash (sampleTx "p" "B" 0 0) ∉ Hashes (mkHashList ["x"] 2))
    ∧ @isExpired (samplePool 0) it
        (wrap64 (headerGetHeight
                   (samplePoolOf sampleCfg
                      [sampleTx "a6" "A" 1 6; sampleTx "p" "B" 0 0]) + 1))
        (headerGetBlockTime
           (samplePoolOf sampleCfg
              [sampleTx "a6" "A" 1 6; sampleTx "p" "B" 0 0]))
      = false.
Proof.
  apply (@getTxList_sound (sampleChain true) (samplePool 0)
           (samplePoolOf sampleCfg
              [sampleTx "a6" "A" 1 6; sampleTx "p" "B" 0 0])
           expects5 ["A"] (mkHashList ["x"] 2) (sampleTx "p" "B" 0 0)).
  vm_compute. left.
Defined.

(** Under the fork, a request for three of the four pooled transactions of
    the first scenario is answered with at most three. *)
Lemma getTxList_at_most_count_witness :
  Z.of_nat
    (length (@getTxList (sampleChain true) (samplePool 0)
               (samplePoolOf sampleCfg
                  [sampleTx "a8" "A" 1 8; sampleTx "p" "B" 0 0;
                   sampleTx "a5" "A" 1 5; sampleTx "a6" "A" 1 6])
               expects5 ["A"] (mkHashList [] 3)).1)
  ≤ 3.
Proof.
  apply (@getTxList_at_most_count (sampleChain true) (samplePool 0)
           (samplePoolOf sampleCfg
              [sampleTx "a8" "A" 1 8; sampleTx "p" "B" 0 0;
               sampleTx "a5" "A" 1 5; sampleTx "a6" "A" 1 6])
           expects5 ["A"] (mkHashList [] 3)).
  - reflexivity.
  - intros _. vm_compute. reflexivity.
Defined.

(** For a pool of three transactions, anticipating 1000 more transactions
    is priced at least as high as anticipating 20. *)
Lemma getLevelFeeRate_monotone_witness :
  @getLevelFeeRate (sampleChain false)
    (samplePoolOf sampleCfg
       [sampleTx "h1" "A" 0 0; sampleTx "h2" "A" 0 1; sampleTx "h3" "B" 0 0])
    100000 20 10240 = Some 100000
  ∧ @getLevelFeeRate (sampleChain false)
      (samplePoolOf sampleCfg
         [sampleTx "h1" "A" 0 0; sampleTx "h2" "A" 0 1;
          sampleTx "h3" "B" 0 0])
      100000 1000 10240 = Some 10000000
  ∧ 100000 ≤ 10000000.
Proof.
  split; [reflexivity|]. split; [reflexivity|].
  apply (@getLevelFeeRate_monotone (sampleChain false)
           (samplePoolOf sampleCfg
              [sampleTx "h1" "A" 0 0; sampleTx "h2" "A" 0 1;
               sampleTx "h3" "B" 0 0])
           ((λ tx, mkItem tx (Fee tx) 0)
              <$> [sampleTx "h1" "A" 0 0; sampleTx "h2" "A" 0 1;
                   sampleTx "h3" "B" 0 0])
           100000 20 10240 1000 10240 100000 10000000);
    try reflexivity; vm_compute; try split; discriminate.
Defined.

(** A call with an unset request on a heap of one request leaves that
    request's [TxCount] as it was and allocates at most one request. *)
Lemma GetProperFeeRate_frame_witness :
  ∃ rate h',
    @GetProperFeeRate (sampleChain false) (samplePool 250001)
      (samplePoolOf sampleCfg [sampleTx "h1" "A" 0 0])
      (Some 0%nat) [mkReq 0 0] = Some (rate, h')
    ∧ (1 ≤ length h' ≤ 2)%nat
    ∧ ∃ v', h' !! 0%nat = Some v' ∧ TxCount v' = 0.
Proof.
  eexists _, _. split; [vm_compute; reflexivity|].
  destruct (@GetProperFeeRate_frame (sampleChain false) (samplePool 250001)
              (samplePoolOf sampleCfg [sampleTx "h1" "A" 0 0])
              (Some 0%nat) [mkReq 0 0] [mkReq 0 0; mkReq 20 10240] 300000)
    as (Hlen & _ & Hreq).
  - intros p [= <-]. eexists. reflexivity.
  - vm_compute. reflexivity.
  - split; [exact Hlen|]. exact (Hreq 0%nat (mkReq 0 0) eq_refl eq_refl).
Defined.

(** A pool without a queue and with level fees panics on a fee request. *)
Lemma GetProperFeeRate_without_queue_witness :
  @GetProperFeeRate (sampleChain false) (samplePool 0)
    (mkMempool (Some (mkHeader 10 1000)) false sampleCfg (mkCache None))
    (Some 0%nat) [mkReq 0 0]
  = None.
Proof.
  rewrite (@GetProperFeeRate_without_queue (sampleChain false) (samplePool 0)).
  - reflexivity.
  - intros p [= <-]. eexists. reflexivity.
  - reflexivity.
Defined.

(** A queue that proposes 250001 with unit 100000 gives the cache rate
    300000. *)
Lemma getCacheFeeRate_within_unit_witness :
  250001 ≤ @getCacheFeeRate (samplePool 250001)
             (samplePoolOf sampleCfg [sampleTx "h1" "A" 0 0])
  ∧ @getCacheFeeRate (samplePool 250001)
      (samplePoolOf sampleCfg [sampleTx "h1" "A" 0 0]) < 350001.
Proof.
  destruct (@getCacheFeeRate_within_unit (samplePool 250001)
              (samplePoolOf sampleCfg [sampleTx "h1" "A" 0 0])
              [mkItem (sampleTx "h1" "A" 0 0) 100000 0])
    as (Hlow & Hhigh & _).
  - reflexivity.
  - reflexivity.
  - discriminate.
  - discriminate.
  - split; [exact Hlow|exact Hhigh].
Defined.

(** Rolling back a block of a miner transaction and two transfers leaves
    header, sync flag and configuration of the pool alone. *)
Lemma delBlock_keeps_header_and_config_witness :
  ∃ mem',
    @delBlock (sampleChain false) (samplePool 0) (samplePoolOf sampleCfg [])
      (mkBlock [mkTx "m" "M" "ticket" 0 0 0 "miner" 0 0;
                sampleTx "h1" "A" 0 0; sampleTx "h2" "A" 0 1])
    = Some mem'
    ∧ header mem' = Some (mkHeader 10 1000)
    ∧ sync mem' = false
    ∧ cfg mem' = sampleCfg.
Proof.
  eexists. split; [vm_compute; reflexivity|].
  apply (@delBlock_keeps_header_and_config (sampleChain false)
           (samplePool 0) (samplePoolOf sampleCfg []) _
           (mkBlock [mkTx "m" "M" "ticket" 0 0 0 "miner" 0 0;
                     sampleTx "h1" "A" 0 0; sampleTx "h2" "A" 0 1])).
  vm_compute. reflexivity.
Defined.

(** Rolling back a block of a miner transaction and two transfers offers
    the two transfers to the pool. *)
Lemma delBlock_without_groups_witness :
  @delBlock (sampleChain false) (samplePool 0) (samplePoolOf sampleCfg [])
    (mkBlock [mkTx "m" "M" "ticket" 0 0 0 "miner" 0 0;
              sampleTx "h1" "A" 0 0; sampleTx "h2" "A" 0 1])
  = Some (foldl (@specReadmit (sampleChain false) (samplePool 0))
            (samplePoolOf sampleCfg [])
            [sampleTx "h1" "A" 0 0; sampleTx "h2" "A" 0 1]).
Proof.
  apply (@delBlock_without_groups (sampleChain false) (samplePool 0)
           (samplePoolOf sampleCfg [])
           (mkBlock [mkTx "m" "M" "ticket" 0 0 0 "miner" 0 0;
                     sampleTx "h1" "A" 0 0; sampleTx "h2" "A" 0 1])).
  repeat constructor; vm_compute; discriminate.
Defined.

(** On a chain whose check refuses every transaction, rolling back a block
    leaves the pool as it is. *)
Lemma delBlock_all_invalid_witness :
  @delBlock strictChain (samplePool 0)
    (samplePoolOf sampleCfg [sampleTx "h0" "C" 0 0])
    (mkBlock [mkTx "m" "M" "ticket" 0 0 0 "miner" 0 0;
              sampleTx "h1" "A" 0 0; sampleTx "h2" "A" 0 1])
  = Some (samplePoolOf sampleCfg [sampleTx "h0" "C" 0 0]).
Proof.
  apply (@delBlock_all_invalid strictChain (samplePool 0)
           (samplePoolOf sampleCfg [sampleTx "h0" "C" 0 0])
           (mkBlock [mkTx "m" "M" "ticket" 0 0 0 "miner" 0 0;
                     sampleTx "h1" "A" 0 0; sampleTx "h2" "A" 0 1])).
  vm_compute. repeat constructor.
Defined.

(** Without [ForceAccept], with the chain behind in the first round and
    caught up in the second, the pool is synced and the p2p module has been
    told. *)
Lemma checkSync_notifies_when_synced_witness :
  sync (checkSync [RoundBehind; RoundCaughtUp]
          (samplePoolOf sampleCfg [])).1.1 = true
  ∧ NotifyP2P ∈ (checkSync [RoundBehind; RoundCaughtUp]
                   (samplePoolOf sampleCfg [])).1.2.
Proof.
  destruct (checkSync_notifies_when_synced [RoundBehind; RoundCaughtUp]
              (samplePoolOf sampleCfg []) eq_refl eq_refl)
    as (Hiff & _).
  split; [vm_compute; reflexivity|].
  apply Hiff. vm_compute. reflexivity.
Defined.

(** The transaction a full node leaves in the buffer came in a delay
    list. *)
Lemma pushDelayTxRoutine_buffer_from_delay_lists_witness :
  sampleTx "full" "A" 0 0
  ∈ delayedTxs [EvDelayList [sampleTx "full" "A" 0 0; sampleTx "ok" "B" 0 0];
                EvTick].
Proof.
  apply (pushDelayTxRoutine_buffer_from_delay_lists sampleSendTx
           [EvDelayList [sampleTx "full" "A" 0 0; sampleTx "ok" "B" 0 0];
            EvTick]
           0%nat (sampleTx "full" "A" 0 0)).
  vm_compute. left.
Defined.

(** A node that is never full gets each delayed transaction once, and the
    buffer ends empty. *)
Lemma pushDelayTxRoutine_without_pool_full_witness :
  pushDelayTxRoutine openSendTx
    [EvDelayList [sampleTx "bad" "A" 0 0; sampleTx "ok" "B" 0 0]; EvTick;
     EvDelayList [sampleTx "ok2" "B" 0 1]; EvDone]
    0%nat
  = (3%nat, []).
Proof.
  rewrite (pushDelayTxRoutine_without_pool_full openSendTx).
  - reflexivity.
  - intros w tx. unfold openSendTx. cbn [snd].
    destruct (String.eqb (Hash tx) "bad"); discriminate.
Defined.

(** An [r] with the high bit set and a low [s] come back from the round
    trip as they went in. *)
Lemma DER_round_trip_witness :
  (sig ← MakeDERsignature (sampleScalar 0x80 1) (sampleScalar 0x10 2);
   paraseDERCode sig [])
  = Some (sampleScalar 0x80 1, sampleScalar 0x10 2, None).
Proof.
  apply (DER_round_trip 0x80 0x10 (replicate 31 1) (replicate 31 2)).
  vm_compute. lia.
Defined.

(** Two values with the high bit set make 72 bytes, which the decoder
    refuses. *)
Lemma DER_round_trip_refused_witness :
  (sig ← MakeDERsignature (sampleScalar 0x80 1) (sampleScalar 0x90 2);
   paraseDERCode sig [])
  = Some ([], [], Some (ErrWrongSigSize 72)).
Proof.
  apply (DER_round_trip_refused (sampleScalar 0x80 1) (sampleScalar 0x90 2)).
  - discriminate.
  - discriminate.
  - vm_compute. lia.
Defined.

(** On chain 1 the decoded [v] is 37. *)
Lemma MakeDERSigToRSV_round_trip_witness :
  (sig ← MakeDERsignature (sampleScalar 0x80 1) (sampleScalar 0x10 2);
   MakeDERSigToRSV 1 sig [])
  = Some (RSVOk (bigEndian (sampleScalar 0x80 1))
            (bigEndian (sampleScalar 0x10 2)) 37).
Proof.
  apply (MakeDERSigToRSV_round_trip 1 0x80 0x10 (replicate 31 1)
           (replicate 31 2)).
  - reflexivity.
  - reflexivity.
  - discriminate.
  - discriminate.
Defined.

(** A low [r] with an [s] whose high bit is set panics. *)
Lemma MakeDERSigToRSV_high_s_panics_witness :
  (sig ← MakeDERsignature (sampleScalar 0x10 1) (sampleScalar 0x90 2);
   MakeDERSigToRSV 1 sig [])
  = None.
Proof.
  apply (MakeDERSigToRSV_high_s_panics 1 0x10 0x90 (replicate 31 1)
           (replicate 31 2)).
  - reflexivity.
  - reflexivity.
  - discriminate.
  - discriminate.
  - reflexivity.
Defined.

(** On chain 1 the EIP-155 byte 38 is brought to the recovery id 1. *)
Lemma ParaseEthSigData_recovery_id_witness :
  ParaseEthSigData (replicate 64 7 ++ [38]) 1 = (replicate 64 7 ++ [1], None).
Proof.
  destruct (ParaseEthSigData_recovery_id (replicate 64 7) 1 1 eq_refl
              (or_intror eq_refl))
    as (_ & _ & Heip).
  apply Heip; discriminate.
Defined.

(** On chain 110 the EIP-155 byte of the recovery id 1 wraps to 0, and 0 is
    what comes back. *)
Lemma ParaseEthSigData_eip155_wrapped_witness :
  ParaseEthSigData (replicate 64 7 ++ [0]) 110 = (replicate 64 7 ++ [0], None).
Proof.
  apply (ParaseEthSigData_eip155_wrapped (replicate 64 7) 110 1).
  - reflexivity.
  - right. reflexivity.
  - left. reflexivity.
Defined.
